(** * The traffic forwarder of nautilus-server, as interaction trees

    [src/nautilus-server/traffic_forwarder.py] bridges a TCP listening
    socket and a VSOCK peer.  Its three functions ([server], [forward],
    [main]) talk to the operating system through socket calls and two of
    them loop forever, so each is embedded as an interaction tree over the
    calls it makes.  A run is observed by executing the tree against an
    arbitrary environment (a handler answering every call) for a bounded
    number of steps, recording the calls and their answers.

    Two methods of [nautilus_deploy_improved.py] that build text,
    [update_expose_enclave_script] and [generate_user_data], are embedded
    as functions on strings. *)

From Stdlib Require Import String List ZArith Lia Bool.
From Stdlib Require DecimalString.
From ITree Require Import ITree Eq.Shallow.
Import ListNotations.
Import ITreeNotations.
Local Open Scope itree_scope.
Local Open Scope Z_scope.

(** ** Data *)

(** A socket object is identified by the handle the environment gave it. *)
Definition sock := nat.

(** A [bytes] object. *)
Definition bytes := list Byte.byte.

(** Python truthiness of a [bytes]/[str] value: non-empty. *)
Definition truthy (string : bytes) : bool :=
  match string with
  | [] => false
  | _ :: _ => true
  end.

(** The exceptions the code tells apart: [forward] has one handler for
    [ConnectionResetError] and one for every other [Exception]. *)
Inductive exn : Type :=
| ConnectionResetError (errno : Z)
| OSError (errno : Z)
| RuntimeError
| IndexError
| ValueError.

Inductive address_family : Type := AF_INET | AF_VSOCK.

Inductive shut_how : Type := SHUT_RD | SHUT_WR.

(** The address [accept] returns along with the client socket. *)
Definition peer_addr : Type := string * Z.

(** What a [threading.Thread] object was built to run. *)
Inductive thread_target : Type :=
| target_forward (source destination : sock)
| target_server (local_ip : string) (local_port remote_cid remote_port : Z).

(** The lines the program prints. *)
Inductive message : Type :=
| info_listening (local_ip : string) (local_port : Z)
| info_accepted (addr : peer_addr)
| error_handling_connection (e : exn)
| error_server (e : exn)
| warn_connection_reset (e : exn)
| error_unexpected_socket_exception (e : exn)
| starting_forwarder (local_ip : string) (local_port remote_cid remote_port : Z).

(** ** Calls to the environment

    Every call that can raise answers [inl e] (the exception) or [inr v]
    (the value returned); a [try] block is the sequence of its calls, each
    followed by a match on its answer that runs the [except] clause on
    [inl e].  [close], [print] and [time.sleep] are taken to return
    always.  Starting a thread is a call too: what the thread then does is
    [thread_code] of its target, run on its own. *)
Inductive sockE : Type -> Type :=
| Socket (family : address_family) : sockE (exn + sock)
| SetSockOpt (s : sock) : sockE (exn + unit)
| Bind (s : sock) (local_ip : string) (local_port : Z) : sockE (exn + unit)
| Listen (s : sock) (backlog : Z) : sockE (exn + unit)
| Accept (s : sock) : sockE (exn + sock * peer_addr)
| Connect (s : sock) (remote_cid remote_port : Z) : sockE (exn + unit)
| Recv (s : sock) (bufsize : Z) : sockE (exn + bytes)
| SendAll (s : sock) (data : bytes) : sockE (exn + unit)
| Shutdown (s : sock) (how : shut_how) : sockE (exn + unit)
| Close (s : sock) : sockE unit
| Print (m : message) : sockE unit
| Sleep (secs : Z) : sockE unit
| ThreadStart (t : thread_target) : sockE (exn + unit).

Notation "'call' c ;;; k" := (ITree.bind (ITree.trigger c) (fun _ => k))
  (at level 61, c at next level, right associativity) : itree_scope.

(** How a call of one of the three functions ends: it raises ([inl e])
    or returns [None] ([inr tt]). *)
Definition outcome : Type := exn + unit.
Definition returned : outcome := inr tt.

(** ** [forward] (lines 54-74) *)

(** What the matching [except] clause of [forward] prints: the first
    clause takes [ConnectionResetError], the second every other
    [Exception]. *)
Definition except_message (e : exn) : message :=
  match e with
  | ConnectionResetError _ => warn_connection_reset e
  | _ => error_unexpected_socket_exception e
  end.

(** The two [except] clauses of [forward]: report, close both sockets,
    [break]. *)
Definition forward_except (source destination : sock) (e : exn)
  : itree sockE (bytes + outcome) :=
  call Print (except_message e) ;;;
  call Close source ;;;
  call Close destination ;;;
  Ret (inr returned).

(** One evaluation of the test of [while string:] and of the loop body. *)
Definition forward_body (source destination : sock) (string : bytes)
  : itree sockE (bytes + outcome) :=
  if truthy string then
    r <- ITree.trigger (Recv source 1024) ;;
    match r with
    | inl e => forward_except source destination e
    | inr string =>
        if truthy string then
          r <- ITree.trigger (SendAll destination string) ;;
          match r with
          | inl e => forward_except source destination e
          | inr _ => Ret (inl string)
          end
        else
          r <- ITree.trigger (Shutdown source SHUT_RD) ;;
          match r with
          | inl e => forward_except source destination e
          | inr _ =>
              r <- ITree.trigger (Shutdown destination SHUT_WR) ;;
              match r with
              | inl e => forward_except source destination e
              | inr _ => Ret (inl string)
              end
          end
    end
  else Ret (inr returned).

(** The loop of [forward], entered with [string] bound. *)
Definition forward_loop (source destination : sock) (string : bytes)
  : itree sockE outcome :=
  ITree.iter (forward_body source destination) string.

(** [string = ' '] before the loop. *)
Definition forward (source destination : sock) : itree sockE outcome :=
  forward_loop source destination [Byte.x20].

(** ** [server] (lines 16-51) *)

(** The inner [except Exception] (lines 42-44): report, sleep one second,
    go round the accept loop again. *)
Definition connection_except {R : Type} (e : exn) : itree sockE (unit + R) :=
  call Print (error_handling_connection e) ;;;
  call Sleep 1 ;;;
  Ret (inl tt).

(** The body of the inner [while True:] (lines 26-44). *)
Definition accept_body {R : Type} (dock_socket : sock)
    (remote_cid remote_port : Z) (_ : unit) : itree sockE (unit + R) :=
  r <- ITree.trigger (Accept dock_socket) ;;
  match r with
  | inl e => connection_except e
  | inr (client_socket, addr) =>
      call Print (info_accepted addr) ;;;
      r <- ITree.trigger (Socket AF_VSOCK) ;;
      match r with
      | inl e => connection_except e
      | inr server_socket =>
          r <- ITree.trigger (Connect server_socket remote_cid remote_port) ;;
          match r with
          | inl e => connection_except e
          | inr _ =>
              let outgoing_thread := target_forward client_socket server_socket in
              let incoming_thread := target_forward server_socket client_socket in
              r <- ITree.trigger (ThreadStart outgoing_thread) ;;
              match r with
              | inl e => connection_except e
              | inr _ =>
                  r <- ITree.trigger (ThreadStart incoming_thread) ;;
                  match r with
                  | inl e => connection_except e
                  | inr _ => Ret (inl tt)
                  end
              end
          end
      end
  end.

Definition accept_loop {R : Type} (dock_socket : sock)
    (remote_cid remote_port : Z) : itree sockE R :=
  ITree.iter (accept_body dock_socket remote_cid remote_port) tt.

(** The outer [except Exception] (lines 45-51).  [dock_socket] is the
    binding the variable has when the handler runs: [None] while it was
    never assigned, in which case [dock_socket.close()] is a [NameError]
    that the bare [except] swallows. *)
Definition server_except {R : Type} (dock_socket : option sock) (e : exn)
  : itree sockE (option sock + R) :=
  call Print (error_server e) ;;;
  call Sleep 5 ;;;
  match dock_socket with
  | Some s => call Close s ;;; Ret (inl dock_socket)
  | None => Ret (inl dock_socket)
  end.

(** Lines 19-23, the statements of the outer [try] that come before the
    accept loop.  They give the listening socket, or the exception one of
    them raised together with the binding [dock_socket] has by then. *)
Definition listen_on (local_ip : string) (local_port : Z)
    (dock_socket : option sock) : itree sockE (exn * option sock + sock) :=
  r <- ITree.trigger (Socket AF_INET) ;;
  match r with
  | inl e => Ret (inl (e, dock_socket))
  | inr s =>
      let dock_socket := Some s in
      r <- ITree.trigger (SetSockOpt s) ;;
      match r with
      | inl e => Ret (inl (e, dock_socket))
      | inr _ =>
          r <- ITree.trigger (Bind s local_ip local_port) ;;
          match r with
          | inl e => Ret (inl (e, dock_socket))
          | inr _ =>
              r <- ITree.trigger (Listen s 5) ;;
              match r with
              | inl e => Ret (inl (e, dock_socket))
              | inr _ =>
                  call Print (info_listening local_ip local_port) ;;;
                  Ret (inr s)
              end
          end
      end
  end.

(** The body of the outer [while True:] (lines 18-51); the loop state is
    the binding of the local variable [dock_socket]. *)
Definition server_body (local_ip : string) (local_port remote_cid remote_port : Z)
    (dock_socket : option sock) : itree sockE (option sock + outcome) :=
  r <- listen_on local_ip local_port dock_socket ;;
  match r with
  | inl (e, dock_socket) => server_except dock_socket e
  | inr dock_socket => accept_loop dock_socket remote_cid remote_port
  end.

Definition server_loop (local_ip : string) (local_port remote_cid remote_port : Z)
    (dock_socket : option sock) : itree sockE outcome :=
  ITree.iter (server_body local_ip local_port remote_cid remote_port) dock_socket.

Definition server (local_ip : string) (local_port remote_cid remote_port : Z)
  : itree sockE outcome :=
  server_loop local_ip local_port remote_cid remote_port None.

(** ** [main] (lines 77-91) *)

Section Main.

(** Python's [int] on a command-line argument: the integer, or the
    [ValueError] it raises. *)
Variable int : string -> exn + Z.

(** [args[i]]. *)
Definition subscript (args : list string) (i : nat) : exn + string :=
  match nth_error args i with
  | Some a => inr a
  | None => inl IndexError
  end.

Definition int_arg (args : list string) (i : nat) : exn + Z :=
  match subscript args i with
  | inl e => inl e
  | inr a => int a
  end.

(** The keep-alive loop (lines 90-91). *)
Definition keep_alive : itree sockE outcome :=
  ITree.iter (fun _ : unit => call Sleep 60 ;;; Ret (inl tt)) tt.

Definition main (args : list string) : itree sockE outcome :=
  match subscript args 0 with
  | inl e => Ret (inl e)
  | inr local_ip =>
  match int_arg args 1 with
  | inl e => Ret (inl e)
  | inr local_port =>
  match int_arg args 2 with
  | inl e => Ret (inl e)
  | inr remote_cid =>
  match int_arg args 3 with
  | inl e => Ret (inl e)
  | inr remote_port =>
      let thread := target_server local_ip local_port remote_cid remote_port in
      r <- ITree.trigger (ThreadStart thread) ;;
      match r with
      | inl e => Ret (inl e)
      | inr _ =>
          call Print (starting_forwarder local_ip local_port remote_cid remote_port) ;;;
          keep_alive
      end
  end end end end.

End Main.

(** The code a started thread runs. *)
Definition thread_code (t : thread_target) : itree sockE outcome :=
  match t with
  | target_forward source destination => forward source destination
  | target_server local_ip local_port remote_cid remote_port =>
      server local_ip local_port remote_cid remote_port
  end.

(** ** Running a tree against an environment *)

(** One recorded call with the answer the environment gave. *)
Inductive entry : Type :=
| Call {X : Type} (c : sockE X) (x : X).

(** What is known of a run after a bounded number of steps. *)
Record run (W R : Type) : Type := Run {
  calls : list entry;      (* the calls made so far, with their answers *)
  world : W;               (* the state the environment is left in *)
  result : option R;       (* the value returned, if the tree returned *)
  fuel_left : nat          (* the steps not used *)
}.
Arguments Run {W R}.
Arguments calls {W R}.
Arguments world {W R}.
Arguments result {W R}.
Arguments fuel_left {W R}.

(** The run [r], after the call [e]. *)
Definition record {W R : Type} (e : entry) (r : run W R) : run W R :=
  Run (e :: calls r) (world r) (result r) (fuel_left r).

Section Exec.

(** The environment: a state and the answer it gives to each call. *)
Context {W : Type}.
Variable env : forall X : Type, sockE X -> W -> W * X.

(** [exec fuel t w] lets [t] take up to [fuel] steps (calls and loop
    turns) from the environment state [w]. *)
Fixpoint exec {R : Type} (fuel : nat) (t : itree sockE R) (w : W) : run W R :=
  match fuel with
  | O => Run [] w None O
  | S fuel' =>
      match observe t with
      | RetF r => Run [] w (Some r) fuel
      | TauF t => exec fuel' t w
      | VisF c k =>
          let (w, x) := env _ c w in
          record (Call c x) (exec fuel' (k x) w)
      end
  end.

(** [exec] of a sequence: the first part runs; if it returns, the rest
    runs on the steps that are left. *)
Definition then_ {R S : Type} (r : run W R) (rest : R -> nat -> W -> run W S)
  : run W S :=
  match result r with
  | Some x =>
      let r' := rest x (fuel_left r) (world r) in
      Run (calls r ++ calls r') (world r') (result r') (fuel_left r')
  | None => Run (calls r) (world r) None (fuel_left r)
  end.

(** The runs of a loop [ITree.iter body i]: runs of the body one after
    the other, until one breaks or the steps run out. *)
Inductive iter_run {I R : Type} (body : I -> itree sockE (I + R))
  : I -> W -> list entry -> option R -> Prop :=
| iter_cut i w n :
    iter_run body i w (calls (exec n (body i) w)) None
| iter_again i w n i' l r :
    result (exec n (body i) w) = Some (inl i') ->
    iter_run body i' (world (exec n (body i) w)) l r ->
    iter_run body i w (calls (exec n (body i) w) ++ l) r
| iter_break i w n r :
    result (exec n (body i) w) = Some (inr r) ->
    iter_run body i w (calls (exec n (body i) w)) (Some r).

End Exec.

Arguments iter_run {W} env {I R} body i w l r.

(** A scripted environment for examples: the answers to the calls that
    can raise, in order; the calls that cannot raise leave the script
    alone. *)
Inductive answer : Type :=
| returns
| returns_bytes (b : bytes)
| returns_sock (s : sock)
| raises (e : exn).

Definition scripted (X : Type) (c : sockE X) (script : list answer)
  : list answer * X :=
  let a := hd returns script in
  let rest := tl script in
  let unit_answer : exn + unit :=
    match a with raises e => inl e | _ => inr tt end in
  match c in sockE X return list answer * X with
  | Socket _ =>
      (rest, match a with raises e => inl e | returns_sock s => inr s | _ => inr O end)
  | Accept _ =>
      (rest, match a with
             | raises e => inl e
             | returns_sock s => inr (s, ("10.0.0.1"%string, 40000))
             | _ => inr (O, ("10.0.0.1"%string, 40000))
             end)
  | Recv _ _ =>
      (rest, match a with raises e => inl e | returns_bytes b => inr b | _ => inr [] end)
  | SetSockOpt _ | Bind _ _ _ | Listen _ _ | Connect _ _ _
  | SendAll _ _ | Shutdown _ _ | ThreadStart _ => (rest, unit_answer)
  | Close _ | Print _ | Sleep _ => (script, tt)
  end.

(** An [int] for examples: it reads the three numbers the examples pass
    on the command line and raises [ValueError] on anything else. *)
Definition example_int (s : string) : exn + Z :=
  if String.eqb s "9000" then inr 9000
  else if String.eqb s "9001" then inr 9001
  else if String.eqb s "3" then inr 3
  else inl ValueError.

(** ** Reading a log *)

(** A call to [recv]. *)
Definition is_recv (e : entry) : bool :=
  match e with
  | Call (Recv _ _) _ => true
  | _ => false
  end.

(** The bytes a call to [recv] on [s] returned. *)
Definition bytes_received (s : sock) (e : entry) : bytes :=
  match e with
  | @Call X c x =>
      match c in sockE X return X -> bytes with
      | Recv s' _ => fun x =>
          match x with
          | inr b => if Nat.eqb s' s then b else []
          | inl _ => []
          end
      | _ => fun _ => []
      end x
  end.

(** The bytes a call to [sendall] on [s] wrote: all it was given when it
    returned; how many it wrote before raising is not known, and they are
    not counted. *)
Definition bytes_written (s : sock) (e : entry) : bytes :=
  match e with
  | @Call X c x =>
      match c in sockE X return X -> bytes with
      | SendAll s' data => fun x =>
          match x with
          | inr _ => if Nat.eqb s' s then data else []
          | inl _ => []
          end
      | _ => fun _ => []
      end x
  end.

(** All the bytes read from [s], and all the bytes written to [s], in
    the order of the calls. *)
Definition received (s : sock) (l : list entry) : bytes :=
  flat_map (bytes_received s) l.

Definition written (s : sock) (l : list entry) : bytes :=
  flat_map (bytes_written s) l.

(** A call to [sendall] that raised. *)
Definition sendall_raised (e : entry) : bool :=
  match e with
  | @Call X c x =>
      match c in sockE X return X -> bool with
      | SendAll _ _ => fun x => match x with inl _ => true | inr _ => false end
      | _ => fun _ => false
      end x
  end.

(** The exception a call to [recv] or to [sendall] raised. *)
Definition io_error (e : entry) : option exn :=
  match e with
  | @Call X c x =>
      match c in sockE X return X -> option exn with
      | Recv _ _ => fun x => match x with inl e => Some e | inr _ => None end
      | SendAll _ _ => fun x => match x with inl e => Some e | inr _ => None end
      | _ => fun _ => None
      end x
  end.

(** A call to [shutdown]; a call to [close]. *)
Definition is_shutdown (e : entry) : bool :=
  match e with
  | Call (Shutdown _ _) _ => true
  | _ => false
  end.

Definition is_close (e : entry) : bool :=
  match e with
  | Call (Close _) _ => true
  | _ => false
  end.

(** A [recv] that returned no bytes: the orderly end of the stream. *)
Definition end_of_stream (e : entry) : bool :=
  match e with
  | @Call X c x =>
      match c in sockE X return X -> bool with
      | Recv _ _ => fun x => match x with inr [] => true | _ => false end
      | _ => fun _ => false
      end x
  end.

(** What a [recv] answered. *)
Definition recv_answer (e : entry) : option (exn + bytes) :=
  match e with
  | @Call X c x =>
      match c in sockE X return X -> option (exn + bytes) with
      | Recv _ _ => fun x => Some x
      | _ => fun _ => None
      end x
  end.

(** The exception a call raised, if it raised. *)
Definition raised (e : entry) : option exn :=
  let on {V : Type} (x : exn + V) : option exn :=
    match x with inl e => Some e | inr _ => None end in
  match e with
  | @Call X c x =>
      match c in sockE X return X -> option exn with
      | Socket _ => on | SetSockOpt _ => on | Bind _ _ _ => on | Listen _ _ => on
      | Accept _ => on | Connect _ _ _ => on | Recv _ _ => on | SendAll _ _ => on
      | Shutdown _ _ => on | ThreadStart _ => on
      | Close _ | Print _ | Sleep _ => fun _ => None
      end x
  end.

(** A call that raised. *)
Definition has_raised (e : entry) : bool :=
  match raised e with Some _ => true | None => false end.

(** [s.close()]. *)
Definition closes (s : sock) (e : entry) : bool :=
  match e with
  | Call (Close s') _ => Nat.eqb s' s
  | _ => false
  end.

Definition same_how (h h' : shut_how) : bool :=
  match h, h' with
  | SHUT_RD, SHUT_RD | SHUT_WR, SHUT_WR => true
  | _, _ => false
  end.

(** [s.shutdown(how)], returning. *)
Definition shuts (s : sock) (how : shut_how) (e : entry) : bool :=
  match e with
  | @Call X c x =>
      match c in sockE X return X -> bool with
      | Shutdown s' how' => fun x =>
          match x with
          | inr _ => Nat.eqb s' s && same_how how' how
          | inl _ => false
          end
      | _ => fun _ => false
      end x
  end.

(** What can end the loop of [forward]: the end of the stream, or a call
    that raised. *)
Definition stops (e : entry) : bool := end_of_stream e || has_raised e.

(** The merges of two logs that keep the order of each. *)
Inductive interleave {A : Type} : list A -> list A -> list A -> Prop :=
| interleave_nil : interleave [] [] []
| interleave_left a l1 l2 l :
    interleave l1 l2 l -> interleave (a :: l1) l2 (a :: l)
| interleave_right a l1 l2 l :
    interleave l1 l2 l -> interleave l1 (a :: l2) (a :: l).

(** The exception raised by one of the calls that set the listening
    socket up (lines 19-22). *)
Definition listen_error (e : entry) : option exn :=
  let on {V : Type} (x : exn + V) : option exn :=
    match x with inl e => Some e | inr _ => None end in
  match e with
  | @Call X c x =>
      match c in sockE X return X -> option exn with
      | Socket AF_INET => on | SetSockOpt _ => on | Bind _ _ _ => on | Listen _ _ => on
      | _ => fun _ => None
      end x
  end.

(** The listening socket a setup call was made on; [socket.socket] is made
    on none. *)
Definition listen_socket (e : entry) : option sock :=
  match e with
  | Call (SetSockOpt s) _ | Call (Bind s _ _) _ | Call (Listen s _) _ => Some s
  | _ => None
  end.

(** A [bind] that raised: the socket and the exception. *)
Definition bind_error (e : entry) : option (sock * exn) :=
  match e with
  | @Call X c x =>
      match c in sockE X return X -> option (sock * exn) with
      | Bind s _ _ => fun x => match x with inl e => Some (s, e) | inr _ => None end
      | _ => fun _ => None
      end x
  end.

(** An [accept]: the listening socket and the answer. *)
Definition accept_answer (e : entry) : option (sock * (exn + sock * peer_addr)) :=
  match e with
  | @Call X c x =>
      match c in sockE X return X -> option (sock * (exn + sock * peer_addr)) with
      | Accept s => fun x => Some (s, x)
      | _ => fun _ => None
      end x
  end.

(** A call to [accept]. *)
Definition is_accept (e : entry) : bool :=
  match accept_answer e with Some _ => true | None => false end.

(** The calls that move the bytes of a connection. *)
Definition relay_io (e : entry) : bool :=
  match e with
  | Call (Recv _ _) _ | Call (SendAll _ _) _ | Call (Shutdown _ _) _ => true
  | _ => false
  end.

(** A call to [connect]. *)
Definition is_connect (e : entry) : bool :=
  match e with
  | Call (Connect _ _ _) _ => true
  | _ => false
  end.

(** [l] goes as [expected] as far as it goes, and what comes after
    [expected] satisfies [after]. *)
Definition goes_on (l expected : list entry) (after : list entry -> Prop) : Prop :=
  (exists l', l ++ l' = expected) \/
  (exists rest, l = expected ++ rest /\ after rest).

(** The next call, if there is one, is an [accept] on [dock_socket]. *)
Definition accepts_next (dock_socket : sock) (rest : list entry) : Prop :=
  rest = [] \/ exists y rest', rest = Call (Accept dock_socket) y :: rest'.

(** The next call, if there is one, makes a new listening socket. *)
Definition listens_next (rest : list entry) : Prop :=
  rest = [] \/ exists y rest', rest = Call (Socket AF_INET) y :: rest'.

(** What the outer [except] clause closes after the setup call [e]
    raised. *)
Definition closing_after (e : entry) (closing : list entry) : Prop :=
  (closing = [] \/ exists s, closing = [Call (Close s) tt]) /\
  (forall s, listen_socket e = Some s -> closing = [Call (Close s) tt]).

(** ** The calls of [forward]

    The logs a run of [forward source destination] can leave, turn of the
    loop by turn. *)

Section ForwardLog.

Variables source destination : sock.

(** What the [except] clauses do. *)
Definition teardown (e : exn) : list entry :=
  [Call (Print (except_message e)) tt;
   Call (Close source) tt; Call (Close destination) tt].

(** The calls of one turn of the loop, with what the turn ends in: the
    new value of [string] for the next test of the loop ([inl]), or the
    [break] out of it ([inr]). *)
Inductive turn : list entry -> bytes + outcome -> Prop :=
| turn_forwarded c :
    truthy c = true ->
    turn [Call (Recv source 1024) (inr c); Call (SendAll destination c) (inr tt)] (inl c)
| turn_eof :
    turn [Call (Recv source 1024) (inr []);
          Call (Shutdown source SHUT_RD) (inr tt);
          Call (Shutdown destination SHUT_WR) (inr tt)] (inl [])
| turn_recv_raises e :
    turn (Call (Recv source 1024) (inl e) :: teardown e) (inr returned)
| turn_sendall_raises c e :
    truthy c = true ->
    turn (Call (Recv source 1024) (inr c) :: Call (SendAll destination c) (inl e)
            :: teardown e) (inr returned)
| turn_shutdown_rd_raises e :
    turn (Call (Recv source 1024) (inr []) :: Call (Shutdown source SHUT_RD) (inl e)
            :: teardown e) (inr returned)
| turn_shutdown_wr_raises e :
    turn (Call (Recv source 1024) (inr []) :: Call (Shutdown source SHUT_RD) (inr tt)
            :: Call (Shutdown destination SHUT_WR) (inl e) :: teardown e) (inr returned).

(** The logs of the loop, with the result of [forward] once it has
    returned: turns that forwarded a chunk, then a last turn, whole or
    cut. *)
Inductive forward_log : list entry -> option outcome -> Prop :=
| log_forwarded c l r :
    truthy c = true ->
    forward_log l r ->
    forward_log (Call (Recv source 1024) (inr c)
                   :: Call (SendAll destination c) (inr tt) :: l) r
| log_returned l x :
    turn l x -> (forall c, x = inl c -> c = []) ->
    forward_log l (Some returned)
| log_cut l l' x :
    turn (l ++ l') x ->
    forward_log l None.

(** What follows a [recv] that returned no bytes. *)
Inductive eof_tail : list entry -> Prop :=
| half_closed :
    eof_tail [Call (Shutdown source SHUT_RD) (inr tt);
              Call (Shutdown destination SHUT_WR) (inr tt)]
| shutdown_rd_raised e :
    eof_tail (Call (Shutdown source SHUT_RD) (inl e) :: teardown e)
| shutdown_wr_raised e :
    eof_tail (Call (Shutdown source SHUT_RD) (inr tt)
                :: Call (Shutdown destination SHUT_WR) (inl e) :: teardown e).

(** What follows a [recv] that returned bytes. *)
Definition forwarded_then (c : bytes) (l2 : list entry) (r : option outcome) : Prop :=
  (l2 = [] /\ r = None) \/
  (exists x rest,
     l2 = Call (SendAll destination c) x :: rest /\
     (x = inr tt ->
      (rest = [] /\ r = None) \/
      (exists y rest', rest = Call (Recv source 1024) y :: rest'))).

End ForwardLog.

(** ** The calls of [server]

    The logs a run of [server local_ip local_port remote_cid remote_port]
    can leave, turn by turn of its two loops. *)

Section ServerLog.

Variable local_ip : string.
Variables local_port remote_cid remote_port : Z.

(** What the inner [except] clause does. *)
Definition backoff (e : exn) : list entry :=
  [Call (Print (error_handling_connection e)) tt; Call (Sleep 1) tt].

(** The calls of one turn of the accept loop on [dock_socket]. *)
Inductive accept_turn (dock_socket : sock) : list entry -> Prop :=
| accept_raises e :
    accept_turn dock_socket (Call (Accept dock_socket) (inl e) :: backoff e)
| vsock_raises client_socket addr e :
    accept_turn dock_socket
      (Call (Accept dock_socket) (inr (client_socket, addr))
         :: Call (Print (info_accepted addr)) tt
         :: Call (Socket AF_VSOCK) (inl e) :: backoff e)
| connect_raises client_socket addr server_socket e :
    accept_turn dock_socket
      (Call (Accept dock_socket) (inr (client_socket, addr))
         :: Call (Print (info_accepted addr)) tt
         :: Call (Socket AF_VSOCK) (inr server_socket)
         :: Call (Connect server_socket remote_cid remote_port) (inl e) :: backoff e)
| start_outgoing_raises client_socket addr server_socket e :
    accept_turn dock_socket
      (Call (Accept dock_socket) (inr (client_socket, addr))
         :: Call (Print (info_accepted addr)) tt
         :: Call (Socket AF_VSOCK) (inr server_socket)
         :: Call (Connect server_socket remote_cid remote_port) (inr tt)
         :: Call (ThreadStart (target_forward client_socket server_socket)) (inl e)
         :: backoff e)
| start_incoming_raises client_socket addr server_socket e :
    accept_turn dock_socket
      (Call (Accept dock_socket) (inr (client_socket, addr))
         :: Call (Print (info_accepted addr)) tt
         :: Call (Socket AF_VSOCK) (inr server_socket)
         :: Call (Connect server_socket remote_cid remote_port) (inr tt)
         :: Call (ThreadStart (target_forward client_socket server_socket)) (inr tt)
         :: Call (ThreadStart (target_forward server_socket client_socket)) (inl e)
         :: backoff e)
| handed_over client_socket addr server_socket :
    accept_turn dock_socket
      [Call (Accept dock_socket) (inr (client_socket, addr));
       Call (Print (info_accepted addr)) tt;
       Call (Socket AF_VSOCK) (inr server_socket);
       Call (Connect server_socket remote_cid remote_port) (inr tt);
       Call (ThreadStart (target_forward client_socket server_socket)) (inr tt);
       Call (ThreadStart (target_forward server_socket client_socket)) (inr tt)].

(** The logs of the accept loop: whole turns, then one that is cut. *)
Inductive accept_log (dock_socket : sock) : list entry -> Prop :=
| accept_again t l :
    accept_turn dock_socket t -> accept_log dock_socket l ->
    accept_log dock_socket (t ++ l)
| accept_cut l l' :
    accept_turn dock_socket (l ++ l') -> accept_log dock_socket l.

(** The calls of lines 19-23, with what they give: the exception and the
    binding of [dock_socket], or the listening socket. *)
Inductive setup_turn (dock_socket : option sock)
  : list entry -> exn * option sock + sock -> Prop :=
| socket_raises e :
    setup_turn dock_socket
      [Call (Socket AF_INET) (inl e)] (inl (e, dock_socket))
| setsockopt_raises s e :
    setup_turn dock_socket
      [Call (Socket AF_INET) (inr s); Call (SetSockOpt s) (inl e)]
      (inl (e, Some s))
| bind_raises s e :
    setup_turn dock_socket
      [Call (Socket AF_INET) (inr s); Call (SetSockOpt s) (inr tt);
       Call (Bind s local_ip local_port) (inl e)]
      (inl (e, Some s))
| listen_raises s e :
    setup_turn dock_socket
      [Call (Socket AF_INET) (inr s); Call (SetSockOpt s) (inr tt);
       Call (Bind s local_ip local_port) (inr tt); Call (Listen s 5) (inl e)]
      (inl (e, Some s))
| listening s :
    setup_turn dock_socket
      [Call (Socket AF_INET) (inr s); Call (SetSockOpt s) (inr tt);
       Call (Bind s local_ip local_port) (inr tt); Call (Listen s 5) (inr tt);
       Call (Print (info_listening local_ip local_port)) tt]
      (inr s).

(** What the outer [except] clause does. *)
Definition retry (dock_socket : option sock) (e : exn) : list entry :=
  Call (Print (error_server e)) tt :: Call (Sleep 5) tt ::
  match dock_socket with
  | Some s => [Call (Close s) tt]
  | None => []
  end.

(** The logs of the outer loop entered with [dock_socket] bound as given:
    failed attempts to listen, each with its retry, then either a cut
    attempt or a listening socket and its accept loop. *)
Inductive server_log (dock_socket : option sock) : list entry -> Prop :=
| server_again t e dock_socket' l :
    setup_turn dock_socket t (inl (e, dock_socket')) ->
    server_log dock_socket' l ->
    server_log dock_socket (t ++ retry dock_socket' e ++ l)
| server_listening t s l :
    setup_turn dock_socket t (inr s) -> accept_log s l ->
    server_log dock_socket (t ++ l)
| server_cut_retry t e dock_socket' l l' :
    setup_turn dock_socket t (inl (e, dock_socket')) ->
    l ++ l' = retry dock_socket' e ->
    server_log dock_socket (t ++ l)
| server_cut_setup l l' x :
    setup_turn dock_socket (l ++ l') x ->
    server_log dock_socket l.

End ServerLog.

(** ** What [forward] may call *)

(** A call to [print]. *)
Definition is_print (e : entry) : bool :=
  match e with
  | Call (Print _) _ => true
  | _ => false
  end.

(** The calls [forward source destination] is written to make: [recv] of
    at most 1024 bytes on [source], [sendall] of a chunk that is not empty
    on [destination], [shutdown] of the read side of [source] and of the
    write side of [destination], [close] on either socket, and the two
    lines its [except] clauses print. *)
Definition forward_call (source destination : sock) (e : entry) : bool :=
  match e with
  | Call (Recv s bufsize) _ => Nat.eqb s source && Z.eqb bufsize 1024
  | Call (SendAll s data) _ => Nat.eqb s destination && truthy data
  | Call (Shutdown s SHUT_RD) _ => Nat.eqb s source
  | Call (Shutdown s SHUT_WR) _ => Nat.eqb s destination
  | Call (Close s) _ => Nat.eqb s source || Nat.eqb s destination
  | Call (Print (warn_connection_reset _)) _
  | Call (Print (error_unexpected_socket_exception _)) _ => true
  | _ => false
  end.
(** A call that raised, a [close] or a [print]. *)
Definition loud (e : entry) : bool := has_raised e || is_close e || is_print e.

(** ** What [server] may call *)

(** The lines [server] prints. *)
Definition server_message (local_ip : string) (local_port : Z) (m : message) : bool :=
  match m with
  | info_listening ip port => String.eqb ip local_ip && Z.eqb port local_port
  | info_accepted _ | error_handling_connection _ | error_server _ => true
  | _ => false
  end.

(** The calls [server local_ip local_port remote_cid remote_port] is
    written to make: it binds [(local_ip, local_port)] only, listens with
    a backlog of 5, connects to [(remote_cid, remote_port)] only, sleeps 1
    or 5 seconds, and the threads it starts run [forward]. *)
Definition server_call (local_ip : string) (local_port remote_cid remote_port : Z)
    (e : entry) : bool :=
  match e with
  | Call (Socket _) _ | Call (SetSockOpt _) _ | Call (Accept _) _ | Call (Close _) _ => true
  | Call (Bind _ ip port) _ => String.eqb ip local_ip && Z.eqb port local_port
  | Call (Listen _ backlog) _ => Z.eqb backlog 5
  | Call (Connect _ cid port) _ => Z.eqb cid remote_cid && Z.eqb port remote_port
  | Call (Sleep secs) _ => Z.eqb secs 1 || Z.eqb secs 5
  | Call (ThreadStart (target_forward _ _)) _ => true
  | Call (Print m) _ => server_message local_ip local_port m
  | _ => false
  end.
(** ** The listening socket of [server] *)

(** A call that sets a listening socket up (lines 19-22). *)
Definition listen_setup (e : entry) : bool :=
  match e with
  | Call (Socket AF_INET) _ | Call (SetSockOpt _) _
  | Call (Bind _ _ _) _ | Call (Listen _ _) _ => true
  | _ => false
  end.

(** A [listen] that returned. *)
Definition listen_returned (e : entry) : bool :=
  match e with
  | @Call X c x =>
      match c in sockE X return X -> bool with
      | Listen _ _ => fun x => match x with inr _ => true | inl _ => false end
      | _ => fun _ => false
      end x
  end.

(** The socket a call of [socket.socket(socket.AF_INET, ...)] returned. *)
Definition made_listener (e : entry) : option sock :=
  match e with
  | @Call X c x =>
      match c in sockE X return X -> option sock with
      | Socket AF_INET => fun x => match x with inr s => Some s | inl _ => None end
      | _ => fun _ => None
      end x
  end.

(** The binding of the variable [dock_socket] of [server] after the calls
    [l], when it was [d] before them: line 19 is its only assignment. *)
Definition dock_socket_after (d : option sock) (l : list entry) : option sock :=
  fold_left (fun d e => match made_listener e with Some s => Some s | None => d end) l d.

(** The calls of lines 19-23 when none raises. *)
Definition listening_calls (local_ip : string) (local_port : Z) (s : sock) : list entry :=
  [Call (Socket AF_INET) (inr s); Call (SetSockOpt s) (inr tt);
   Call (Bind s local_ip local_port) (inr tt); Call (Listen s 5) (inr tt);
   Call (Print (info_listening local_ip local_port)) tt].

(** A call of [socket.socket(socket.AF_INET, ...)]. *)
Definition makes_listener (e : entry) : bool :=
  match e with
  | Call (Socket AF_INET) _ => true
  | _ => false
  end.

(** The socket a [close] is called on. *)
Definition closed_socket (e : entry) : option sock :=
  match e with
  | Call (Close s) _ => Some s
  | _ => None
  end.

(** ** Text, as [nautilus_deploy_improved.py] handles it

    A Python [str] is held as the string of its UTF-8 bytes.  The script
    searches for and splits at ASCII text only, which finds the same
    places in the bytes as in the characters. *)

Definition newline : Ascii.ascii := Eval cbv in Ascii.ascii_of_nat 10.

(** The double quote, which a string literal cannot hold. *)
Definition dquote : string := Eval cbv in String (Ascii.ascii_of_nat 34) EmptyString.

(** [sub in s]. *)
Fixpoint contains (sub s : string) : bool :=
  String.prefix sub s ||
  match s with
  | EmptyString => false
  | String _ s' => contains sub s'
  end.

(** [s.split('\n')]: the pieces between the newlines, one more than there
    are newlines. *)
Fixpoint split_lines (s : string) : list string :=
  match s with
  | EmptyString => [EmptyString]
  | String c s' =>
      if Ascii.eqb c newline then EmptyString :: split_lines s'
      else
        match split_lines s' with
        | line :: lines => String c line :: lines
        | [] => [String c EmptyString]
        end
  end.

(** ['\n'.join(lines)]. *)
Definition join_lines (lines : list string) : string :=
  String.concat (String newline EmptyString) lines.

(** [f"{n}"] for an [int]. *)
Definition str_of_int (n : Z) : string :=
  DecimalString.NilZero.string_of_int (Z.to_int n).

(** A text without a newline. *)
Fixpoint one_line (s : string) : bool :=
  match s with
  | EmptyString => true
  | String c s' => negb (Ascii.eqb c newline) && one_line s'
  end.

(** ** [update_expose_enclave_script] (nautilus_deploy_improved.py, lines 188-219) *)

(** The test of the first loop (line 205): a line is kept when it mentions
    neither [SECRET_VALUE=] nor [secrets.json]. *)
Definition kept_line (line : string) : bool :=
  negb (contains "SECRET_VALUE=" line) && negb (contains "secrets.json" line).

(** The two lines added after the marker (lines 213-214). *)
Definition secret_value_line (secret_arn region : string) : string :=
  "SECRET_VALUE=$(aws secretsmanager get-secret-value --secret-id " ++ secret_arn
  ++ " --region " ++ region ++ " | jq -r .SecretString)".

Definition secrets_json_line : string :=
  "echo " ++ dquote ++ "$SECRET_VALUE" ++ dquote ++ " | jq -R '{" ++ dquote ++ "API_KEY"
  ++ dquote ++ ": .}' > secrets.json".

(** The second loop (lines 209-214): every line is taken over, and a line
    that holds the marker is followed by the two new lines. *)
Definition add_secret_lines (secret_arn region : string) (filtered_lines : list string)
  : list string :=
  flat_map (fun line =>
              if contains "# Secrets-block" line
              then [line; secret_value_line secret_arn region; secrets_json_line]
              else [line])
           filtered_lines.

(** From the text read (line 199) to the text written (line 217). *)
Definition updated_script (secret_arn region content : string) : string :=
  let lines := split_lines content in
  let filtered_lines := filter kept_line lines in
  let new_lines := add_secret_lines secret_arn region filtered_lines in
  join_lines new_lines.

(** The lines the method prints. *)
Inductive deploy_message : Type :=
| expose_enclave_not_found
| updated_expose_enclave.

(** Python truthiness of [secret_arn]: [None] and the empty string are
    false. *)
Definition given (secret_arn : option string) : option string :=
  match secret_arn with
  | Some EmptyString | None => None
  | Some arn => Some arn
  end.

(** The method, from the text read to the text written.  [script] is what
    [f.read()] returns (line 199), [None] when the file does not exist.
    The result is the text the method gives to [f.write] (line 217), or
    [script] itself when it writes nothing, and what was printed.  What
    the file holds on disk, and what a later read of it returns, is the
    matter of [update_expose_enclave_file] below.  [role_name] is not used
    by the code. *)
Definition update_expose_enclave_script (region : string)
    (secret_arn : option string) (role_name : string) (script : option string)
  : option string * list deploy_message :=
  match given secret_arn with
  | None => (script, [])
  | Some arn =>
      match script with
      | None => (None, [expose_enclave_not_found])
      | Some content =>
          (Some (updated_script arn region content), [updated_expose_enclave])
      end
  end.

(** ** The file [expose_enclave.sh] on disk (lines 198-217)

    The method opens the file in text mode, for reading and then for
    writing.  The file is held as the characters it holds; how they are
    encoded is not modelled. *)

Definition carriage_return : Ascii.ascii := Eval cbv in Ascii.ascii_of_nat 13.

(** What [f.read()] returns for a file opened with [open(path, 'r')]
    (lines 198-199): a carriage return, with the line feed that follows
    it if there is one, is read as one newline.  [after_cr] tells that the
    character before was a carriage return. *)
Fixpoint read_text_from (after_cr : bool) (file : string) : string :=
  match file with
  | EmptyString => EmptyString
  | String c file' =>
      if Ascii.eqb c carriage_return then String newline (read_text_from true file')
      else if Ascii.eqb c newline && after_cr then read_text_from false file'
      else String c (read_text_from false file')
  end.

Definition read_text (file : string) : string := read_text_from false file.

(** What [f.write(text)] puts into a file opened with [open(path, 'w')]
    (lines 216-217): every newline is written as [os.linesep]. *)
Fixpoint write_text (linesep text : string) : string :=
  match text with
  | EmptyString => EmptyString
  | String c text' =>
      (if Ascii.eqb c newline then linesep else String c EmptyString)
      ++ write_text linesep text'
  end.

(** [os.linesep] on POSIX and on Windows. *)
Definition posix_linesep : string := String newline EmptyString.
Definition windows_linesep : string := String carriage_return (String newline EmptyString).

(** A text without a carriage return. *)
Fixpoint no_return (s : string) : bool :=
  match s with
  | EmptyString => true
  | String c s' => negb (Ascii.eqb c carriage_return) && no_return s'
  end.

(** The method, from the file to the file.  [file] is what
    [expose_enclave.sh] holds, [None] when there is no such file; the
    result is what it holds when the method has returned. *)
Definition update_expose_enclave_file (linesep region : string)
    (secret_arn : option string) (role_name : string) (file : option string)
  : option string :=
  match given secret_arn with
  | None => file
  | Some _ =>
      let script := option_map read_text file in
      match fst (update_expose_enclave_script region secret_arn role_name script) with
      | Some text => Some (write_text linesep text)
      | None => None
      end
  end.

(** ** [generate_user_data] (nautilus_deploy_improved.py, lines 221-274) *)

(** The lines the script starts with (lines 224-243). *)
Definition user_data_head : list string :=
  ["#!/bin/bash";
   "# Update system";
   "sudo yum update -y";
   EmptyString;
   "# Install dependencies";
   "sudo yum install -y aws-nitro-enclaves-cli-devel aws-nitro-enclaves-cli docker nano socat git make jq";
   EmptyString;
   "# Add user to groups";
   "sudo usermod -aG docker ec2-user";
   "sudo usermod -aG ne ec2-user";
   EmptyString;
   "# Start and enable services";
   "sudo systemctl start docker";
   "sudo systemctl enable docker";
   "sudo systemctl start nitro-enclaves-allocator.service";
   "sudo systemctl enable nitro-enclaves-allocator.service";
   "sudo systemctl enable nitro-enclaves-vsock-proxy.service";
   EmptyString]%string.

(** The line that puts an endpoint on the allow-list of the proxy
    (line 248). *)
Definition allow_line (endpoint : string) : string :=
  "echo " ++ dquote ++ "- {address: " ++ endpoint ++ ", port: 443}" ++ dquote
  ++ " | sudo tee -a /etc/nitro_enclaves/vsock-proxy.yaml".

(** The lines that set the allocator up (lines 250-265). *)
Definition user_data_allocator : list string :=
  [EmptyString;
   "# Stop the allocator so we can modify its configuration";
   "sudo systemctl stop nitro-enclaves-allocator.service";
   EmptyString;
   "# Adjust the enclave allocator memory (default set to 3072 MiB)";
   "ALLOCATOR_YAML=/etc/nitro_enclaves/allocator.yaml";
   "MEM_KEY=memory_mib";
   "DEFAULT_MEM=3072";
   "sudo sed -r " ++ dquote ++ "s/^(\s*${MEM_KEY}\s*:\s*).*/\1${DEFAULT_MEM}/" ++ dquote
     ++ " -i " ++ dquote ++ "${ALLOCATOR_YAML}" ++ dquote;
   EmptyString;
   "# Restart the allocator with the updated memory configuration";
   "sudo systemctl start nitro-enclaves-allocator.service";
   "sudo systemctl enable nitro-enclaves-allocator.service";
   EmptyString]%string.

(** The line that starts the proxy of an endpoint (line 271). *)
Definition proxy_line (port : Z) (endpoint : string) : string :=
  "vsock-proxy " ++ str_of_int port ++ " " ++ endpoint
  ++ " 443 --config /etc/nitro_enclaves/vsock-proxy.yaml &".

(** The first loop (lines 246-248). *)
Definition add_allow_lines (user_data_lines endpoints : list string) : list string :=
  match endpoints with
  | [] => user_data_lines
  | _ :: _ =>
      fold_left (fun user_data_lines endpoint => user_data_lines ++ [allow_line endpoint])
                endpoints user_data_lines
  end.

(** The second loop (lines 268-272); its state is the list of lines and
    the variable [port]. *)
Definition add_proxy_lines (user_data_lines endpoints : list string) : list string :=
  match endpoints with
  | [] => user_data_lines
  | _ :: _ =>
      let port := 8101 in
      fst (fold_left (fun '(user_data_lines, port) endpoint =>
                        (user_data_lines ++ [proxy_line port endpoint], port + 1))
                     endpoints (user_data_lines, port))
  end.

Definition generate_user_data (endpoints : list string) : string :=
  let user_data_lines := user_data_head in
  let user_data_lines := add_allow_lines user_data_lines endpoints in
  let user_data_lines := user_data_lines ++ user_data_allocator in
  let user_data_lines := add_proxy_lines user_data_lines endpoints in
  join_lines user_data_lines.

(** The proxy lines of [endpoints] on the ports from [port] on, one port
    each. *)
Fixpoint proxy_lines (port : Z) (endpoints : list string) : list string :=
  match endpoints with
  | [] => []
  | endpoint :: endpoints => proxy_line port endpoint :: proxy_lines (port + 1) endpoints
  end.

(** * Properties *)

(** ** General facts about [exec] *)

Section ExecFacts.

Context {W : Type}.
Variable env : forall X : Type, sockE X -> W -> W * X.

Lemma run_eta {R : Type} (r : run W R) :
  Run (calls r) (world r) (result r) (fuel_left r) = r.
Proof. destruct r; reflexivity. Qed.

Lemma exec_bind {R S : Type} (k : R -> itree sockE S) :
  forall fuel (t : itree sockE R) w,
    exec env fuel (ITree.bind t k) w =
    then_ (exec env fuel t w) (fun x fuel' w' => exec env fuel' (k x) w').
Proof.
  induction fuel as [|fuel IH]; intros t w; [reflexivity|].
  cbn [exec]. rewrite observe_bind.
  destruct (observe t) as [r|t'|X c h]; cbn.
  - unfold then_. cbn. symmetry. apply run_eta.
  - apply IH.
  - destruct (env _ c w) as [w' x]. rewrite IH. unfold then_, record. cbn.
    destruct (result (exec env fuel (h x) w')); reflexivity.
Qed.

Lemma exec_ret {R} n (r : R) w : exec env (S n) (Ret r) w = Run [] w (Some r) (S n).
Proof. reflexivity. Qed.

Lemma exec_tau {R} n (t : itree sockE R) w : exec env (S n) (Tau t) w = exec env n t w.
Proof. reflexivity. Qed.

Lemma exec_call {X R} n (c : sockE X) (k : X -> itree sockE R) w :
  exec env (S n) (ITree.bind (ITree.trigger c) k) w =
  record (Call c (snd (env _ c w))) (exec env n (k (snd (env _ c w))) (fst (env _ c w))).
Proof.
  cbn [exec]. rewrite observe_bind. cbn. destruct (env X c w) as [w' x]. cbn.
  destruct n; reflexivity.
Qed.

Lemma exec_iter {I R} (body : I -> itree sockE (I + R)) n i w :
  exec env n (ITree.iter body i) w =
  then_ (exec env n (body i) w)
    (fun lr fuel w =>
       match lr with
       | inl i' => exec env fuel (Tau (ITree.iter body i')) w
       | inr r => exec env fuel (Ret r) w
       end).
Proof.
  transitivity (exec env n (ITree.bind (body i)
     (fun lr => match lr with inl l => Tau (ITree.iter body l) | inr r => Ret r end)) w).
  - destruct n; reflexivity.
  - rewrite exec_bind. unfold then_. destruct (result _) as [[|]|]; reflexivity.
Qed.

Lemma fuel_left_le {R} : forall n (t : itree sockE R) w, (fuel_left (exec env n t w) <= n)%nat.
Proof.
  induction n as [|n IH]; intros t w; cbn [exec]; [cbn; lia|].
  destruct (observe t) as [r|t'|X c k]; cbn.
  - lia.
  - specialize (IH t' w). lia.
  - destruct (env X c w) as [w' x]. cbn. specialize (IH (k x) w'). lia.
Qed.

(** More fuel extends a run, and changes nothing once the tree has returned. *)
Lemma exec_more {R} k : forall n (t : itree sockE R) w,
  match result (exec env n t w) with
  | Some x => exec env (n + k) t w =
              Run (calls (exec env n t w)) (world (exec env n t w)) (Some x)
                  (fuel_left (exec env n t w) + k)
  | None => exists l', calls (exec env (n + k) t w) = calls (exec env n t w) ++ l'
  end.
Proof.
  induction n as [|n IH]; intros t w.
  - cbn. eauto.
  - cbn [exec Nat.add]. destruct (observe t) as [r|t'|X c h]; cbn.
    + reflexivity.
    + apply IH.
    + destruct (env X c w) as [w' x]. cbn. specialize (IH (h x) w').
      destruct (result (exec env n (h x) w')).
      * rewrite IH. reflexivity.
      * destruct IH as [l' ->]. eauto.
Qed.

Lemma exec_iter_run {I R : Type} (body : I -> itree sockE (I + R)) :
  forall n i w,
    iter_run env body i w (calls (exec env n (ITree.iter body i) w))
                      (result (exec env n (ITree.iter body i) w)).
Proof.
  induction n as [n IH] using lt_wf_ind. intros i w.
  rewrite exec_iter. unfold then_.
  pose proof (fuel_left_le n (body i) w) as Hle.
  destruct (result (exec env n (body i) w)) as [[i'|r]|] eqn:Hres; cbn.
  - destruct (fuel_left (exec env n (body i) w)) as [|m] eqn:Hm.
    + cbn. eapply iter_again; [eassumption|]. apply (iter_cut env body i' _ 0).
    + rewrite exec_tau. eapply iter_again; [eassumption|]. apply IH. lia.
  - destruct (fuel_left (exec env n (body i) w)) as [|m] eqn:Hm; cbn.
    + rewrite app_nil_r. apply iter_cut.
    + rewrite app_nil_r. apply iter_break. assumption.
  - apply iter_cut.
Qed.

Lemma exec_call_unit {R} n (c : sockE unit) (k : unit -> itree sockE R) w :
  exec env (S n) (ITree.bind (ITree.trigger c) k) w =
  record (Call c tt) (exec env n (k tt) (fst (env _ c w))).
Proof. rewrite exec_call. destruct (snd (env unit c w)). reflexivity. Qed.

Lemma exec_within {R} N n (t : itree sockE R) w l x :
  calls (exec env N t w) = l ->
  result (exec env N t w) = Some x ->
  (result (exec env n t w) = Some x /\ calls (exec env n t w) = l) \/
  (result (exec env n t w) = None /\ exists l', l = calls (exec env n t w) ++ l').
Proof.
  intros Hl Hx.
  pose proof (exec_more n N t w) as HN. rewrite Hx in HN.
  pose proof (exec_more N n t w) as Hn.
  rewrite (Nat.add_comm n N), HN in Hn. cbn in Hn.
  destruct (result (exec env n t w)) as [y|].
  - left. inversion Hn; subst. auto.
  - right. split; [reflexivity|]. destruct Hn as [l' Hl']. exists l'. congruence.
Qed.

Lemma exec_cut_fuel {R} : forall n (t : itree sockE R) w,
  result (exec env n t w) = None -> fuel_left (exec env n t w) = O.
Proof.
  induction n as [|n IH]; intros t w; cbn [exec]; [reflexivity|].
  destruct (observe t) as [r|t'|X c k]; cbn.
  - discriminate.
  - apply IH.
  - destruct (env X c w) as [w' x]. cbn. apply IH.
Qed.

Lemma exec_le {R} n m (t : itree sockE R) w :
  (n <= m)%nat ->
  exists l', calls (exec env m t w) = calls (exec env n t w) ++ l' /\
    (result (exec env n t w) <> None ->
     l' = [] /\ result (exec env m t w) = result (exec env n t w)).
Proof.
  intros H. replace m with (n + (m - n))%nat by lia.
  pose proof (exec_more (m - n) n t w) as Hm.
  destruct (result (exec env n t w)) as [x|].
  - rewrite Hm. cbn. exists []. rewrite app_nil_r. auto.
  - destruct Hm as [l' Hl']. exists l'. split; [assumption|]. congruence.
Qed.

(** Each call takes a step. *)
Lemma calls_le_steps {R} : forall n (t : itree sockE R) w,
  (length (calls (exec env n t w)) + fuel_left (exec env n t w) <= n)%nat.
Proof.
  induction n as [|n IH]; intros t w; cbn [exec]; [cbn; lia|].
  destruct (observe t) as [r|t'|X c k]; cbn.
  - lia.
  - specialize (IH t' w). lia.
  - destruct (env X c w) as [w' x]. cbn. specialize (IH (k x) w'). lia.
Qed.

(** A run that returned and took no other steps than its calls: every
    shorter run has taken exactly as many steps as it made calls. *)
Lemma calls_eq_steps {R} : forall N (t : itree sockE R) w,
  result (exec env N t w) <> None ->
  (length (calls (exec env N t w)) + fuel_left (exec env N t w) = N)%nat ->
  forall n, (length (calls (exec env n t w)) + fuel_left (exec env n t w) = n)%nat.
Proof.
  induction N as [|N IH]; intros t w Hr Hs n; [cbn in Hr; congruence|].
  cbn [exec] in Hr, Hs. destruct n as [|n]; [reflexivity|]. cbn [exec].
  destruct (observe t) as [r|t'|X c k]; cbn in *.
  - reflexivity.
  - pose proof (calls_le_steps N t' w). lia.
  - destruct (env X c w) as [w' x]. cbn in *.
    pose proof (fuel_left_le N (k x) w').
    rewrite <- (IH (k x) w' Hr ltac:(lia) n) at 3. lia.
Qed.

(** A loop keeps making calls when its body does: if every run of the
    body takes at most two steps per call, with one step to spare when it
    asks for another turn, so does every run of the loop. *)
Lemma iter_steps {I R} (body : I -> itree sockE (I + R)) :
  (forall n i w,
     let r := exec env n (body i) w in
     (n <= 2 * length (calls r) + fuel_left r)%nat /\
     (forall i', result r = Some (inl i') ->
        (S n <= 2 * length (calls r) + fuel_left r)%nat)) ->
  forall n i w,
    let r := exec env n (ITree.iter body i) w in
    (n <= 2 * length (calls r) + fuel_left r)%nat.
Proof.
  intros Hbody. induction n as [n IH] using lt_wf_ind. intros i w.
  cbn zeta. rewrite exec_iter. unfold then_.
  destruct (Hbody n i w) as [H1 H2].
  pose proof (fuel_left_le n (body i) w) as Hle.
  destruct (result (exec env n (body i) w)) as [[i'|r]|] eqn:Hres; cbn.
  - specialize (H2 i' eq_refl).
    destruct (fuel_left (exec env n (body i) w)) as [|m] eqn:Hm.
    + cbn. rewrite length_app. cbn. lia.
    + rewrite exec_tau. rewrite length_app.
      specialize (IH m ltac:(lia) i' (world (exec env n (body i) w))). cbn zeta in IH. lia.
  - destruct (fuel_left (exec env n (body i) w)) as [|m] eqn:Hm; cbn;
      rewrite length_app; cbn; lia.
  - lia.
Qed.

End ExecFacts.

(** ** Lists *)

Lemma split_cons {A} (l1 : list A) e l2 a l :
  l1 ++ e :: l2 = a :: l ->
  (l1 = [] /\ e = a /\ l2 = l) \/ (exists l1', l1 = a :: l1' /\ l1' ++ e :: l2 = l).
Proof.
  destruct l1 as [|b l1]; cbn; intros H; inversion H; subst; eauto.
Qed.

Lemma prefix_cons {A} (l l' : list A) a t :
  l ++ l' = a :: t ->
  (l = [] /\ l' = a :: t) \/ (exists l0, l = a :: l0 /\ l0 ++ l' = t).
Proof.
  destruct l as [|b l]; cbn; intros H; [auto|]. inversion H; subst; eauto.
Qed.

Lemma app_split_prefix {A} (l l' l1 : list A) e l2 :
  l ++ l' = l1 ++ e :: l2 ->
  (exists l2', l = l1 ++ e :: l2' /\ l2 = l2' ++ l') \/
  (exists l1', l1 = l ++ l1' /\ l' = l1' ++ e :: l2).
Proof.
  revert l1. induction l as [|a l IH]; intros l1 H; cbn in H.
  - right. exists l1. auto.
  - destruct l1 as [|b l1]; cbn in H; inversion H; subst.
    + left. exists l. auto.
    + destruct (IH l1 H2) as [(l2' & -> & ->)|(l1' & -> & ->)].
      * left. exists l2'. auto.
      * right. exists l1'. auto.
Qed.

Lemma not_in_part {A} (P : A -> bool) (l l' l1 : list A) e l2 :
  Forall (fun a => P a = false) l ->
  l ++ l' = l1 ++ e :: l2 -> P e = true ->
  exists l1', l1 = l ++ l1' /\ l' = l1' ++ e :: l2.
Proof.
  intros Hl H He. apply app_split_prefix in H.
  destruct H as [(l2' & -> & ->)|H]; [|assumption].
  apply Forall_app in Hl. destruct Hl as [_ Hl]. inversion Hl; congruence.
Qed.

Lemma interleave_existsb {A} (f : A -> bool) (l1 l2 l : list A) :
  interleave l1 l2 l -> existsb f l = existsb f l1 || existsb f l2.
Proof.
  induction 1 as [|a l1 l2 l H IH|a l1 l2 l H IH]; cbn; [reflexivity| |]; rewrite IH.
  - apply orb_assoc.
  - rewrite !orb_assoc. f_equal. apply orb_comm.
Qed.

(** Every place an element can have in a list given by its elements. *)
Ltac peel H :=
  repeat (apply split_cons in H; destruct H as [(? & ? & ?)|(? & ? & H)]; subst).

Ltac positions H :=
  peel H; try (exfalso; eapply app_cons_not_nil; symmetry; exact H).

(** Every prefix of a list given by its elements. *)
Ltac prefixes H :=
  repeat (apply prefix_cons in H; destruct H as [(? & ?)|(? & ? & H)]; subst;
          [|try (apply app_eq_nil in H; destruct H; subst)]).

(** ** Runs of [forward] *)

Section ForwardRuns.

Variables source destination : sock.
Context {W : Type}.
Variable env : forall X : Type, sockE X -> W -> W * X.

Lemma forward_except_run n e w :
  let r := exec env (4 + n) (forward_except source destination e) w in
  calls r = teardown source destination e /\ result r = Some (inr returned) /\ fuel_left r = S n.
Proof.
  unfold forward_except. cbn [Nat.add].
  rewrite !exec_call_unit, exec_ret. cbn. auto.
Qed.

Lemma forward_body_turn string w :
  truthy string = true ->
  let r := exec env 7 (forward_body source destination string) w in
  exists x, turn source destination (calls r) x /\ result r = Some x /\
    (length (calls r) + fuel_left r = 7)%nat.
Proof.
  intros H. unfold forward_body. rewrite H. cbn zeta.
  rewrite exec_call.
  destruct (env _ (Recv source 1024) w) as [w1 [e|c]]; cbn [fst snd].
  - destruct (forward_except_run 2 e w1) as (Hc & Hr & Hf). cbn [Nat.add] in *.
    unfold record; cbn [calls result fuel_left]. rewrite Hc, Hr, Hf.
    eexists. split; [apply turn_recv_raises|auto].
  - destruct (truthy c) eqn:Hc.
    + rewrite exec_call.
      destruct (env _ (SendAll destination c) w1) as [w2 [e|[]]]; cbn [fst snd].
      * destruct (forward_except_run 1 e w2) as (Hc' & Hr & Hf). cbn [Nat.add] in *.
        unfold record; cbn [calls result fuel_left]. rewrite Hc', Hr, Hf.
        eexists. split; [apply turn_sendall_raises; assumption|auto].
      * cbn. eexists. split; [apply turn_forwarded; assumption|auto].
    + destruct c; [|discriminate]. rewrite exec_call.
      destruct (env _ (Shutdown source SHUT_RD) w1) as [w2 [e|[]]]; cbn [fst snd].
      * destruct (forward_except_run 1 e w2) as (Hc' & Hr & Hf). cbn [Nat.add] in *.
        unfold record; cbn [calls result fuel_left]. rewrite Hc', Hr, Hf.
        eexists. split; [apply turn_shutdown_rd_raises|auto].
      * rewrite exec_call.
        destruct (env _ (Shutdown destination SHUT_WR) w2) as [w3 [e|[]]]; cbn [fst snd].
        -- destruct (forward_except_run 0 e w3) as (Hc' & Hr & Hf). cbn [Nat.add] in *.
           unfold record; cbn [calls result fuel_left]. rewrite Hc', Hr, Hf.
           eexists. split; [apply turn_shutdown_wr_raises|auto].
        -- cbn. eexists. split; [apply turn_eof|auto].
Qed.

Lemma forward_body_run n string w :
  truthy string = true ->
  exists l x, turn source destination l x /\
    let r := exec env n (forward_body source destination string) w in
    (result r = Some x /\ calls r = l) \/
    (result r = None /\ exists l', l = calls r ++ l').
Proof.
  intros H. destruct (forward_body_turn string w H) as (x & Ht & Hx & _).
  eexists. exists x. split; [eassumption|]. eapply exec_within; [reflexivity|eassumption].
Qed.

Lemma forward_iter_log i w l r :
  iter_run env (forward_body source destination) i w l r ->
  (truthy i = true -> forward_log source destination l r) /\
  (i = [] -> l = [] /\ (r = None \/ r = Some returned)).
Proof.
  induction 1 as [i w n|i w n i' l r Hres Hrun IH|i w n r Hres].
  - split.
    + intros Hi. destruct (forward_body_run n i w Hi) as (l & x & Ht & [[_ <-]|[_ [l' ->]]]).
      * apply (log_cut source destination _ [] x). rewrite app_nil_r. assumption.
      * apply (log_cut source destination _ l' x). assumption.
    + intros ->. destruct n; cbn; auto.
  - split.
    + intros Hi. destruct (forward_body_run n i w Hi) as (l0 & x & Ht & [[Hx Hl]|[Hx _]]);
        cbn in Hx; [|congruence].
      rewrite Hres in Hx. inversion Hx; subst x. cbn in Hl. rewrite Hl. clear Hl Hx Hres.
      destruct IH as [IH1 IH2]. inversion Ht; subst.
      * cbn. apply log_forwarded; auto.
      * destruct (IH2 eq_refl) as [-> [->| ->]]; rewrite app_nil_r.
        -- apply (log_cut source destination _ [] (inl [])).
           rewrite app_nil_r. assumption.
        -- apply (log_returned source destination _ (inl [])); [assumption|].
           intros c Hc. congruence.
    + intros ->. destruct n; cbn in Hres; discriminate.
  - split.
    + intros Hi. destruct (forward_body_run n i w Hi) as (l0 & x & Ht & [[Hx Hl]|[Hx _]]);
        cbn in Hx; [|congruence].
      rewrite Hres in Hx. inversion Hx; subst x. cbn in Hl. rewrite Hl. clear Hl Hx Hres.
      assert (r = returned) by (inversion Ht; reflexivity). subst r.
      apply (log_returned source destination _ (inr returned)); [assumption|discriminate].
    + intros ->. destruct n; cbn in Hres; [discriminate|]. inversion Hres. cbn. auto.
Qed.

Lemma forward_loop_log n string w :
  truthy string = true ->
  forward_log source destination (calls (exec env n (forward_loop source destination string) w))
              (result (exec env n (forward_loop source destination string) w)).
Proof.
  intros H. apply (forward_iter_log string w); [|assumption].
  apply exec_iter_run.
Qed.

End ForwardRuns.

Section ForwardLogFacts.

Variables source destination : sock.

Lemma turn_recv_first t x l1 e l2 :
  turn source destination t x -> t = l1 ++ e :: l2 -> is_recv e = true -> l1 = [].
Proof.
  intros Ht H He. symmetry in H.
  destruct Ht; unfold teardown in H;
  repeat (apply split_cons in H; destruct H as [(? & ? & ?)|(? & ? & H)]; subst;
      [try reflexivity; cbn in He; discriminate|]);
  exfalso; eapply app_cons_not_nil; symmetry; eassumption.
Qed.
Lemma forward_log_reads_after_writes l r :
  forward_log source destination l r ->
  forall l1 e l2, l = l1 ++ e :: l2 -> is_recv e = true ->
    written destination l1 = received source l1.
Proof.
  induction 1 as [c l r Hc Hlog IH|l x Ht Hx|l l' x Ht]; intros l1 e l2 H He.
  - symmetry in H.
    apply split_cons in H. destruct H as [(-> & _ & _)|(l1' & -> & H)]; [reflexivity|].
    apply split_cons in H. destruct H as [(_ & -> & _)|(l1'' & -> & H)]; [discriminate|].
    unfold written, received. cbn. rewrite !Nat.eqb_refl.
    f_equal. apply (IH l1'' e l2); auto.
  - rewrite (turn_recv_first l x l1 e l2 Ht H He). reflexivity.
  - subst l. rewrite <- app_assoc in Ht. cbn in Ht.
    rewrite (turn_recv_first _ x l1 e (l2 ++ l') Ht eq_refl He). reflexivity.
Qed.

Lemma forward_log_written_prefix l r :
  forward_log source destination l r ->
  exists rest, received source l = written destination l ++ rest.
Proof.
  induction 1 as [c l r Hc Hlog [rest IH]|l x Ht Hx|l l' x Ht].
  - exists rest. unfold written, received in *. cbn. rewrite !Nat.eqb_refl, IH.
    rewrite app_assoc. reflexivity.
  - destruct Ht; unfold written, received; cbn; rewrite ?Nat.eqb_refl;
      first [eexists; reflexivity | exists []; rewrite !app_nil_r; reflexivity].
  - remember (l ++ l') as t eqn:Hl. symmetry in Hl.
    destruct Ht; unfold teardown in Hl; prefixes Hl;
      unfold written, received; cbn; rewrite ?Nat.eqb_refl;
      first [eexists; reflexivity | exists []; rewrite !app_nil_r; reflexivity].
Qed.

Lemma forward_log_written_all l r :
  forward_log source destination l r ->
  r <> None -> existsb sendall_raised l = false ->
  written destination l = received source l.
Proof.
  induction 1 as [c l r Hc Hlog IH|l x Ht Hx|l l' x Ht]; intros Hr Hs.
  - unfold written, received in *. cbn in *. rewrite !Nat.eqb_refl. f_equal. auto.
  - destruct Ht; unfold written, received; cbn in *; rewrite ?Nat.eqb_refl;
      try reflexivity; discriminate.
  - congruence.
Qed.
Lemma turn_io_error t x0 l1 e l2 x :
  turn source destination t x0 -> t = l1 ++ e :: l2 -> io_error e = Some x ->
  l2 = teardown source destination x /\ existsb is_shutdown t = false /\ x0 = inr returned.
Proof.
  intros Ht H He. symmetry in H.
  destruct Ht; unfold teardown in H; positions H; cbn in He; try discriminate;
    inversion He; subst; auto.
Qed.

Lemma forward_log_io_error l r :
  forward_log source destination l r ->
  forall l1 e l2 x, l = l1 ++ e :: l2 -> io_error e = Some x ->
    exists l', l2 ++ l' = teardown source destination x /\
      (r <> None -> l' = [] /\ r = Some returned) /\
      existsb is_shutdown l = false.
Proof.
  induction 1 as [c l r Hc Hlog IH|l x0 Ht Hx|l l' x0 Ht]; intros l1 e l2 x H He.
  - symmetry in H.
    apply split_cons in H. destruct H as [(_ & -> & _)|(l1' & -> & H)]; [cbn in He; discriminate|].
    apply split_cons in H. destruct H as [(_ & -> & _)|(l1'' & -> & H)]; [cbn in He; discriminate|].
    cbn. apply (IH l1'' e l2 x); auto.
  - destruct (turn_io_error l x0 l1 e l2 x Ht H He) as (-> & Hs & ->).
    exists []. rewrite app_nil_r. auto.
  - subst l. rewrite <- app_assoc in Ht. cbn in Ht.
    destruct (turn_io_error _ x0 l1 e (l2 ++ l') x Ht eq_refl He) as (Hl & Hs & ->).
    exists l'. split; [assumption|]. split; [congruence|].
    rewrite app_comm_cons, app_assoc, existsb_app in Hs.
    apply orb_false_iff in Hs. apply Hs.
Qed.

End ForwardLogFacts.

Section ForwardSteps.

Variables source destination : sock.
Context {W : Type}.
Variable env : forall X : Type, sockE X -> W -> W * X.

Lemma forward_body_steps n i w :
  let r := exec env n (forward_body source destination i) w in
  (n <= 2 * length (calls r) + fuel_left r)%nat /\
  (forall i', result r = Some (inl i') ->
     (S n <= 2 * length (calls r) + fuel_left r)%nat).
Proof.
  cbn zeta. destruct (truthy i) eqn:Hi.
  - destruct (forward_body_turn source destination env i w Hi) as (x & Ht & Hx & Hs).
    assert (Hne : result (exec env 7 (forward_body source destination i) w) <> None)
      by congruence.
    pose proof (calls_eq_steps env 7 _ w Hne Hs n) as Hn.
    split; [lia|]. intros i' Hi'.
    destruct (exec_within env 7 n _ w _ x eq_refl Hx) as [[_ Hl]|[Hr _]]; [|congruence].
    rewrite Hl in *. clear Hx Hs Hne Hl Hi'.
    set (l := calls (exec env 7 _ w)) in *. clearbody l.
    destruct Ht; cbn in *; lia.
  - destruct i; [|discriminate]. destruct n; cbn; split; try lia; discriminate.
Qed.

Lemma forward_loop_steps n string w :
  let r := exec env n (forward_loop source destination string) w in
  (n <= 2 * length (calls r) + fuel_left r)%nat.
Proof. apply iter_steps. apply forward_body_steps. Qed.

(** Given enough steps, a run of [forward] in which a call to [recv] or
    [sendall] raised has done the teardown and returned. *)
Lemma forward_after_io_error n w l1 e l2 x :
  calls (exec env n (forward source destination) w) = l1 ++ e :: l2 ->
  io_error e = Some x ->
  exists m,
    calls (exec env m (forward source destination) w)
      = l1 ++ e :: teardown source destination x /\
    result (exec env m (forward source destination) w) = Some returned /\
    existsb is_shutdown (calls (exec env m (forward source destination) w)) = false.
Proof.
  intros Hn He.
  set (m := (n + 2 * (length l1 + 5))%nat).
  destruct (exec_le env n m (forward source destination) w ltac:(lia)) as (l' & Hm & _).
  rewrite Hn, <- app_assoc in Hm. cbn in Hm.
  pose proof (forward_loop_log source destination env m [Byte.x20] w eq_refl) as Hlog.
  fold (forward source destination) in Hlog.
  destruct (forward_log_io_error source destination _ _ Hlog _ _ _ _ Hm He)
    as (l'' & Ht & Hr & Hs).
  exists m. destruct (result (exec env m (forward source destination) w)) as [o|] eqn:Hres.
  - destruct (Hr ltac:(discriminate)) as [-> Ho]. rewrite app_nil_r in Ht.
    rewrite Hm in Hs |- *. rewrite Ht in Hs |- *. auto.
  - exfalso. pose proof (forward_loop_steps m [Byte.x20] w) as Hsteps. cbn zeta in Hsteps.
    fold (forward source destination) in Hsteps.
    rewrite (exec_cut_fuel env _ _ _ Hres), Hm in Hsteps.
    apply (f_equal (@length _)) in Ht. rewrite length_app in Ht. cbn in Ht.
    rewrite length_app in Hsteps. cbn in Hsteps. lia.
Qed.

End ForwardSteps.

Section ForwardEof.

Variables source destination : sock.

Lemma turn_end_of_stream t x0 l1 e l2 :
  turn source destination t x0 -> t = l1 ++ e :: l2 -> end_of_stream e = true ->
  l1 = [] /\ eof_tail source destination l2.
Proof.
  intros Ht H He. symmetry in H.
  destruct Ht as [c Hc| |x|c x Hc|x|x]; unfold teardown in H; positions H;
    cbn in He; try discriminate;
    try (destruct c; discriminate);
    split; try reflexivity; constructor.
Qed.

Lemma forward_log_no_close_before l r :
  forward_log source destination l r ->
  forall l1 e l2, l = l1 ++ e :: l2 -> is_recv e = true -> existsb is_close l1 = false.
Proof.
  induction 1 as [c l r Hc Hlog IH|l x0 Ht Hx|l l' x0 Ht]; intros l1 e l2 H He.
  - symmetry in H.
    apply split_cons in H. destruct H as [(-> & _ & _)|(l1' & -> & H)]; [reflexivity|].
    apply split_cons in H. destruct H as [(_ & -> & _)|(l1'' & -> & H)]; [discriminate|].
    cbn. apply (IH l1'' e l2); auto.
  - rewrite (turn_recv_first source destination l x0 l1 e l2 Ht H He). reflexivity.
  - subst l. rewrite <- app_assoc in Ht. cbn in Ht.
    rewrite (turn_recv_first source destination _ x0 l1 e (l2 ++ l') Ht eq_refl He). reflexivity.
Qed.

Lemma forward_log_end_of_stream l r :
  forward_log source destination l r ->
  forall l1 e l2, l = l1 ++ e :: l2 -> end_of_stream e = true ->
    exists l', eof_tail source destination (l2 ++ l') /\
      (r <> None -> l' = [] /\ r = Some returned).
Proof.
  induction 1 as [c l r Hc Hlog IH|l x0 Ht Hx|l l' x0 Ht]; intros l1 e l2 H He.
  - symmetry in H.
    apply split_cons in H. destruct H as [(_ & -> & _)|(l1' & -> & H)];
      [cbn in He; destruct c; discriminate|].
    apply split_cons in H. destruct H as [(_ & -> & _)|(l1'' & -> & H)];
      [cbn in He; discriminate|].
    apply (IH l1'' e l2); auto.
  - destruct (turn_end_of_stream l x0 l1 e l2 Ht H He) as (-> & Hs).
    exists []. rewrite app_nil_r. auto.
  - subst l. rewrite <- app_assoc in Ht. cbn in Ht.
    destruct (turn_end_of_stream _ x0 l1 e (l2 ++ l') Ht eq_refl He) as (Hl & Hs).
    exists l'. split; [assumption|]. congruence.
Qed.

Lemma eof_tail_length t : eof_tail source destination t -> (length t <= 5)%nat.
Proof. destruct 1; cbn; lia. Qed.

Lemma end_of_stream_is_recv e : end_of_stream e = true -> is_recv e = true.
Proof. destruct e as [X c x]. destruct c; cbn; auto. Qed.

Context {W : Type}.
Variable env : forall X : Type, sockE X -> W -> W * X.

(** Given enough steps, a run of [forward] in which a [recv] returned no
    bytes has returned, after one of the three tails. *)
Lemma forward_after_end_of_stream n w l1 e l2 :
  calls (exec env n (forward source destination) w) = l1 ++ e :: l2 ->
  end_of_stream e = true ->
  exists m tail,
    calls (exec env m (forward source destination) w) = l1 ++ e :: tail /\
    result (exec env m (forward source destination) w) = Some returned /\
    eof_tail source destination tail /\
    existsb is_close l1 = false.
Proof.
  intros Hn He.
  set (m := (n + 2 * (length l1 + 7))%nat).
  destruct (exec_le env n m (forward source destination) w ltac:(lia)) as (l' & Hm & _).
  rewrite Hn, <- app_assoc in Hm. cbn in Hm.
  pose proof (forward_loop_log source destination env m [Byte.x20] w eq_refl) as Hlog.
  fold (forward source destination) in Hlog.
  destruct (forward_log_end_of_stream _ _ Hlog _ _ _ Hm He) as (l'' & Ht & Hr).
  pose proof (forward_log_no_close_before _ _ Hlog _ _ _ Hm (end_of_stream_is_recv e He)) as Hc.
  exists m. destruct (result (exec env m (forward source destination) w)) as [o|] eqn:Hres.
  - destruct (Hr ltac:(discriminate)) as [-> Ho]. rewrite app_nil_r in Ht.
    exists (l2 ++ l'). auto.
  - exfalso. pose proof (forward_loop_steps source destination env m [Byte.x20] w) as Hsteps.
    cbn zeta in Hsteps. fold (forward source destination) in Hsteps.
    rewrite (exec_cut_fuel env _ _ _ Hres), Hm in Hsteps.
    apply eof_tail_length in Ht. rewrite !length_app in Ht.
    rewrite length_app in Hsteps. cbn in Hsteps. rewrite length_app in Hsteps. lia.
Qed.

End ForwardEof.

Section ForwardNext.

Variables source destination : sock.

Lemma forward_log_head l r :
  forward_log source destination l r ->
  (l = [] /\ r = None) \/ (exists y rest, l = Call (Recv source 1024) y :: rest).
Proof.
  destruct 1 as [c l r Hc Hlog|l x0 Ht Hx|l l' x0 Ht].
  - right. eauto.
  - right. destruct Ht; eauto.
  - destruct l as [|a l]; [auto|]. right.
    cbn in Ht. inversion Ht; subst; eauto.
Qed.

Lemma turn_length t x0 : turn source destination t x0 -> (2 <= length t)%nat.
Proof. destruct 1; cbn; lia. Qed.

Lemma turn_returns t x0 :
  turn source destination t x0 -> length t = 2%nat ->
  exists c, truthy c = true /\ x0 = inl c.
Proof. destruct 1; cbn; intros; try lia; eauto. Qed.

Lemma forward_log_stops l r :
  forward_log source destination l r -> r <> None -> existsb stops l = true.
Proof.
  induction 1 as [c l r Hc Hlog IH|l x0 Ht Hx|l l' x0 Ht]; intros Hr.
  - cbn. rewrite IH by assumption. apply orb_true_r.
  - destruct Ht as [c Hc| |x|c x Hc|x|x]; cbn; try reflexivity.
    + specialize (Hx c eq_refl). subst c. discriminate.
    + rewrite !orb_true_r. reflexivity.
  - congruence.
Qed.

Lemma turn_forwarded_then t x0 l' (l1 : list entry) e l2 c :
  turn source destination t x0 -> t = l1 ++ e :: l2 ++ l' ->
  recv_answer e = Some (inr c) -> truthy c = true ->
  forwarded_then source destination c l2 None.
Proof.
  intros Ht H He Hc.
  assert (l1 = []) by (eapply turn_recv_first; [exact Ht|exact H|];
                       destruct e as [X k y]; destruct k; cbn in *; congruence).
  subst l1. cbn in H. unfold forwarded_then.
  destruct Ht as [c0 Hc0| |x|c0 x Hc0|x|x]; inversion H as [[He' Hl]]; subst e;
    cbn in He; inversion He; subst; try discriminate.
  - destruct l2 as [|a l2]; [auto|]. right. cbn in Hl. inversion Hl; subst.
    do 2 eexists. split; [reflexivity|]. intros _. left.
    match goal with H : [] = _ ++ _ |- _ => symmetry in H; apply app_eq_nil in H; destruct H end.
    auto.
  - destruct l2 as [|a l2]; [auto|]. right. cbn in Hl. inversion Hl; subst.
    do 2 eexists. split; [reflexivity|]. discriminate.
Qed.

Lemma forward_log_forwarded_then l r :
  forward_log source destination l r ->
  forall l1 e l2 c, l = l1 ++ e :: l2 ->
    recv_answer e = Some (inr c) -> truthy c = true ->
    forwarded_then source destination c l2 r.
Proof.
  induction 1 as [c0 l r Hc0 Hlog IH|l x0 Ht Hx|l l' x0 Ht]; intros l1 e l2 c H He Hc.
  - symmetry in H.
    apply split_cons in H. destruct H as [(_ & -> & ->)|(l1' & -> & H)].
    + cbn in He. inversion He; subst c0. right. do 2 eexists. split; [reflexivity|].
      intros _. destruct (forward_log_head l r Hlog) as [?|?]; auto.
    + apply split_cons in H. destruct H as [(_ & -> & _)|(l1'' & -> & H)];
        [cbn in He; discriminate|].
      apply (IH l1'' e l2 c); auto.
  - pose proof (turn_forwarded_then l x0 [] l1 e l2 c Ht) as Hf.
    rewrite app_nil_r in Hf. specialize (Hf H He Hc).
    assert (l1 = []) by (eapply turn_recv_first; [exact Ht|exact H|];
                         destruct e as [X k y]; destruct k; cbn in *; congruence).
    subst l1 l. cbn in Ht.
    destruct Hf as [[-> _]|(x & rest & -> & Hx')].
    + apply turn_length in Ht. cbn in Ht. lia.
    + right. do 2 eexists. split; [reflexivity|]. intros ->.
      destruct (Hx' eq_refl) as [[-> _]|?]; [|auto].
      destruct (turn_returns _ _ Ht eq_refl) as (c' & Hc' & ->).
      specialize (Hx c' eq_refl). subst c'. discriminate.
  - subst l. rewrite <- app_assoc in Ht. cbn in Ht.
    eapply turn_forwarded_then; eauto.
Qed.

End ForwardNext.

Section ForwardEnd.

Variables source destination : sock.

Lemma forward_log_end l r :
  forward_log source destination l r -> r <> None ->
  (existsb (closes source) l = true /\ existsb (closes destination) l = true) \/
  (existsb is_close l = false /\
   existsb (shuts source SHUT_RD) l = true /\
   existsb (shuts destination SHUT_WR) l = true).
Proof.
  induction 1 as [c l r Hc Hlog IH|l x0 Ht Hx|l l' x0 Ht]; intros Hr.
  - cbn. apply IH. assumption.
  - destruct Ht as [c Hc| |x|c x Hc|x|x]; cbn;
      rewrite ?Nat.eqb_refl, ?orb_true_r; cbn; auto.
    specialize (Hx c eq_refl). subst c. discriminate.
  - congruence.
Qed.

Context {W : Type}.
Variable env : forall X : Type, sockE X -> W -> W * X.

(** Given enough steps, a run of [forward] in which [recv] returned bytes
    has handed them to [sendall], and has called [recv] again if
    [sendall] returned. *)
Lemma forward_after_recv n w l1 c l2 :
  calls (exec env n (forward source destination) w)
    = l1 ++ Call (Recv source 1024) (inr c) :: l2 ->
  truthy c = true ->
  exists m x rest,
    calls (exec env m (forward source destination) w)
      = l1 ++ Call (Recv source 1024) (inr c)
           :: Call (SendAll destination c) x :: rest /\
    (x = inr tt -> exists y rest', rest = Call (Recv source 1024) y :: rest').
Proof.
  intros Hn Hc.
  set (m := (n + 2 * (length l1 + 3))%nat).
  destruct (exec_le env n m (forward source destination) w ltac:(lia)) as (l' & Hm & _).
  rewrite Hn, <- app_assoc in Hm. cbn in Hm.
  pose proof (forward_loop_log source destination env m [Byte.x20] w eq_refl) as Hlog.
  fold (forward source destination) in Hlog.
  pose proof (forward_loop_steps source destination env m [Byte.x20] w) as Hsteps.
  cbn zeta in Hsteps. fold (forward source destination) in Hsteps.
  destruct (forward_log_forwarded_then _ _ _ _ Hlog _ _ _ c Hm eq_refl Hc)
    as [[Hl Hr]|(x & rest & Hl & Hx)].
  - exfalso. rewrite (exec_cut_fuel env _ _ _ Hr), Hm, Hl, length_app in Hsteps.
    cbn in Hsteps. lia.
  - exists m, x, rest. rewrite Hm, Hl. split; [reflexivity|]. intros ->.
    destruct (Hx eq_refl) as [[Hrest Hr]|?]; [|assumption].
    exfalso. rewrite (exec_cut_fuel env _ _ _ Hr), Hm, Hl, Hrest, length_app in Hsteps.
    cbn in Hsteps. lia.
Qed.

End ForwardEnd.

Section ForwardProgress.

Variables source destination : sock.
Context {W : Type}.
Variable env : forall X : Type, sockE X -> W -> W * X.

(** Two steps bring a run of [forward] to its first [recv]. *)
Lemma forward_first_recv n w :
  (2 <= n)%nat ->
  exists y rest,
    calls (exec env n (forward source destination) w) = Call (Recv source 1024) y :: rest.
Proof.
  intros Hn.
  pose proof (forward_loop_log source destination env n [Byte.x20] w eq_refl) as Hlog.
  fold (forward source destination) in Hlog.
  pose proof (forward_loop_steps source destination env n [Byte.x20] w) as Hsteps.
  cbn zeta in Hsteps. fold (forward source destination) in Hsteps.
  destruct (forward_log_head _ _ _ _ Hlog) as [[Hl Hr]|H]; [|exact H].
  exfalso. rewrite (exec_cut_fuel env _ _ _ Hr), Hl in Hsteps. cbn in Hsteps. lia.
Qed.

(** Given enough steps, a run of [forward] in which [recv] returned bytes
    has handed them to [sendall]; if [sendall] returned, all that was read
    has then been written, and [recv] is called again. *)
Lemma forward_after_recv_written n w l1 c l2 :
  calls (exec env n (forward source destination) w)
    = l1 ++ Call (Recv source 1024) (inr c) :: l2 ->
  truthy c = true ->
  exists m x rest,
    calls (exec env m (forward source destination) w)
      = l1 ++ Call (Recv source 1024) (inr c)
           :: Call (SendAll destination c) x :: rest /\
    (x = inr tt ->
     written destination
       (l1 ++ [Call (Recv source 1024) (inr c); Call (SendAll destination c) x])
       = received source
           (l1 ++ [Call (Recv source 1024) (inr c); Call (SendAll destination c) x]) /\
     exists y rest', rest = Call (Recv source 1024) y :: rest').
Proof.
  intros Hn Hc.
  destruct (forward_after_recv source destination env n w l1 c l2 Hn Hc)
    as (m & x & rest & Hm & Hx).
  exists m, x, rest. split; [exact Hm|]. intros E.
  destruct (Hx E) as (y & rest' & ->). split; [|eauto].
  pose proof (forward_loop_log source destination env m [Byte.x20] w eq_refl) as Hlog.
  fold (forward source destination) in Hlog.
  apply (forward_log_reads_after_writes _ _ _ _ Hlog _ (Call (Recv source 1024) y) rest');
    [|reflexivity].
  rewrite Hm, <- app_assoc. reflexivity.
Qed.

End ForwardProgress.

(** ** Runs of [server] *)

Section AcceptRuns.

Variables remote_cid remote_port : Z.
Context {W : Type}.
Variable env : forall X : Type, sockE X -> W -> W * X.

Lemma connection_except_run {R} n e w :
  let r := exec env (3 + n) (@connection_except R e) w in
  calls r = backoff e /\ result r = Some (inl tt) /\ fuel_left r = S n.
Proof.
  unfold connection_except. cbn [Nat.add].
  rewrite !exec_call_unit, exec_ret. cbn. auto.
Qed.

Ltac except_case H :=
  destruct H as (Hc & Hr & Hf); cbn [Nat.add] in Hc, Hr, Hf;
  unfold record; cbn [calls result fuel_left]; rewrite Hc, Hr, Hf;
  split; [constructor|auto].

Lemma accept_body_turn {R} dock_socket w :
  let r := exec env 9 (@accept_body R dock_socket remote_cid remote_port tt) w in
  accept_turn remote_cid remote_port dock_socket (calls r) /\
  result r = Some (inl tt) /\ (length (calls r) + fuel_left r = 9)%nat.
Proof.
  unfold accept_body. cbn zeta. rewrite exec_call.
  destruct (env _ (Accept dock_socket) w) as [w1 [e|[client_socket addr]]]; cbn [fst snd].
  { except_case (@connection_except_run R 5 e w1). }
  rewrite exec_call_unit.
  set (w2 := fst (env _ (Print (info_accepted addr)) w1)). rewrite exec_call.
  destruct (env _ (Socket AF_VSOCK) w2) as [w3 [e|server_socket]]; cbn [fst snd].
  { except_case (@connection_except_run R 3 e w3). }
  rewrite exec_call.
  destruct (env _ (Connect server_socket remote_cid remote_port) w3) as [w4 [e|[]]];
    cbn [fst snd].
  { except_case (@connection_except_run R 2 e w4). }
  rewrite exec_call.
  destruct (env _ (ThreadStart (target_forward client_socket server_socket)) w4)
    as [w5 [e|[]]]; cbn [fst snd].
  { except_case (@connection_except_run R 1 e w5). }
  rewrite exec_call.
  destruct (env _ (ThreadStart (target_forward server_socket client_socket)) w5)
    as [w6 [e|[]]]; cbn [fst snd].
  { except_case (@connection_except_run R 0 e w6). }
  cbn. split; [constructor|auto].
Qed.

Lemma accept_body_run {R} n dock_socket w :
  let r := exec env n (@accept_body R dock_socket remote_cid remote_port tt) w in
  exists t, accept_turn remote_cid remote_port dock_socket t /\
    ((result r = Some (inl tt) /\ calls r = t) \/
     (result r = None /\ exists l', t = calls r ++ l')).
Proof.
  destruct (@accept_body_turn R dock_socket w) as (Ht & Hx & _).
  eexists. split; [exact Ht|]. eapply exec_within; [reflexivity|exact Hx].
Qed.

Lemma accept_iter_log {R} dock_socket i w l (r : option R) :
  iter_run env (accept_body dock_socket remote_cid remote_port) i w l r ->
  accept_log remote_cid remote_port dock_socket l /\ r = None.
Proof.
  induction 1 as [i w n|i w n i' l r Hres Hrun IH|i w n r Hres]; destruct i.
  - split; [|reflexivity].
    destruct (@accept_body_run R n dock_socket w) as (t & Ht & [[_ <-]|[_ [l' ->]]]).
    + apply (accept_cut _ _ _ _ []). rewrite app_nil_r. assumption.
    + apply (accept_cut _ _ _ _ l'). assumption.
  - destruct IH as [IH ->]. split; [|reflexivity].
    destruct (@accept_body_run R n dock_socket w) as (t & Ht & [[_ Hl]|[Hx _]]);
      cbn zeta in *; [|congruence].
    rewrite Hl. apply accept_again; assumption.
  - exfalso.
    destruct (@accept_body_run R n dock_socket w) as (t & Ht & [[Hx _]|[Hx _]]);
      cbn zeta in *; congruence.
Qed.

Lemma accept_loop_log {R} n dock_socket w :
  let r := exec env n (@accept_loop R dock_socket remote_cid remote_port) w in
  accept_log remote_cid remote_port dock_socket (calls r) /\ result r = None.
Proof. cbn zeta. eapply accept_iter_log. apply exec_iter_run. Qed.

Lemma accept_body_steps {R} n i dock_socket w :
  let r := exec env n (@accept_body R dock_socket remote_cid remote_port i) w in
  (n <= 2 * length (calls r) + fuel_left r)%nat /\
  (forall i', result r = Some (inl i') ->
     (S n <= 2 * length (calls r) + fuel_left r)%nat).
Proof.
  cbn zeta. destruct i.
  destruct (@accept_body_turn R dock_socket w) as (Ht & Hx & Hs).
  assert (Hne : result (exec env 9 (@accept_body R dock_socket remote_cid remote_port tt) w)
                <> None) by congruence.
  pose proof (calls_eq_steps env 9 _ w Hne Hs n) as Hn.
  split; [lia|]. intros i' Hi'.
  destruct (exec_within env 9 n _ w _ _ eq_refl Hx) as [[_ Hl]|[Hr _]]; [|congruence].
  rewrite Hl in *. clear Hx Hs Hne Hl Hi'.
  set (l := calls (exec env 9 _ w)) in *. clearbody l.
  destruct Ht; cbn in *; lia.
Qed.

Lemma accept_loop_steps {R} n dock_socket w :
  let r := exec env n (@accept_loop R dock_socket remote_cid remote_port) w in
  (n <= 2 * length (calls r))%nat.
Proof.
  cbn zeta.
  pose proof (iter_steps env _ (fun n i w => @accept_body_steps R n i dock_socket w) n tt w) as H.
  cbn zeta in H. fold (@accept_loop R dock_socket remote_cid remote_port) in H.
  destruct (@accept_loop_log R n dock_socket w) as [_ Hr].
  rewrite (exec_cut_fuel env _ _ _ Hr) in H. lia.
Qed.

End AcceptRuns.

Section ServerRuns.

Variable local_ip : string.
Variables local_port remote_cid remote_port : Z.
Context {W : Type}.
Variable env : forall X : Type, sockE X -> W -> W * X.

Lemma listen_on_turn dock_socket w :
  let r := exec env 6 (listen_on local_ip local_port dock_socket) w in
  exists x, setup_turn local_ip local_port dock_socket (calls r) x /\
    result r = Some x /\ (length (calls r) + fuel_left r = 6)%nat.
Proof.
  unfold listen_on. cbn zeta. rewrite exec_call.
  destruct (env _ (Socket AF_INET) w) as [w1 [e|s]]; cbn [fst snd].
  { cbn. eexists. split; [constructor|auto]. }
  rewrite exec_call.
  destruct (env _ (SetSockOpt s) w1) as [w2 [e|[]]]; cbn [fst snd].
  { cbn. eexists. split; [constructor|auto]. }
  rewrite exec_call.
  destruct (env _ (Bind s local_ip local_port) w2) as [w3 [e|[]]]; cbn [fst snd].
  { cbn. eexists. split; [constructor|auto]. }
  rewrite exec_call.
  destruct (env _ (Listen s 5) w3) as [w4 [e|[]]]; cbn [fst snd].
  { cbn. eexists. split; [constructor|auto]. }
  rewrite exec_call_unit. cbn. eexists. split; [constructor|auto].
Qed.

Lemma listen_on_run n dock_socket w :
  let r := exec env n (listen_on local_ip local_port dock_socket) w in
  (length (calls r) + fuel_left r = n)%nat /\
  exists t x, setup_turn local_ip local_port dock_socket t x /\
    ((result r = Some x /\ calls r = t) \/
     (result r = None /\ exists l', t = calls r ++ l')).
Proof.
  destruct (listen_on_turn dock_socket w) as (x & Ht & Hx & Hs). cbn zeta. split.
  - apply (calls_eq_steps env 6); [congruence|assumption].
  - eexists. exists x. split; [exact Ht|]. eapply exec_within; [reflexivity|exact Hx].
Qed.

Lemma server_except_turn {R} dock_socket e w :
  let r := exec env 4 (@server_except R dock_socket e) w in
  calls r = retry dock_socket e /\ result r = Some (inl dock_socket) /\
  (length (calls r) + fuel_left r = 4)%nat.
Proof.
  unfold server_except, retry. cbn zeta. rewrite !exec_call_unit.
  destruct dock_socket as [s|].
  - rewrite exec_call_unit. cbn. auto.
  - cbn. auto.
Qed.

Lemma server_except_run {R} n dock_socket e w :
  let r := exec env n (@server_except R dock_socket e) w in
  (length (calls r) + fuel_left r = n)%nat /\
  ((result r = Some (inl dock_socket) /\ calls r = retry dock_socket e) \/
   (result r = None /\ exists l', calls r ++ l' = retry dock_socket e)).
Proof.
  destruct (@server_except_turn R dock_socket e w) as (Hc & Hx & Hs). cbn zeta. split.
  - apply (calls_eq_steps env 4); [congruence|assumption].
  - destruct (exec_within env 4 n _ w _ _ Hc Hx) as [?|[? [l' ?]]]; eauto.
Qed.

(** A run of the body of the outer loop: it is cut, or it ends in the
    outer [except] clause and asks for another turn. *)
Lemma server_body_run n dock_socket w :
  let r := exec env n (server_body local_ip local_port remote_cid remote_port dock_socket) w in
  (n <= 2 * length (calls r) + fuel_left r)%nat /\
  ((result r = None /\
    server_log local_ip local_port remote_cid remote_port dock_socket (calls r)) \/
   (exists t e dock_socket',
      setup_turn local_ip local_port dock_socket t (inl (e, dock_socket')) /\
      calls r = t ++ retry dock_socket' e /\
      result r = Some (inl dock_socket') /\
      (S n <= 2 * length (calls r) + fuel_left r)%nat)).
Proof.
  cbn zeta. unfold server_body. rewrite exec_bind. unfold then_.
  destruct (listen_on_run n dock_socket w) as (Hs & t & x & Ht & [[Hx Hl]|[Hx [l' Hl]]]);
    cbn zeta in *; rewrite Hx; cbn [calls result fuel_left].
  - rewrite Hl in *.
    set (f := fuel_left (exec env n (listen_on local_ip local_port dock_socket) w)) in *.
    set (w' := world (exec env n (listen_on local_ip local_port dock_socket) w)) in *.
    assert (1 <= length t)%nat by (destruct Ht; cbn; lia).
    destruct x as [[e dock_socket']|s].
    + destruct (@server_except_run outcome f dock_socket' e w') as (Hs' & [[Hr Hc]|[Hr [l' Hc]]]);
        cbn zeta in *.
      * rewrite Hr, Hc in *. rewrite length_app in *. split; [lia|].
        right. exists t, e, dock_socket'.
        repeat split; auto. unfold retry in *. cbn in *. lia.
      * rewrite Hr. rewrite length_app. split; [lia|]. left. split; [reflexivity|].
        eapply server_cut_retry; eassumption.
    + destruct (@accept_loop_log remote_cid remote_port W env (option sock + outcome) f s w')
        as [Hlog Hr].
      pose proof (@accept_loop_steps remote_cid remote_port W env (option sock + outcome) f s w').
      cbn zeta in *. rewrite Hr, length_app.
      split; [lia|]. left. split; [reflexivity|].
      eapply server_listening; eassumption.
  - split; [lia|]. left. split; [reflexivity|].
    eapply server_cut_setup. rewrite <- Hl. eassumption.
Qed.

Lemma server_iter_log dock_socket w l r :
  iter_run env (server_body local_ip local_port remote_cid remote_port) dock_socket w l r ->
  server_log local_ip local_port remote_cid remote_port dock_socket l /\ r = None.
Proof.
  induction 1 as [i w n|i w n i' l r Hres Hrun IH|i w n r Hres].
  - split; [|reflexivity].
    destruct (server_body_run n i w) as (_ & [[_ Hlog]|(t & e & d & Ht & Hc & _)]);
      cbn zeta in *; [assumption|].
    rewrite Hc. apply (server_cut_retry _ _ _ _ _ t e d _ []); [assumption|apply app_nil_r].
  - destruct IH as [IH ->]. split; [|reflexivity].
    destruct (server_body_run n i w) as (_ & [[Hr _]|(t & e & d & Ht & Hc & Hr & _)]);
      cbn zeta in *; [congruence|].
    rewrite Hres in Hr. inversion Hr; subst d. rewrite Hc, <- app_assoc.
    eapply server_again; eassumption.
  - exfalso.
    destruct (server_body_run n i w) as (_ & [[Hr _]|(t & e & d & Ht & Hc & Hr & _)]);
      cbn zeta in *; congruence.
Qed.

Lemma server_loop_log n dock_socket w :
  let r := exec env n (server_loop local_ip local_port remote_cid remote_port dock_socket) w in
  server_log local_ip local_port remote_cid remote_port dock_socket (calls r) /\
  result r = None.
Proof. cbn zeta. apply (server_iter_log dock_socket w). apply exec_iter_run. Qed.

Lemma server_loop_steps n dock_socket w :
  let r := exec env n
             (server_loop local_ip local_port remote_cid remote_port dock_socket) w in
  (n <= 2 * length (calls r))%nat.
Proof.
  cbn zeta.
  set (loop := server_loop local_ip local_port remote_cid remote_port dock_socket).
  assert (H : (n <= 2 * length (calls (exec env n loop w))
               + fuel_left (exec env n loop w))%nat).
  { apply (iter_steps env (server_body local_ip local_port remote_cid remote_port)).
    intros n' i w'. cbn zeta.
    destruct (server_body_run n' i w') as (H1 & [[Hr _]|(t & e & d & _ & _ & Hr & H2)]);
      cbn zeta in *; (split; [assumption|]); intros i' Hi'; [congruence|assumption]. }
  destruct (server_loop_log n dock_socket w) as [_ Hr]. cbn zeta in Hr.
  fold loop in Hr. rewrite (exec_cut_fuel env _ _ _ Hr) in H. lia.
Qed.

End ServerRuns.

Section AcceptLogFacts.

Variables remote_cid remote_port : Z.
Variable dock_socket : sock.

Abbreviation accept_turn := (accept_turn remote_cid remote_port dock_socket).
Abbreviation accept_log := (accept_log remote_cid remote_port dock_socket).

Lemma accept_turn_accept t (l1 : list entry) e l2 :
  accept_turn t -> t = l1 ++ e :: l2 -> is_accept e = true ->
  l1 = [] /\ exists x, e = Call (Accept dock_socket) x.
Proof.
  intros Ht H He. symmetry in H.
  destruct Ht; unfold backoff in H; peel H; cbn in He; try discriminate; eauto;
    exfalso; eapply app_cons_not_nil; symmetry; exact H.
Qed.

Lemma accept_log_head l :
  accept_log l -> accepts_next dock_socket l.
Proof.
  unfold accepts_next. destruct 1 as [t l Ht Hl|l l' Ht].
  - right. destruct Ht; cbn; eauto.
  - destruct l as [|a l]; [auto|]. right. cbn in Ht. inversion Ht; subst; eauto.
Qed.

Lemma accept_log_accept l :
  accept_log l ->
  forall l1 e l2, l = l1 ++ e :: l2 -> is_accept e = true ->
    exists t, accept_turn (e :: t) /\ goes_on l2 t (accepts_next dock_socket).
Proof.
  induction 1 as [t l Ht Hl IH|l l' Ht]; intros l1 e l2 H He.
  - symmetry in H.
    assert (Hin : (exists t', t = e :: t' /\ l1 = [] /\ l2 = t' ++ l) \/
                  (exists l1', l1' ++ e :: l2 = l)).
    { destruct Ht; unfold backoff in H; cbn in H; peel H; cbn in He; try discriminate;
        eauto 6. }
    destruct Hin as [(t' & -> & -> & ->)|(l1' & Hl1)].
    + exists t'. split; [assumption|]. right. exists l. split; [reflexivity|].
      apply accept_log_head. assumption.
    + apply (IH l1' e l2); auto.
  - subst l. rewrite <- app_assoc in Ht. cbn in Ht.
    destruct (accept_turn_accept _ l1 e (l2 ++ l') Ht eq_refl He) as (-> & _).
    cbn in Ht. exists (l2 ++ l'). split; [assumption|]. left. eauto.
Qed.

Lemma accept_turn_quiet t :
  accept_turn t ->
  Forall (fun e => listen_error e = None /\ relay_io e = false) t.
Proof. destruct 1; repeat constructor. Qed.

Lemma accept_log_quiet l :
  accept_log l ->
  Forall (fun e => listen_error e = None /\ relay_io e = false) l.
Proof.
  induction 1 as [t l Ht Hl IH|l l' Ht].
  - apply Forall_app. split; [apply accept_turn_quiet|]; assumption.
  - apply accept_turn_quiet in Ht. apply Forall_app in Ht. apply Ht.
Qed.

End AcceptLogFacts.

Section ServerLogFacts.

Variable local_ip : string.
Variables local_port remote_cid remote_port : Z.

Abbreviation server_log := (server_log local_ip local_port remote_cid remote_port).
Abbreviation setup_turn := (setup_turn local_ip local_port).

Lemma setup_turn_head d t x :
  setup_turn d t x -> exists y rest, t = Call (Socket AF_INET) y :: rest.
Proof. destruct 1; eauto. Qed.

Lemma server_log_head d l : server_log d l -> listens_next l.
Proof.
  unfold listens_next.
  destruct 1 as [t e d' l Ht Hl|t s l Ht Hl|t e d' l l' Ht Hl|l l' x Ht].
  - right. destruct (setup_turn_head _ _ _ Ht) as (y & rest & ->). cbn. eauto.
  - right. destruct (setup_turn_head _ _ _ Ht) as (y & rest & ->). cbn. eauto.
  - right. destruct (setup_turn_head _ _ _ Ht) as (y & rest & ->). cbn. eauto.
  - destruct l as [|a l]; [auto|]. right.
    destruct (setup_turn_head _ _ _ Ht) as (y & rest & H). cbn in H. inversion H. eauto.
Qed.

Lemma retry_closing e x d :
  (listen_socket e = None \/ listen_socket e = d) ->
  exists closing, closing_after e closing /\
    retry d x = Call (Print (error_server x)) tt :: Call (Sleep 5) tt :: closing.
Proof.
  intros H. unfold retry, closing_after.
  destruct d as [s|]; eexists; (split; [|reflexivity]); split; eauto;
    intros s' Hs'; destruct H as [H|H]; congruence.
Qed.

(** Where a setup call that raised stands in a failed attempt: at its
    end. *)
Lemma setup_turn_error d t e0 d' (l1 : list entry) e l2 x tail :
  setup_turn d t (inl (e0, d')) ->
  t ++ tail = l1 ++ e :: l2 -> listen_error e = Some x ->
  (t = l1 ++ [e] /\ l2 = tail /\ x = e0 /\
   (listen_socket e = None \/ listen_socket e = d')) \/
  (exists l1', tail = l1' ++ e :: l2).
Proof.
  intros Ht H He. symmetry in H.
  inversion Ht; subst; cbn in H; peel H; cbn in He; try discriminate;
    try (inversion He; subst; left; cbn; auto 6; fail);
    right; eexists; first [reflexivity | symmetry; eassumption].
Qed.

Lemma retry_no_error d x0 (l1 : list entry) e l2 x tail :
  retry d x0 ++ tail = l1 ++ e :: l2 -> listen_error e = Some x ->
  exists l1', tail = l1' ++ e :: l2.
Proof.
  intros H He. symmetry in H. unfold retry in H.
  destruct d; cbn in H; peel H; cbn in He; try discriminate;
    eexists; first [reflexivity | symmetry; eassumption].
Qed.

Lemma server_log_listen_error d l :
  server_log d l ->
  forall l1 e l2 x, l = l1 ++ e :: l2 -> listen_error e = Some x ->
    exists closing, closing_after e closing /\
      goes_on l2 (Call (Print (error_server x)) tt :: Call (Sleep 5) tt :: closing)
              listens_next.
Proof.
  induction 1 as [d t e0 d' l Ht Hl IH|d t s l Ht Hl|d t e0 d' l l' Ht Hl|d l l' x0 Ht];
    intros l1 e l2 x E He.
  - destruct (setup_turn_error _ _ _ _ _ _ _ _ _ Ht E He)
      as [(_ & -> & -> & Hs)|(l1' & H')].
    + destruct (retry_closing e e0 d' Hs) as (closing & Hc & Hr).
      exists closing. split; [assumption|]. right. exists l. rewrite Hr. split; [reflexivity|].
      eapply server_log_head. eassumption.
    + destruct (retry_no_error _ _ _ _ _ _ _ H' He) as (l1'' & H'').
      apply (IH l1'' e l2 x); auto.
  - exfalso. apply app_split_prefix in E.
    destruct E as [(l2' & -> & ->)|(l1' & -> & ->)].
    + inversion Ht as [| | | |s' Ht' Hx]. symmetry in Ht'.
      peel Ht'; cbn in He; try discriminate.
      eapply app_cons_not_nil; symmetry; exact Ht'.
    + apply accept_log_quiet in Hl. apply Forall_app in Hl. destruct Hl as [_ Hl].
      inversion Hl as [|? ? [Hq _] _]. congruence.
  - destruct (setup_turn_error _ _ _ _ _ _ _ _ _ Ht E He)
      as [(_ & -> & -> & Hs)|(l1' & H')].
    + destruct (retry_closing e e0 d' Hs) as (closing & Hc & Hr).
      exists closing. split; [assumption|]. left. exists l'. rewrite <- Hr. assumption.
    + exfalso. assert (H'' : retry d' e0 ++ [] = l1' ++ e :: l2 ++ l').
      { rewrite app_nil_r, <- Hl, H', <- app_assoc. reflexivity. }
      destruct (retry_no_error _ _ _ _ _ _ _ H'' He) as (l1'' & H3).
      eapply app_cons_not_nil; exact H3.
  - subst l. destruct x0 as [[e0 d']|s].
    + assert (H' : (l1 ++ e :: l2 ++ l') ++ [] = l1 ++ e :: l2 ++ l') by apply app_nil_r.
      rewrite <- app_assoc in Ht. cbn in Ht.
      destruct (setup_turn_error _ _ _ _ _ _ _ _ _ Ht H' He)
        as [(Ht' & _ & -> & Hs)|(l1' & H'')].
      * destruct (retry_closing e e0 d' Hs) as (closing & Hc & Hr).
        exists closing. split; [assumption|]. left.
        apply app_inv_head in Ht'. inversion Ht' as [Hl2].
        apply app_eq_nil in Hl2. destruct Hl2 as [-> _]. cbn. eauto.
      * exfalso. eapply app_cons_not_nil; exact H''.
    + exfalso. rewrite <- app_assoc in Ht. cbn in Ht.
      inversion Ht as [| | | |s' Ht' Hx]. symmetry in Ht'.
      peel Ht'; cbn in He; try discriminate.
      eapply app_cons_not_nil; symmetry; exact Ht'.
Qed.

End ServerLogFacts.

Section ServerNext.

Variable local_ip : string.
Variables local_port remote_cid remote_port : Z.

Abbreviation server_log := (server_log local_ip local_port remote_cid remote_port).
Abbreviation setup_turn := (setup_turn local_ip local_port).

Lemma setup_turn_quiet d t x :
  setup_turn d t x ->
  Forall (fun e => is_accept e = false) t /\ Forall (fun e => relay_io e = false) t.
Proof. destruct 1; split; repeat constructor. Qed.

Lemma retry_quiet d e :
  Forall (fun e => is_accept e = false) (retry d e) /\
  Forall (fun e => relay_io e = false) (retry d e).
Proof. destruct d; split; repeat constructor. Qed.

Lemma server_log_quiet d l :
  server_log d l -> Forall (fun e => relay_io e = false) l.
Proof.
  induction 1 as [d t e0 d' l Ht Hl IH|d t s l Ht Hl|d t e0 d' l l' Ht Hl|d l l' x0 Ht].
  - rewrite !Forall_app. repeat split;
      [apply (setup_turn_quiet _ _ _ Ht)|apply retry_quiet|assumption].
  - rewrite Forall_app. split; [apply (setup_turn_quiet _ _ _ Ht)|].
    apply accept_log_quiet in Hl. eapply Forall_impl; [|exact Hl]. cbn. intros a [_ Ha]. exact Ha.
  - rewrite Forall_app. split; [apply (setup_turn_quiet _ _ _ Ht)|].
    pose proof (proj2 (retry_quiet d' e0)) as Hq. rewrite <- Hl, Forall_app in Hq. apply Hq.
  - pose proof (proj2 (setup_turn_quiet _ _ _ Ht)) as Hq. rewrite Forall_app in Hq. apply Hq.
Qed.

Lemma server_log_accept d l :
  server_log d l ->
  forall l1 e l2, l = l1 ++ e :: l2 -> is_accept e = true ->
    exists dock_socket t,
      accept_turn remote_cid remote_port dock_socket (e :: t) /\
      goes_on l2 t (accepts_next dock_socket).
Proof.
  induction 1 as [d t e0 d' l Ht Hl IH|d t s l Ht Hl|d t e0 d' l l' Ht Hl|d l l' x0 Ht];
    intros l1 e l2 E He.
  - destruct (not_in_part is_accept _ _ _ _ _ (proj1 (setup_turn_quiet _ _ _ Ht)) E He)
      as (l1' & _ & E').
    destruct (not_in_part is_accept _ _ _ _ _ (proj1 (retry_quiet d' e0)) E' He)
      as (l1'' & _ & E'').
    apply (IH l1'' e l2); assumption.
  - destruct (not_in_part is_accept _ _ _ _ _ (proj1 (setup_turn_quiet _ _ _ Ht)) E He)
      as (l1' & _ & E').
    exists s. apply (accept_log_accept remote_cid remote_port s l Hl l1' e l2); assumption.
  - exfalso.
    destruct (not_in_part is_accept _ _ _ _ _ (proj1 (setup_turn_quiet _ _ _ Ht)) E He)
      as (l1' & _ & E').
    pose proof (proj1 (retry_quiet d' e0)) as Hq. rewrite <- Hl, E' in Hq.
    rewrite <- app_assoc in Hq. apply Forall_app in Hq. destruct Hq as [_ Hq].
    inversion Hq; congruence.
  - exfalso. pose proof (proj1 (setup_turn_quiet _ _ _ Ht)) as Hq. rewrite E in Hq.
    rewrite <- app_assoc in Hq. apply Forall_app in Hq. destruct Hq as [_ Hq].
    inversion Hq; congruence.
Qed.

Lemma accept_turn_length dock_socket t :
  accept_turn remote_cid remote_port dock_socket t -> (length t <= 8)%nat.
Proof. destruct 1; cbn; lia. Qed.

Lemma closing_after_length e closing :
  closing_after e closing -> (length closing <= 1)%nat.
Proof. intros [[->|[s ->]] _]; cbn; lia. Qed.

Context {W : Type}.
Variable env : forall X : Type, sockE X -> W -> W * X.

Abbreviation server := (server local_ip local_port remote_cid remote_port).

Lemma server_never_returns n w : result (exec env n server w) = None.
Proof. apply server_loop_log. Qed.

Lemma server_steps n w : (n <= 2 * length (calls (exec env n server w)))%nat.
Proof. apply server_loop_steps. Qed.

(** Given enough steps, a run of [server] in which setting the listening
    socket up raised has gone through the outer [except] clause and has
    asked for a new socket. *)
Lemma server_after_listen_error n w l1 e l2 x :
  calls (exec env n server w) = l1 ++ e :: l2 ->
  listen_error e = Some x ->
  exists m closing y rest,
    closing_after e closing /\
    calls (exec env m server w)
      = l1 ++ e :: Call (Print (error_server x)) tt :: Call (Sleep 5) tt
           :: closing ++ Call (Socket AF_INET) y :: rest.
Proof.
  intros Hn He.
  set (m := (n + 2 * (length l1 + 5))%nat).
  destruct (exec_le env n m server w ltac:(lia)) as (l' & Hm & _).
  rewrite Hn, <- app_assoc in Hm. cbn in Hm.
  pose proof (proj1 (server_loop_log local_ip local_port remote_cid remote_port env m None w))
    as Hlog.
  fold server in Hlog.
  pose proof (server_steps m w) as Hsteps. rewrite Hm, length_app in Hsteps. cbn in Hsteps.
  destruct (server_log_listen_error _ _ _ _ _ _ Hlog _ _ _ _ Hm He)
    as (closing & Hc & [(l'' & Hl)|(rest & Hl & [->|(y & rest' & ->)])]);
    pose proof (closing_after_length _ _ Hc).
  - exfalso. apply (f_equal (@length _)) in Hl. rewrite length_app in Hl. cbn in Hl. lia.
  - exfalso. rewrite Hl, length_app in Hsteps. cbn in Hsteps. lia.
  - exists m, closing, y, rest'. split; [assumption|]. rewrite Hm, Hl. reflexivity.
Qed.

(** Given enough steps, a run of [server] that has called [accept] has
    done the whole turn of the accept loop and has called [accept]
    again. *)
Lemma server_after_accept n w l1 e l2 :
  calls (exec env n server w) = l1 ++ e :: l2 ->
  is_accept e = true ->
  exists m dock_socket t y rest,
    accept_turn remote_cid remote_port dock_socket (e :: t) /\
    calls (exec env m server w)
      = l1 ++ e :: t ++ Call (Accept dock_socket) y :: rest.
Proof.
  intros Hn He.
  set (m := (n + 2 * (length l1 + 9))%nat).
  destruct (exec_le env n m server w ltac:(lia)) as (l' & Hm & _).
  rewrite Hn, <- app_assoc in Hm. cbn in Hm.
  pose proof (proj1 (server_loop_log local_ip local_port remote_cid remote_port env m None w))
    as Hlog.
  fold server in Hlog.
  pose proof (server_steps m w) as Hsteps. rewrite Hm, length_app in Hsteps. cbn in Hsteps.
  destruct (server_log_accept _ _ Hlog _ _ _ Hm He)
    as (dock_socket & t & Ht & [(l'' & Hl)|(rest & Hl & [->|(y & rest' & ->)])]);
    pose proof (accept_turn_length _ _ Ht) as Hlen; cbn in Hlen.
  - exfalso. apply (f_equal (@length _)) in Hl. rewrite length_app in Hl. lia.
  - exfalso. rewrite Hl, length_app in Hsteps. cbn in Hsteps. lia.
  - exists m, dock_socket, t, y, rest'. split; [assumption|]. rewrite Hm, Hl. reflexivity.
Qed.

End ServerNext.

Lemma bind_error_listen e s x :
  bind_error e = Some (s, x) -> listen_error e = Some x /\ listen_socket e = Some s.
Proof.
  destruct e as [X c y]. destruct c; cbn; try discriminate.
  destruct y; intros H; inversion H; auto.
Qed.


(** ** Runs of [main] *)

Section MainRuns.

Variable int : string -> exn + Z.
Context {W : Type}.
Variable env : forall X : Type, sockE X -> W -> W * X.

Lemma keep_alive_run : forall n w,
  exists k,
    calls (exec env n keep_alive w) = repeat (Call (Sleep 60) tt) k /\
    result (exec env n keep_alive w) = None /\
    (n <= 2 * k)%nat.
Proof.
  induction n as [n IH] using lt_wf_ind. intros w.
  destruct n as [|[|n]].
  - exists 0%nat. cbn. auto.
  - exists 1%nat. unfold keep_alive. rewrite exec_iter. unfold then_.
    rewrite exec_call_unit. cbn. auto.
  - destruct (IH n ltac:(lia) (fst (env _ (Sleep 60) w))) as (k & Hc & Hr & Hk).
    exists (S k). unfold keep_alive in *. rewrite exec_iter. unfold then_.
    rewrite exec_call_unit, exec_ret. cbn [record calls result fuel_left world app].
    rewrite exec_tau, Hc, Hr. cbn. split; [reflexivity|]. split; [reflexivity|lia].
Qed.

Lemma main_run args local_ip local_port remote_cid remote_port w n :
  subscript args 0 = inr local_ip ->
  int_arg int args 1 = inr local_port ->
  int_arg int args 2 = inr remote_cid ->
  int_arg int args 3 = inr remote_port ->
  snd (env _ (ThreadStart (target_server local_ip local_port remote_cid remote_port)) w)
    = inr tt ->
  let r := exec env n (main int args) w in
  result r = None /\
  exists k,
    (n <= 2 * k + 2)%nat /\
    (2 <= n ->
     calls r =
       Call (ThreadStart (target_server local_ip local_port remote_cid remote_port)) (inr tt)
       :: Call (Print (starting_forwarder local_ip local_port remote_cid remote_port)) tt
       :: repeat (Call (Sleep 60) tt) k)%nat.
Proof.
  intros H0 H1 H2 H3 Hs. unfold main. rewrite H0, H1, H2, H3. cbn zeta.
  destruct n as [|[|n]].
  - cbn. split; [reflexivity|]. exists 0%nat. split; lia.
  - rewrite exec_call, Hs. cbn. split; [reflexivity|]. exists 0%nat. split; lia.
  - rewrite exec_call, Hs, exec_call_unit.
    set (w' := fst (env _ (Print _) _)).
    destruct (keep_alive_run n w') as (k & Hc & Hr & Hk).
    cbn [record calls result]. rewrite Hc, Hr. split; [reflexivity|].
    exists k. split; [lia|]. reflexivity.
Qed.

End MainRuns.

(** ** The calls of [forward], one by one *)

Section ForwardCalls.

Variables source destination : sock.

Lemma teardown_forward_call e :
  forallb (forward_call source destination) (teardown source destination e) = true.
Proof.
  unfold teardown. cbn. rewrite !Nat.eqb_refl, orb_true_r. destruct e; reflexivity.
Qed.

Lemma turn_forward_call t x :
  turn source destination t x -> forallb (forward_call source destination) t = true.
Proof.
  destruct 1; cbn [forallb forward_call]; rewrite ?teardown_forward_call, ?Nat.eqb_refl;
    cbn; rewrite ?H; reflexivity.
Qed.

Lemma forward_log_forward_call l r :
  forward_log source destination l r -> forallb (forward_call source destination) l = true.
Proof.
  induction 1 as [c l r Hc Hl IH|l x Ht Hx|l l' x Ht].
  - cbn. rewrite !Nat.eqb_refl, Hc, IH. reflexivity.
  - eapply turn_forward_call; eassumption.
  - apply turn_forward_call in Ht. rewrite forallb_app in Ht.
    apply andb_true_iff in Ht. apply Ht.
Qed.

End ForwardCalls.

Section ForwardErrors.

Variables source destination : sock.

(** A call that neither raised, nor closed, nor printed. *)


Lemma forward_log_last_turn l r :
  forward_log source destination l r ->
  exists l0 t t' x,
    l = l0 ++ t /\ turn source destination (t ++ t') x /\
    Forall (fun e => loud e = false) l0.
Proof.
  induction 1 as [c l r Hc Hl (l0 & t & t' & x & -> & Ht & H0)|l x Ht Hx|l l' x Ht].
  - exists (Call (Recv source 1024) (inr c) :: Call (SendAll destination c) (inr tt) :: l0),
      t, t', x.
    split; [reflexivity|]. split; [assumption|]. repeat constructor; assumption.
  - exists [], l, [], x. rewrite app_nil_r. auto.
  - exists [], l, l', x. auto.
Qed.

Lemma turn_raises_once t x :
  turn source destination t x -> (length (filter has_raised t) <= 1)%nat.
Proof. destruct 1; cbn; lia. Qed.

Lemma turn_close_after_raise t t' x :
  turn source destination (t ++ t') x ->
  existsb has_raised t = false ->
  existsb is_close t = false /\ existsb is_print t = false.
Proof.
  intros Ht. remember (t ++ t') as tt' eqn:E. symmetry in E.
  destruct Ht; unfold teardown in E; prefixes E; cbn; intros; auto; discriminate.
Qed.

Lemma turn_after_close t x (l1 : list entry) e l2 :
  turn source destination t x -> t = l1 ++ e :: l2 -> is_close e = true ->
  forallb is_close l2 = true.
Proof.
  intros Ht E He. symmetry in E.
  destruct Ht; unfold teardown in E; positions E; cbn in He; try discriminate; reflexivity.
Qed.

Lemma filter_loud (f : entry -> bool) l :
  (forall e, f e = true -> loud e = true) ->
  Forall (fun e => loud e = false) l -> filter f l = [] /\ existsb f l = false.
Proof.
  intros Hf. induction 1 as [|a l Ha Hl [IH1 IH2]]; [auto|]. cbn.
  destruct (f a) eqn:E; [apply Hf in E; congruence|]. auto.
Qed.

Lemma forward_log_errors l r :
  forward_log source destination l r ->
  (forall x, r <> Some (inl x)) /\
  (length (filter has_raised l) <= 1)%nat /\
  (existsb has_raised l = false ->
   existsb is_close l = false /\ existsb is_print l = false) /\
  (forall l1 e l2, l = l1 ++ e :: l2 -> is_close e = true -> forallb is_close l2 = true).
Proof.
  intros Hlog. split; [|split; [|split]].
  - induction Hlog; [assumption|discriminate|discriminate].
  - destruct (forward_log_last_turn _ _ Hlog) as (l0 & t & t' & x & -> & Ht & H0).
    rewrite filter_app.
    rewrite (proj1 (filter_loud has_raised l0 ltac:(unfold loud; intros ? ->; reflexivity) H0)).
    apply turn_raises_once in Ht. rewrite filter_app, length_app in Ht. cbn. lia.
  - destruct (forward_log_last_turn _ _ Hlog) as (l0 & t & t' & x & -> & Ht & H0).
    rewrite !existsb_app. intros H. apply orb_false_iff in H. destruct H as [_ H].
    destruct (turn_close_after_raise _ _ _ Ht H) as [-> ->].
    rewrite (proj2 (filter_loud is_close l0
               ltac:(unfold loud; intros ? ->; apply orb_true_iff; left; apply orb_true_r) H0)).
    rewrite (proj2 (filter_loud is_print l0
               ltac:(unfold loud; intros ? ->; apply orb_true_r) H0)).
    auto.
  - destruct (forward_log_last_turn _ _ Hlog) as (l0 & t & t' & x & -> & Ht & H0).
    intros l1 e l2 E He.
    assert (H0' : Forall (fun e => is_close e = false) l0).
    { eapply Forall_impl; [|exact H0]. unfold loud. intros a Ha.
      apply orb_false_iff in Ha. destruct Ha as [Ha _].
      apply orb_false_iff in Ha. apply Ha. }
    destruct (not_in_part is_close _ _ _ _ _ H0' E He) as (l1' & _ & ->).
    rewrite <- app_assoc in Ht. cbn in Ht.
    pose proof (turn_after_close _ _ _ _ _ Ht eq_refl He) as H.
    rewrite forallb_app in H. apply andb_true_iff in H. apply H.
Qed.

End ForwardErrors.

(** ** The calls of [server], one by one *)

Section ServerCalls.

Variable local_ip : string.
Variables local_port remote_cid remote_port : Z.

Abbreviation server_call := (server_call local_ip local_port remote_cid remote_port).

Lemma accept_turn_server_call dock_socket t :
  accept_turn remote_cid remote_port dock_socket t -> forallb server_call t = true.
Proof. destruct 1; cbn; rewrite ?Z.eqb_refl; reflexivity. Qed.

Lemma accept_log_server_call dock_socket l :
  accept_log remote_cid remote_port dock_socket l -> forallb server_call l = true.
Proof.
  induction 1 as [t l Ht Hl IH|l l' Ht].
  - rewrite forallb_app, IH, (accept_turn_server_call _ _ Ht). reflexivity.
  - apply accept_turn_server_call in Ht. rewrite forallb_app in Ht.
    apply andb_true_iff in Ht. apply Ht.
Qed.

Lemma setup_turn_server_call d t x :
  setup_turn local_ip local_port d t x -> forallb server_call t = true.
Proof. destruct 1; cbn; rewrite ?Z.eqb_refl, ?String.eqb_refl; reflexivity. Qed.

Lemma retry_server_call d e : forallb server_call (retry d e) = true.
Proof. destruct d; reflexivity. Qed.

Lemma server_log_server_call d l :
  server_log local_ip local_port remote_cid remote_port d l -> forallb server_call l = true.
Proof.
  induction 1 as [d t e0 d' l Ht Hl IH|d t s l Ht Hl|d t e0 d' l l' Ht Hl|d l l' x0 Ht].
  - rewrite !forallb_app, IH, (setup_turn_server_call _ _ _ Ht), retry_server_call.
    reflexivity.
  - rewrite forallb_app, (setup_turn_server_call _ _ _ Ht), (accept_log_server_call _ _ Hl).
    reflexivity.
  - rewrite forallb_app, (setup_turn_server_call _ _ _ Ht). cbn.
    pose proof (retry_server_call d' e0) as H. rewrite <- Hl, forallb_app in H.
    apply andb_true_iff in H. apply H.
  - apply setup_turn_server_call in Ht. rewrite forallb_app in Ht.
    apply andb_true_iff in Ht. apply Ht.
Qed.

End ServerCalls.

(** ** The listening socket *)

Section ListenerFacts.

Variable local_ip : string.
Variables local_port remote_cid remote_port : Z.

Abbreviation server_log := (server_log local_ip local_port remote_cid remote_port).
Abbreviation setup_turn := (setup_turn local_ip local_port).
Abbreviation accept_log := (accept_log remote_cid remote_port).
Abbreviation accept_turn := (accept_turn remote_cid remote_port).

(** The accept loop neither closes a socket nor sets one up. *)
Lemma accept_turn_serving s t :
  accept_turn s t -> Forall (fun e => is_close e = false /\ listen_setup e = false) t.
Proof. destruct 1; repeat constructor. Qed.

Lemma accept_log_serving s l :
  accept_log s l -> Forall (fun e => is_close e = false /\ listen_setup e = false) l.
Proof.
  induction 1 as [t l Ht Hl IH|l l' Ht].
  - apply Forall_app. split; [eapply accept_turn_serving|]; eassumption.
  - apply accept_turn_serving in Ht. apply Forall_app in Ht. apply Ht.
Qed.

Lemma accept_log_socket s l l1 s' y l2 :
  accept_log s l -> l = l1 ++ Call (Accept s') y :: l2 -> s' = s.
Proof.
  intros Hl E.
  destruct (accept_log_accept _ _ _ _ Hl _ _ _ E eq_refl) as (t & Ht & _).
  destruct (accept_turn_accept _ _ _ _ [] _ t Ht eq_refl eq_refl) as (_ & x & Hx).
  apply (f_equal accept_answer) in Hx. cbn in Hx. congruence.
Qed.

Lemma listen_returned_setup e : listen_returned e = true -> listen_setup e = true.
Proof. destruct e as [X c x]. destruct c; cbn; congruence. Qed.

Lemma made_listener_setup e s : made_listener e = Some s -> listen_setup e = true.
Proof. destruct e as [X c x]. destruct c as [[]| | | | | | | | | | | |]; cbn; congruence. Qed.

(** An attempt to listen closes nothing; one that fails has seen no
    [listen] return and leaves [dock_socket] bound as its result says. *)
Lemma setup_turn_no_close d t x :
  setup_turn d t x -> Forall (fun e => is_close e = false) t.
Proof. destruct 1; repeat constructor. Qed.

Lemma setup_turn_failed d t e d' :
  setup_turn d t (inl (e, d')) ->
  Forall (fun e => listen_returned e = false) t /\ dock_socket_after d t = d'.
Proof. intros H. inversion H; subst; split; repeat constructor. Qed.

Lemma setup_turn_listening d t s :
  setup_turn d t (inr s) -> t = listening_calls local_ip local_port s.
Proof. intros H. inversion H; subst. reflexivity. Qed.

Lemma retry_no_listen d e : Forall (fun e => listen_returned e = false) (retry d e).
Proof. destruct d; repeat constructor. Qed.

Lemma retry_dock_socket d e d0 : dock_socket_after d0 (retry d e) = d0.
Proof. destruct d; reflexivity. Qed.

Lemma dock_socket_after_app d l l' :
  dock_socket_after d (l ++ l') = dock_socket_after (dock_socket_after d l) l'.
Proof. apply fold_left_app. Qed.

End ListenerFacts.

Section ListenerLog.

Variable local_ip : string.
Variables local_port remote_cid remote_port : Z.

Abbreviation server_log := (server_log local_ip local_port remote_cid remote_port).
Abbreviation setup_turn := (setup_turn local_ip local_port).

(** Every [accept] is on a socket that was set up in full, with nothing
    closed and nothing set up since. *)
Lemma server_log_accept_socket d l :
  server_log d l ->
  forall l1 s y l2, l = l1 ++ Call (Accept s) y :: l2 ->
    exists l0 mid,
      l1 = l0 ++ listening_calls local_ip local_port s ++ mid /\
      Forall (fun e => is_close e = false /\ listen_setup e = false) mid.
Proof.
  induction 1 as [d t e0 d' l Ht Hl IH|d t s0 l Ht Hl|d t e0 d' l l' Ht Hl|d l l' x0 Ht];
    intros l1 s y l2 E.
  - destruct (not_in_part is_accept _ _ _ _ _ (proj1 (setup_turn_quiet _ _ _ _ _ Ht)) E eq_refl)
      as (l1' & -> & E').
    destruct (not_in_part is_accept _ _ _ _ _ (proj1 (retry_quiet d' e0)) E' eq_refl)
      as (l1'' & -> & E'').
    destruct (IH _ _ _ _ E'') as (l0 & mid & -> & Hmid).
    exists (t ++ retry d' e0 ++ l0), mid. rewrite <- !app_assoc. auto.
  - destruct (not_in_part is_accept _ _ _ _ _ (proj1 (setup_turn_quiet _ _ _ _ _ Ht)) E eq_refl)
      as (l1' & -> & E').
    rewrite (accept_log_socket _ _ _ _ _ _ _ _ Hl E').
    exists [], l1'. rewrite (setup_turn_listening _ _ _ _ _ Ht). split; [reflexivity|].
    apply accept_log_serving in Hl. rewrite E' in Hl. apply Forall_app in Hl. apply Hl.
  - exfalso.
    destruct (not_in_part is_accept _ _ _ _ _ (proj1 (setup_turn_quiet _ _ _ _ _ Ht)) E eq_refl)
      as (l1' & _ & E').
    pose proof (proj1 (retry_quiet d' e0)) as Hq. rewrite <- Hl, E' in Hq.
    rewrite <- app_assoc in Hq. apply Forall_app in Hq. destruct Hq as [_ Hq].
    inversion Hq; discriminate.
  - exfalso. pose proof (proj1 (setup_turn_quiet _ _ _ _ _ Ht)) as Hq. rewrite E in Hq.
    rewrite <- app_assoc in Hq. apply Forall_app in Hq. destruct Hq as [_ Hq].
    inversion Hq; discriminate.
Qed.

(** Once [listen] has returned, nothing is closed and nothing is set up
    any more. *)
Lemma server_log_listening d l :
  server_log d l ->
  forall l1 e l2, l = l1 ++ e :: l2 -> listen_returned e = true ->
    Forall (fun e => is_close e = false /\ listen_setup e = false) l2.
Proof.
  induction 1 as [d t e0 d' l Ht Hl IH|d t s0 l Ht Hl|d t e0 d' l l' Ht Hl|d l l' x0 Ht];
    intros l1 e l2 E He.
  - destruct (not_in_part listen_returned _ _ _ _ _
                (proj1 (setup_turn_failed _ _ _ _ _ _ Ht)) E He) as (l1' & -> & E').
    destruct (not_in_part listen_returned _ _ _ _ _ (retry_no_listen d' e0) E' He)
      as (l1'' & -> & E'').
    eapply IH; eassumption.
  - apply app_split_prefix in E. destruct E as [(l2' & E & ->)|(l1' & -> & ->)].
    + rewrite (setup_turn_listening _ _ _ _ _ Ht) in E. unfold listening_calls in E.
      symmetry in E. positions E; cbn in He; try discriminate.
      constructor; [split; reflexivity|]. eapply accept_log_serving; eassumption.
    + exfalso. apply accept_log_serving in Hl. apply Forall_app in Hl. destruct Hl as [_ Hl].
      inversion Hl as [|? ? [_ Hs] _]. rewrite (listen_returned_setup _ He) in Hs.
      discriminate.
  - exfalso.
    destruct (not_in_part listen_returned _ _ _ _ _
                (proj1 (setup_turn_failed _ _ _ _ _ _ Ht)) E He) as (l1' & -> & E').
    pose proof (retry_no_listen d' e0) as Hq. rewrite <- Hl, E' in Hq.
    rewrite <- app_assoc in Hq. apply Forall_app in Hq. destruct Hq as [_ Hq].
    inversion Hq; congruence.
  - subst l. rewrite <- app_assoc in Ht. cbn in Ht. destruct x0 as [[e0 d']|s].
    + exfalso. pose proof (proj1 (setup_turn_failed _ _ _ _ _ _ Ht)) as Hq.
      apply Forall_app in Hq. destruct Hq as [_ Hq]. inversion Hq; congruence.
    + apply setup_turn_listening in Ht. unfold listening_calls in Ht.
      positions Ht; cbn in He; try discriminate.
      match goal with H : _ ++ _ = _ |- _ => prefixes H end; repeat constructor.
Qed.

End ListenerLog.

Section ListenerClose.

Variable local_ip : string.
Variables local_port remote_cid remote_port : Z.

Abbreviation server_log := (server_log local_ip local_port remote_cid remote_port).
Abbreviation setup_turn := (setup_turn local_ip local_port).

Lemma retry_close d e0 (l1 : list entry) e l2 :
  retry d e0 = l1 ++ e :: l2 -> is_close e = true ->
  l1 = [Call (Print (error_server e0)) tt; Call (Sleep 5) tt] /\
  d = closed_socket e /\ l2 = [].
Proof.
  intros E He. symmetry in E. unfold retry in E.
  destruct d; positions E; cbn in He; try discriminate. auto.
Qed.

(** Every [close] is the one of the outer [except] clause, on the socket
    [dock_socket] is bound to. *)
Lemma server_log_close d l :
  server_log d l ->
  forall l1 e l2, l = l1 ++ e :: l2 -> is_close e = true ->
    dock_socket_after d l1 = closed_socket e /\
    exists l0 x, l1 = l0 ++ [Call (Print (error_server x)) tt; Call (Sleep 5) tt].
Proof.
  induction 1 as [d t e0 d' l Ht Hl IH|d t s0 l Ht Hl|d t e0 d' l l' Ht Hl|d l l' x0 Ht];
    intros l1 e l2 E He.
  - destruct (not_in_part is_close _ _ _ _ _ (setup_turn_no_close _ _ _ _ _ Ht) E He)
      as (l1' & -> & E').
    rewrite dock_socket_after_app, (proj2 (setup_turn_failed _ _ _ _ _ _ Ht)).
    apply app_split_prefix in E'. destruct E' as [(l2' & E' & ->)|(l1'' & -> & ->)].
    + destruct (retry_close _ _ _ _ _ E' He) as (-> & -> & _).
      split; [reflexivity|]. eauto.
    + rewrite dock_socket_after_app, retry_dock_socket.
      destruct (IH _ _ _ eq_refl He) as (Hd & l0 & x & ->). split; [assumption|].
      exists (t ++ retry d' e0 ++ l0), x. rewrite <- !app_assoc. reflexivity.
  - exfalso.
    destruct (not_in_part is_close _ _ _ _ _ (setup_turn_no_close _ _ _ _ _ Ht) E He)
      as (l1' & -> & E').
    apply accept_log_serving in Hl. rewrite E' in Hl. apply Forall_app in Hl.
    destruct Hl as [_ Hl]. inversion Hl as [|? ? [Hc _] _]. congruence.
  - destruct (not_in_part is_close _ _ _ _ _ (setup_turn_no_close _ _ _ _ _ Ht) E He)
      as (l1' & -> & E').
    rewrite dock_socket_after_app, (proj2 (setup_turn_failed _ _ _ _ _ _ Ht)).
    assert (E'' : retry d' e0 = l1' ++ e :: l2 ++ l').
    { rewrite <- Hl, E', <- app_assoc. reflexivity. }
    destruct (retry_close _ _ _ _ _ E'' He) as (-> & -> & _).
    split; [reflexivity|]. eauto.
  - exfalso. pose proof (setup_turn_no_close _ _ _ _ _ Ht) as Hq. rewrite E in Hq.
    rewrite <- app_assoc in Hq. apply Forall_app in Hq. destruct Hq as [_ Hq].
    inversion Hq; congruence.
Qed.

End ListenerClose.

Section ListenerSocketError.

Variable local_ip : string.
Variables local_port remote_cid remote_port : Z.

Abbreviation server_log := (server_log local_ip local_port remote_cid remote_port).
Abbreviation setup_turn := (setup_turn local_ip local_port).

Lemma makes_listener_setup e : makes_listener e = true -> listen_setup e = true.
Proof. destruct e as [X c x]. destruct c as [[]| | | | | | | | | | | |]; cbn; congruence. Qed.

(** [socket.socket] is the first call of an attempt to listen, and of no
    other place. *)
Lemma setup_turn_socket d t x0 (l1 : list entry) e l2 :
  setup_turn d t x0 -> t = l1 ++ e :: l2 -> makes_listener e = true -> l1 = [].
Proof.
  intros Ht E He. symmetry in E.
  destruct Ht; positions E; cbn in He; try discriminate; reflexivity.
Qed.

Lemma setup_turn_socket_raises d t x0 e l2 x :
  setup_turn d t x0 -> t = e :: l2 -> makes_listener e = true ->
  listen_error e = Some x -> x0 = inl (x, d) /\ l2 = [].
Proof.
  intros Ht E He Hx. destruct Ht; inversion E; subst; cbn in Hx; try discriminate.
  inversion Hx. auto.
Qed.

Lemma retry_no_socket d e : Forall (fun e => makes_listener e = false) (retry d e).
Proof. destruct d; repeat constructor. Qed.

(** After [socket.socket] has raised, the outer [except] clause closes
    what [dock_socket] was bound to before. *)
Lemma server_log_socket_error d l :
  server_log d l ->
  forall l1 e l2 x, l = l1 ++ e :: l2 -> makes_listener e = true ->
    listen_error e = Some x ->
    goes_on l2 (retry (dock_socket_after d l1) x) listens_next.
Proof.
  induction 1 as [d t e0 d' l Ht Hl IH|d t s0 l Ht Hl|d t e0 d' l l' Ht Hl|d l l' x0 Ht];
    intros l1 e l2 x E He Hx.
  - apply app_split_prefix in E. destruct E as [(l2' & E & ->)|(l1' & -> & E)].
    + pose proof (setup_turn_socket _ _ _ _ _ _ Ht E He) as ->. cbn in E.
      destruct (setup_turn_socket_raises _ _ _ _ _ _ Ht E He Hx) as [Hr ->].
      inversion Hr; subst. right. exists l. split; [reflexivity|].
      eapply server_log_head. eassumption.
    + destruct (not_in_part makes_listener _ _ _ _ _ (retry_no_socket d' e0) E He)
        as (l1'' & -> & ->).
      rewrite !dock_socket_after_app, (proj2 (setup_turn_failed _ _ _ _ _ _ Ht)),
        retry_dock_socket.
      eapply IH; [reflexivity|assumption|assumption].
  - exfalso. apply app_split_prefix in E. destruct E as [(l2' & E & ->)|(l1' & -> & E)].
    + pose proof (setup_turn_socket _ _ _ _ _ _ Ht E He) as ->. cbn in E.
      destruct (setup_turn_socket_raises _ _ _ _ _ _ Ht E He Hx) as [Hr _]. discriminate.
    + apply accept_log_serving in Hl. rewrite E in Hl. apply Forall_app in Hl.
      destruct Hl as [_ Hl]. inversion Hl as [|? ? [_ Hs] _].
      rewrite (makes_listener_setup _ He) in Hs. discriminate.
  - apply app_split_prefix in E. destruct E as [(l2' & E & ->)|(l1' & -> & E)].
    + pose proof (setup_turn_socket _ _ _ _ _ _ Ht E He) as ->. cbn in E.
      destruct (setup_turn_socket_raises _ _ _ _ _ _ Ht E He Hx) as [Hr ->].
      inversion Hr; subst. left. exists l'. assumption.
    + exfalso. pose proof (retry_no_socket d' e0) as Hq. rewrite <- Hl, E in Hq.
      rewrite <- app_assoc in Hq. apply Forall_app in Hq. destruct Hq as [_ Hq].
      inversion Hq; congruence.
  - subst l. rewrite <- app_assoc in Ht. cbn in Ht.
    pose proof (setup_turn_socket _ _ _ _ _ _ Ht eq_refl He) as ->. cbn in Ht.
    destruct (setup_turn_socket_raises _ _ _ _ _ _ Ht eq_refl He Hx) as [_ Hl2].
    apply app_eq_nil in Hl2. destruct Hl2 as [-> _]. left. eexists. apply app_nil_l.
Qed.

(** When [socket.socket] is called, [dock_socket] is as it was at the
    start, or bound to a socket that has been closed. *)
Lemma server_log_closed_before d l :
  server_log d l ->
  forall l1 e l2, l = l1 ++ e :: l2 -> makes_listener e = true ->
    dock_socket_after d l1 = d \/
    exists s, dock_socket_after d l1 = Some s /\ existsb (closes s) l1 = true.
Proof.
  induction 1 as [d t e0 d' l Ht Hl IH|d t s0 l Ht Hl|d t e0 d' l l' Ht Hl|d l l' x0 Ht];
    intros l1 e l2 E He.
  - apply app_split_prefix in E. destruct E as [(l2' & E & ->)|(l1' & -> & E)].
    + pose proof (setup_turn_socket _ _ _ _ _ _ Ht E He) as ->. left. reflexivity.
    + destruct (not_in_part makes_listener _ _ _ _ _ (retry_no_socket d' e0) E He)
        as (l1'' & -> & ->).
      rewrite !dock_socket_after_app, (proj2 (setup_turn_failed _ _ _ _ _ _ Ht)),
        retry_dock_socket.
      destruct (IH _ _ _ eq_refl He) as [Hd|(s & Hd & Hc)].
      * rewrite Hd. inversion Ht; subst; [left; reflexivity| | |];
          right; eexists; (split; [reflexivity|]);
          rewrite !existsb_app; cbn; rewrite Nat.eqb_refl, ?orb_true_r; reflexivity.
      * right. exists s. split; [assumption|].
        rewrite !existsb_app, Hc, !orb_true_r. reflexivity.
  - apply app_split_prefix in E. destruct E as [(l2' & E & ->)|(l1' & -> & E)].
    + pose proof (setup_turn_socket _ _ _ _ _ _ Ht E He) as ->. left. reflexivity.
    + exfalso. apply accept_log_serving in Hl. rewrite E in Hl. apply Forall_app in Hl.
      destruct Hl as [_ Hl]. inversion Hl as [|? ? [_ Hs] _].
      rewrite (makes_listener_setup _ He) in Hs. discriminate.
  - apply app_split_prefix in E. destruct E as [(l2' & E & ->)|(l1' & -> & E)].
    + pose proof (setup_turn_socket _ _ _ _ _ _ Ht E He) as ->. left. reflexivity.
    + exfalso. pose proof (retry_no_socket d' e0) as Hq. rewrite <- Hl, E in Hq.
      rewrite <- app_assoc in Hq. apply Forall_app in Hq. destruct Hq as [_ Hq].
      inversion Hq; congruence.
  - subst l. rewrite <- app_assoc in Ht. cbn in Ht.
    pose proof (setup_turn_socket _ _ _ _ _ _ Ht eq_refl He) as ->. left. reflexivity.
Qed.

End ListenerSocketError.

Lemma Forall_existsb {A} (f : A -> bool) (l : list A) :
  Forall (fun a => f a = false) l -> existsb f l = false.
Proof. induction 1 as [|a l Ha Hl IH]; cbn; [|rewrite Ha, IH]; reflexivity. Qed.

Lemma serving_existsb (l : list entry) :
  Forall (fun e => is_close e = false /\ listen_setup e = false) l ->
  existsb is_close l = false /\ existsb listen_setup l = false.
Proof.
  intros H. split; apply Forall_existsb; (eapply Forall_impl; [|exact H]); cbn; tauto.
Qed.

(** ** The arguments of [main] *)

Section MainStart.

Variable int : string -> exn + Z.

Lemma subscript_some args i a : nth_error args i = Some a -> subscript args i = inr a.
Proof. unfold subscript. intros ->. reflexivity. Qed.

Lemma subscript_inr args i a :
  subscript args i = inr a -> nth_error args i = Some a /\ (i < length args)%nat.
Proof.
  unfold subscript. destruct (nth_error args i) eqn:E; [|discriminate].
  intros H. inversion H; subst. split; [reflexivity|].
  apply nth_error_Some. congruence.
Qed.

Lemma subscript_inl args i e : subscript args i = inl e -> e = IndexError.
Proof. unfold subscript. destruct (nth_error args i); congruence. Qed.

Lemma int_arg_inl args i e :
  int_arg int args i = inl e ->
  e = IndexError \/ exists a, In a args /\ int a = inl e.
Proof.
  unfold int_arg. destruct (subscript args i) as [e'|a] eqn:E.
  - intros H. inversion H; subst. left. eapply subscript_inl. eassumption.
  - intros H. right. exists a. split; [|assumption].
    eapply nth_error_In. apply (subscript_inr _ _ _ E).
Qed.

Lemma int_arg_inr args i z :
  int_arg int args i = inr z ->
  (i < length args)%nat /\ forall a, nth_error args i = Some a -> int a = inr z.
Proof.
  unfold int_arg. destruct (subscript args i) as [e'|a] eqn:E; [discriminate|].
  intros H. destruct (subscript_inr _ _ _ E) as [Ha Hi]. split; [assumption|].
  intros a' Ha'. congruence.
Qed.

Lemma subscript_app args more i :
  (i < length args)%nat -> subscript (args ++ more) i = subscript args i.
Proof. intros H. unfold subscript. rewrite nth_error_app1 by assumption. reflexivity. Qed.

End MainStart.

(** ** The two threads of a connection *)

Section SessionRelay.

Lemma forward_call_other_source source destination s l :
  forallb (forward_call source destination) l = true -> s <> source ->
  received s l = [].
Proof.
  intros H Hs. induction l as [|e l IH]; [reflexivity|].
  cbn in H. apply andb_true_iff in H. destruct H as [He Hl].
  unfold received in *. cbn. rewrite (IH Hl), app_nil_r.
  destruct e as [X c x]. destruct c; try reflexivity. cbn in *.
  destruct x as [x|b]; [reflexivity|].
  apply andb_true_iff in He. destruct He as [He _]. apply Nat.eqb_eq in He. subst s0.
  destruct (Nat.eqb_spec source s); congruence.
Qed.

Lemma forward_call_other_destination source destination s l :
  forallb (forward_call source destination) l = true -> s <> destination ->
  written s l = [].
Proof.
  intros H Hs. induction l as [|e l IH]; [reflexivity|].
  cbn in H. apply andb_true_iff in H. destruct H as [He Hl].
  unfold written in *. cbn. rewrite (IH Hl), app_nil_r.
  destruct e as [X c x]. destruct c; try reflexivity. cbn in *.
  destruct x as [x|u]; [reflexivity|].
  apply andb_true_iff in He. destruct He as [He _]. apply Nat.eqb_eq in He. subst s0.
  destruct (Nat.eqb_spec destination s); congruence.
Qed.

Lemma interleave_flat_map {A B} (f : A -> list B) (l1 l2 l : list A) :
  interleave l1 l2 l ->
  (flat_map f l2 = [] -> flat_map f l = flat_map f l1) /\
  (flat_map f l1 = [] -> flat_map f l = flat_map f l2).
Proof.
  induction 1 as [|a l1 l2 l H [IH1 IH2]|a l1 l2 l H [IH1 IH2]]; cbn.
  - auto.
  - split.
    + intros H2. rewrite (IH1 H2). reflexivity.
    + intros H1. apply app_eq_nil in H1. destruct H1 as [Ha H1].
      rewrite Ha, (IH2 H1). reflexivity.
  - split.
    + intros H2. apply app_eq_nil in H2. destruct H2 as [Ha H2].
      rewrite Ha, (IH1 H2). reflexivity.
    + intros H1. rewrite (IH2 H1). reflexivity.
Qed.

End SessionRelay.

(** ** Text *)

Section Text.

Lemma split_lines_cons s : exists line lines, split_lines s = line :: lines.
Proof.
  induction s as [|c s (line & lines & IH)]; cbn; [eauto|].
  destruct (Ascii.eqb c newline); [eauto|]. rewrite IH. eauto.
Qed.


Lemma split_lines_one_line s : one_line s = true -> split_lines s = [s].
Proof.
  induction s as [|c s IH]; [reflexivity|]. cbn. intros H.
  apply andb_true_iff in H. destruct H as [Hc Hs].
  apply negb_true_iff in Hc. rewrite Hc, (IH Hs). reflexivity.
Qed.

Lemma split_lines_app line s :
  one_line line = true ->
  split_lines (line ++ String newline s) = line :: split_lines s.
Proof.
  induction line as [|c line IH]; cbn [append split_lines one_line].
  - intros _. rewrite Ascii.eqb_refl. reflexivity.
  - intros H. apply andb_true_iff in H. destruct H as [Hc Hs].
    apply negb_true_iff in Hc. rewrite Hc, (IH Hs). reflexivity.
Qed.

(** Splitting the join of lines gives the lines back, when there is at
    least one line and no line holds a newline. *)
Lemma split_join_lines line lines :
  forallb one_line (line :: lines) = true ->
  split_lines (join_lines (line :: lines)) = line :: lines.
Proof.
  unfold join_lines. revert line. induction lines as [|line' lines IH]; intros line H.
  - cbn in *. apply split_lines_one_line. rewrite andb_true_r in H. exact H.
  - cbn [forallb] in H. apply andb_true_iff in H. destruct H as [Hl H].
    cbn [String.concat]. cbn [append]. rewrite (split_lines_app _ _ Hl). f_equal.
    apply IH. exact H.
Qed.

Lemma split_lines_each_one_line s : forallb one_line (split_lines s) = true.
Proof.
  induction s as [|c s IH]; [reflexivity|]. cbn [split_lines].
  destruct (Ascii.eqb c newline) eqn:Hc; [cbn; exact IH|].
  destruct (split_lines_cons s) as (line & lines & E). rewrite E in *.
  cbn in *. rewrite Hc. exact IH.
Qed.

Lemma one_line_app s s' : one_line (s ++ s') = one_line s && one_line s'.
Proof.
  induction s as [|c s IH]; [reflexivity|]. cbn. rewrite IH. apply andb_assoc.
Qed.

Lemma contains_prefix sub s : String.prefix sub s = true -> contains sub s = true.
Proof. destruct s; cbn; intros ->; reflexivity. Qed.

Lemma prefix_app sub s : String.prefix sub (sub ++ s) = true.
Proof. induction sub as [|c sub IH]; cbn; [destruct s; reflexivity|].
  destruct (Ascii.ascii_dec c c); [exact IH|congruence]. Qed.

Lemma contains_app_r sub s s' : contains sub s' = true -> contains sub (s ++ s') = true.
Proof.
  intros H. induction s as [|c s IH]; [exact H|]. cbn [append contains].
  rewrite IH. apply orb_true_r.
Qed.

End Text.

(** ** The script written by [update_expose_enclave_script] *)

Section ExposeEnclave.

Variables secret_arn region : string.

Lemma secret_value_line_dropped : kept_line (secret_value_line secret_arn region) = false.
Proof. reflexivity. Qed.

Lemma secrets_json_line_dropped : kept_line secrets_json_line = false.
Proof. reflexivity. Qed.

(** The first loop drops what the second loop adds, and nothing else of
    its result. *)
Lemma filter_add_secret_lines lines :
  forallb kept_line lines = true ->
  filter kept_line (add_secret_lines secret_arn region lines) = lines.
Proof.
  unfold add_secret_lines. induction lines as [|line lines IH]; [reflexivity|].
  cbn [forallb flat_map]. intros H. apply andb_true_iff in H. destruct H as [Hl H].
  rewrite filter_app, (IH H).
  destruct (contains "# Secrets-block" line); cbn [filter]; rewrite Hl;
    rewrite ?secret_value_line_dropped, ?secrets_json_line_dropped; reflexivity.
Qed.

Lemma forallb_filter {A} (f : A -> bool) l : forallb f (filter f l) = true.
Proof.
  induction l as [|a l IH]; [reflexivity|]. cbn. destruct (f a) eqn:E; [cbn; rewrite E|]; exact IH.
Qed.


Lemma add_secret_lines_one_line lines :
  one_line secret_arn = true -> one_line region = true ->
  forallb one_line lines = true ->
  forallb one_line (add_secret_lines secret_arn region lines) = true.
Proof.
  intros Ha Hr. unfold add_secret_lines.
  induction lines as [|line lines IH]; [reflexivity|].
  cbn [forallb flat_map]. intros H. apply andb_true_iff in H. destruct H as [Hl H].
  rewrite forallb_app, (IH H), andb_true_r.
  destruct (contains "# Secrets-block" line); cbn [forallb]; rewrite Hl; [|reflexivity].
  unfold secret_value_line. rewrite !one_line_app, Ha, Hr. reflexivity.
Qed.

Lemma forallb_filter_other {A} (f g : A -> bool) l :
  forallb f l = true -> forallb f (filter g l) = true.
Proof.
  induction l as [|a l IH]; [reflexivity|]. cbn. intros H.
  apply andb_true_iff in H. destruct H as [Ha H].
  destruct (g a); [cbn; rewrite Ha|]; auto.
Qed.

Lemma add_secret_lines_nil lines :
  add_secret_lines secret_arn region lines = [] -> lines = [].
Proof.
  destruct lines as [|line lines]; [reflexivity|]. unfold add_secret_lines. cbn.
  destruct (contains "# Secrets-block" line); discriminate.
Qed.

(** The kept lines of the text written are the kept lines of the text
    read, but for a text all of whose lines are dropped. *)
Lemma updated_script_kept content :
  one_line secret_arn = true -> one_line region = true ->
  let filtered_lines := filter kept_line (split_lines content) in
  filter kept_line (split_lines (updated_script secret_arn region content))
    = match filtered_lines with [] => [EmptyString] | _ => filtered_lines end.
Proof.
  intros Ha Hr. cbn zeta. unfold updated_script.
  set (filtered_lines := filter kept_line (split_lines content)).
  assert (Hk : forallb kept_line filtered_lines = true) by apply forallb_filter.
  assert (Ho : forallb one_line filtered_lines = true)
    by (apply forallb_filter_other, split_lines_each_one_line).
  pose proof (add_secret_lines_one_line _ Ha Hr Ho) as Hn.
  pose proof (filter_add_secret_lines _ Hk) as Hf.
  destruct (add_secret_lines secret_arn region filtered_lines) as [|line lines] eqn:E.
  - rewrite (add_secret_lines_nil _ E). reflexivity.
  - rewrite (split_join_lines _ _ Hn), Hf.
    destruct filtered_lines; [discriminate|reflexivity].
Qed.

End ExposeEnclave.

Section ExposeEnclaveRuns.


Lemma updated_script_again arn1 region1 arn2 region2 content :
  one_line arn1 = true -> one_line region1 = true ->
  updated_script arn2 region2 (updated_script arn1 region1 content)
    = updated_script arn2 region2 content.
Proof.
  intros Ha Hr. unfold updated_script at 1. cbn zeta.
  rewrite (updated_script_kept arn1 region1 content Ha Hr). cbn zeta.
  unfold updated_script.
  destruct (filter kept_line (split_lines content)); reflexivity.
Qed.

(** In what the second loop gives, a kept line with the marker is
    followed by the two new lines. *)
Lemma add_secret_lines_after_marker secret_arn region lines :
  forallb kept_line lines = true ->
  forall l1 line l2,
    add_secret_lines secret_arn region lines = l1 ++ line :: l2 ->
    kept_line line = true -> contains "# Secrets-block" line = true ->
    exists l2', l2 = secret_value_line secret_arn region :: secrets_json_line :: l2'.
Proof.
  unfold add_secret_lines. induction lines as [|a lines IH]; intros Hk l1 line l2 E Hl Hm.
  - destruct l1; discriminate.
  - cbn [forallb] in Hk. apply andb_true_iff in Hk. destruct Hk as [Ha Hk].
    cbn [flat_map] in E.
    destruct (contains "# Secrets-block" a) eqn:Ma; cbn [app] in E; symmetry in E.
    + apply split_cons in E. destruct E as [(-> & -> & ->)|(l1' & -> & E)]; [eauto|].
      apply split_cons in E. destruct E as [(-> & -> & ->)|(l1'' & -> & E)];
        [rewrite secret_value_line_dropped in Hl; discriminate|].
      apply split_cons in E. destruct E as [(-> & -> & ->)|(l1''' & -> & E)];
        [rewrite secrets_json_line_dropped in Hl; discriminate|].
      eapply IH; eauto.
    + apply split_cons in E. destruct E as [(-> & -> & ->)|(l1' & -> & E)]; [congruence|].
      eapply IH; eauto.
Qed.

Lemma add_secret_lines_each secret_arn region lines :
  forallb kept_line lines = true ->
  forallb (fun line => kept_line line
                       || String.eqb line (secret_value_line secret_arn region)
                       || String.eqb line secrets_json_line)
          (add_secret_lines secret_arn region lines) = true.
Proof.
  unfold add_secret_lines. induction lines as [|a lines IH]; [reflexivity|].
  cbn [forallb flat_map]. intros H. apply andb_true_iff in H. destruct H as [Ha H].
  rewrite forallb_app, (IH H), andb_true_r.
  destruct (contains "# Secrets-block" a); cbn [forallb];
    rewrite Ha, ?String.eqb_refl, ?orb_true_r; reflexivity.
Qed.

End ExposeEnclaveRuns.

(** ** The file read and written in text mode *)

Section TextFile.

Lemma read_text_no_return file : forall after_cr,
  no_return (read_text_from after_cr file) = true.
Proof.
  induction file as [|c file IH]; intros after_cr; [reflexivity|]. cbn [read_text_from].
  destruct (Ascii.eqb c carriage_return) eqn:Ec; [cbn; apply IH|].
  destruct (Ascii.eqb c newline && after_cr); [apply IH|]. cbn. rewrite Ec. apply IH.
Qed.

(** A text without a carriage return is read as it is. *)
Lemma read_text_as_is text : no_return text = true -> read_text text = text.
Proof.
  unfold read_text. induction text as [|c text IH]; [reflexivity|]. cbn.
  intros H. apply andb_true_iff in H. destruct H as [Hc H].
  apply negb_true_iff in Hc. rewrite Hc, andb_false_r, (IH H). reflexivity.
Qed.

Lemma write_text_posix text : write_text posix_linesep text = text.
Proof.
  induction text as [|c text IH]; [reflexivity|]. cbn [write_text]. rewrite IH.
  destruct (Ascii.eqb_spec c newline) as [->|_]; reflexivity.
Qed.

(** A text without a carriage return is read back as it was written,
    whichever of the two line separators the platform has. *)
Lemma read_write_text linesep text :
  linesep = posix_linesep \/ linesep = windows_linesep ->
  no_return text = true ->
  read_text (write_text linesep text) = text.
Proof.
  intros [->| ->] H.
  - rewrite write_text_posix. apply read_text_as_is. exact H.
  - unfold read_text. induction text as [|c text IH]; [reflexivity|].
    cbn [no_return] in H. apply andb_true_iff in H. destruct H as [Hc H].
    apply negb_true_iff in Hc. cbn [write_text].
    destruct (Ascii.eqb_spec c newline) as [->|Hn].
    + cbn. rewrite (IH H). reflexivity.
    + cbn. rewrite Hc. apply Ascii.eqb_neq in Hn. rewrite Hn. cbn. rewrite (IH H).
      reflexivity.
Qed.

Lemma no_return_app s s' : no_return (s ++ s') = no_return s && no_return s'.
Proof.
  induction s as [|c s IH]; [reflexivity|]. cbn. rewrite IH. apply andb_assoc.
Qed.

Lemma split_lines_no_return s :
  no_return s = true -> forallb no_return (split_lines s) = true.
Proof.
  induction s as [|c s IH]; [reflexivity|]. cbn [no_return split_lines]. intros H.
  apply andb_true_iff in H. destruct H as [Hc H]. specialize (IH H).
  destruct (Ascii.eqb c newline); [cbn; exact IH|].
  destruct (split_lines_cons s) as (line & lines & E). rewrite E in *.
  cbn in *. rewrite Hc. exact IH.
Qed.

Lemma join_lines_no_return lines :
  forallb no_return lines = true -> no_return (join_lines lines) = true.
Proof.
  unfold join_lines. induction lines as [|line lines IH]; [reflexivity|].
  cbn [forallb]. intros H. apply andb_true_iff in H. destruct H as [Hl H].
  destruct lines as [|line' lines]; [exact Hl|].
  cbn [String.concat]. rewrite no_return_app, Hl. cbn [append no_return andb].
  cbn [Ascii.eqb Bool.eqb newline carriage_return negb andb]. apply IH. exact H.
Qed.

Lemma add_secret_lines_no_return secret_arn region lines :
  no_return secret_arn = true -> no_return region = true ->
  forallb no_return lines = true ->
  forallb no_return (add_secret_lines secret_arn region lines) = true.
Proof.
  intros Ha Hr. unfold add_secret_lines.
  induction lines as [|line lines IH]; [reflexivity|].
  cbn [forallb flat_map]. intros H. apply andb_true_iff in H. destruct H as [Hl H].
  rewrite forallb_app, (IH H), andb_true_r.
  destruct (contains "# Secrets-block" line); cbn [forallb]; rewrite Hl; [|reflexivity].
  unfold secret_value_line. rewrite !no_return_app, Ha, Hr. reflexivity.
Qed.

(** The text written holds no carriage return when the text read, the
    ARN and the region hold none. *)
Lemma updated_script_no_return secret_arn region content :
  no_return secret_arn = true -> no_return region = true ->
  no_return content = true ->
  no_return (updated_script secret_arn region content) = true.
Proof.
  intros Ha Hr Hc. unfold updated_script. cbn zeta.
  apply join_lines_no_return, add_secret_lines_no_return; [assumption|assumption|].
  apply forallb_filter_other, split_lines_no_return. exact Hc.
Qed.

End TextFile.

(** ** The lines of [generate_user_data] *)

Section UserData.

Lemma add_allow_lines_map user_data_lines endpoints :
  add_allow_lines user_data_lines endpoints = user_data_lines ++ map allow_line endpoints.
Proof.
  unfold add_allow_lines.
  assert (H : forall lines,
            fold_left (fun lines endpoint => lines ++ [allow_line endpoint]) endpoints lines
            = lines ++ map allow_line endpoints).
  { induction endpoints as [|e es IH]; intros lines; cbn; [symmetry; apply app_nil_r|].
    rewrite IH, <- app_assoc. reflexivity. }
  destruct endpoints; [symmetry; apply app_nil_r|apply H].
Qed.

Lemma add_proxy_lines_from user_data_lines endpoints :
  add_proxy_lines user_data_lines endpoints = user_data_lines ++ proxy_lines 8101 endpoints.
Proof.
  unfold add_proxy_lines.
  assert (H : forall lines port,
            fst (fold_left (fun '(lines, port) endpoint =>
                              (lines ++ [proxy_line port endpoint], port + 1))
                           endpoints (lines, port))
            = lines ++ proxy_lines port endpoints).
  { induction endpoints as [|e es IH]; intros lines port; cbn; [symmetry; apply app_nil_r|].
    rewrite IH, <- app_assoc. reflexivity. }
  destruct endpoints; [symmetry; apply app_nil_r|apply H].
Qed.

Lemma proxy_lines_length port endpoints :
  length (proxy_lines port endpoints) = length endpoints.
Proof. revert port. induction endpoints; intros port; cbn; [|rewrite IHendpoints]; reflexivity. Qed.

Lemma proxy_lines_nth port endpoints i endpoint :
  nth_error endpoints i = Some endpoint ->
  nth_error (proxy_lines port endpoints) i = Some (proxy_line (port + Z.of_nat i) endpoint).
Proof.
  revert port i. induction endpoints as [|e es IH]; intros port [|i] H; cbn in H;
    try discriminate.
  - inversion H; subst. cbn. rewrite Z.add_0_r. reflexivity.
  - cbn [proxy_lines nth_error]. rewrite (IH _ _ H). do 2 f_equal. lia.
Qed.

Lemma one_line_uint d : one_line (DecimalString.NilZero.string_of_uint d) = true.
Proof.
  unfold DecimalString.NilZero.string_of_uint. destruct d; try reflexivity;
    cbn; induction d; cbn; auto.
Qed.

End UserData.

Section UserDataLines.

Lemma one_line_str_of_int n : one_line (str_of_int n) = true.
Proof.
  unfold str_of_int, DecimalString.NilZero.string_of_int.
  destruct (Z.to_int n); [apply one_line_uint|]. cbn [one_line].
  rewrite one_line_uint. reflexivity.
Qed.

Lemma proxy_lines_one_line port endpoints :
  forallb one_line endpoints = true ->
  forallb one_line (proxy_lines port endpoints) = true.
Proof.
  revert port. induction endpoints as [|e es IH]; intros port H; [reflexivity|].
  cbn [forallb proxy_lines] in *. apply andb_true_iff in H. destruct H as [He H].
  rewrite (IH _ H), andb_true_r. unfold proxy_line.
  rewrite !one_line_app, one_line_str_of_int, He. reflexivity.
Qed.

Lemma allow_lines_one_line endpoints :
  forallb one_line endpoints = true ->
  forallb one_line (map allow_line endpoints) = true.
Proof.
  induction endpoints as [|e es IH]; intros H; [reflexivity|].
  cbn [forallb map] in *. apply andb_true_iff in H. destruct H as [He H].
  rewrite (IH H), andb_true_r. unfold allow_line.
  rewrite !one_line_app, He. reflexivity.
Qed.

(** The lines of the script, when no endpoint holds a newline. *)
Lemma generate_user_data_lines endpoints :
  forallb one_line endpoints = true ->
  split_lines (generate_user_data endpoints)
    = user_data_head ++ map allow_line endpoints
      ++ user_data_allocator ++ proxy_lines 8101 endpoints.
Proof.
  intros H. unfold generate_user_data. cbn zeta.
  rewrite add_proxy_lines_from, add_allow_lines_map, <- !app_assoc.
  change (user_data_head ++ ?l) with (hd EmptyString user_data_head :: tl user_data_head ++ l).
  apply split_join_lines.
  change (hd EmptyString user_data_head :: tl user_data_head ++ ?l) with (user_data_head ++ l).
  rewrite !forallb_app, allow_lines_one_line, proxy_lines_one_line by assumption.
  reflexivity.
Qed.

End UserDataLines.

(** * The claims *)

(** Claim C1.  In every run of [forward source destination], against
    every environment and after any number of steps:
    - when [recv] is called, the bytes the calls to [sendall] on
      [destination] have written are the bytes the calls to [recv] on
      [source] have returned, in the same order: a chunk that was read is
      written in full before the next read;
    - the call after a [recv] that returned a non-empty chunk is one
      [sendall] of that chunk on [destination], and the call after a
      [sendall] that returned is the next [recv];
    - what has been written is at any time a prefix of what has been read;
    - once the run has returned and no [sendall] has raised, what has been
      written is what has been read;
    - the run does read: two steps bring it to its first [recv];
    - the run does write: after a [recv] that returned a non-empty chunk,
      enough steps bring the run to the [sendall] of that chunk on
      [destination]; if that [sendall] returns, all the bytes read so far
      have then been written, and only then is [recv] called again. *)
Theorem forward_writes_what_it_reads {W} (env : forall X, sockE X -> W -> W * X)
    (fuel : nat) (source destination : sock) (w : W) :
  let r := exec env fuel (forward source destination) w in
  (forall l1 e l2, calls r = l1 ++ e :: l2 -> is_recv e = true ->
     written destination l1 = received source l1) /\
  (forall l1 e l2 c, calls r = l1 ++ e :: l2 ->
     recv_answer e = Some (inr c) -> truthy c = true ->
     forwarded_then source destination c l2 (result r)) /\
  (exists rest, received source (calls r) = written destination (calls r) ++ rest) /\
  (result r <> None -> existsb sendall_raised (calls r) = false ->
     written destination (calls r) = received source (calls r)) /\
  (forall fuel', (2 <= fuel')%nat ->
     exists y rest,
       calls (exec env fuel' (forward source destination) w)
         = Call (Recv source 1024) y :: rest) /\
  (forall l1 c l2,
     calls r = l1 ++ Call (Recv source 1024) (inr c) :: l2 -> truthy c = true ->
     exists fuel' x rest,
       calls (exec env fuel' (forward source destination) w)
         = l1 ++ Call (Recv source 1024) (inr c)
              :: Call (SendAll destination c) x :: rest /\
       (x = inr tt ->
        written destination
          (l1 ++ [Call (Recv source 1024) (inr c); Call (SendAll destination c) x])
          = received source
              (l1 ++ [Call (Recv source 1024) (inr c); Call (SendAll destination c) x]) /\
        exists y rest', rest = Call (Recv source 1024) y :: rest')).
Proof.
  intros r.
  assert (Hlog : forward_log source destination (calls r) (result r))
    by (apply forward_loop_log; reflexivity).
  split; [|split; [|split; [|split; [|split]]]].
  - apply (forward_log_reads_after_writes _ _ _ _ Hlog).
  - apply (forward_log_forwarded_then _ _ _ _ Hlog).
  - apply (forward_log_written_prefix _ _ _ _ Hlog).
  - apply (forward_log_written_all _ _ _ _ Hlog).
  - intros fuel'. apply forward_first_recv.
  - intros l1 c l2. apply forward_after_recv_written.
Qed.

(** A run that reads two chunks and then the end of the stream. *)
Lemma forward_writes_what_it_reads_witness :
  let script := [returns_bytes [Byte.x61; Byte.x62]; returns;
                 returns_bytes [Byte.x63]; returns; returns_bytes []; returns; returns] in
  let r := exec scripted 20 (forward 1%nat 2%nat) script in
  result r <> None /\ existsb sendall_raised (calls r) = false /\
  written 2%nat (calls r) = [Byte.x61; Byte.x62; Byte.x63] /\
  written 2%nat (calls r) = received 1%nat (calls r) /\
  exists fuel' x rest,
    calls (exec scripted fuel' (forward 1%nat 2%nat) script)
      = [Call (Recv 1%nat 1024) (inr [Byte.x61; Byte.x62]);
         Call (SendAll 2%nat [Byte.x61; Byte.x62]) (inr tt)]
        ++ Call (Recv 1%nat 1024) (inr [Byte.x63])
           :: Call (SendAll 2%nat [Byte.x63]) x :: rest.
Proof.
  cbn zeta.
  pose proof (forward_writes_what_it_reads scripted 20 1%nat 2%nat
    [returns_bytes [Byte.x61; Byte.x62]; returns;
     returns_bytes [Byte.x63]; returns; returns_bytes []; returns; returns]) as H.
  cbn zeta in H. destruct H as (_ & _ & _ & H & _ & P).
  assert (H1 : result (exec scripted 20 (forward 1%nat 2%nat)
    [returns_bytes [Byte.x61; Byte.x62]; returns;
     returns_bytes [Byte.x63]; returns; returns_bytes []; returns; returns]) <> None)
    by (vm_compute; discriminate).
  split; [exact H1|]. split; [reflexivity|]. split; [reflexivity|].
  split; [apply H; [exact H1|reflexivity]|].
  destruct (P [Call (Recv 1%nat 1024) (inr [Byte.x61; Byte.x62]);
               Call (SendAll 2%nat [Byte.x61; Byte.x62]) (inr tt)]
              [Byte.x63]
              [Call (SendAll 2%nat [Byte.x63]) (inr tt);
               Call (Recv 1%nat 1024) (inr []);
               Call (Shutdown 1%nat SHUT_RD) (inr tt);
               Call (Shutdown 2%nat SHUT_WR) (inr tt)])
    as (fuel' & x & rest & E & _); [vm_compute; reflexivity|reflexivity|].
  exists fuel', x, rest. exact E.
Defined.

(** Claim C2, amended.  In every run of [forward source destination] in
    which a [recv] has returned no bytes, enough steps bring the run to
    its end, where [forward] returns normally, and from that [recv] on the
    run is one of three:
    - [shutdown] of the read side of [source], then [shutdown] of the
      write side of [destination], both returning; then no [close] has
      been called at all;
    - [shutdown] of the read side of [source] raises: the error is
      printed and both sockets are closed;
    - the first [shutdown] returns and [shutdown] of the write side of
      [destination] raises: the error is printed and both sockets are
      closed. *)
Theorem forward_end_of_stream_half_close {W} (env : forall X, sockE X -> W -> W * X)
    (fuel : nat) (source destination : sock) (w : W) l1 e l2 :
  calls (exec env fuel (forward source destination) w) = l1 ++ e :: l2 ->
  end_of_stream e = true ->
  exists fuel',
    let r := exec env fuel' (forward source destination) w in
    result r = Some returned /\
    ((calls r = l1 ++ [e; Call (Shutdown source SHUT_RD) (inr tt);
                          Call (Shutdown destination SHUT_WR) (inr tt)] /\
      existsb is_close (calls r) = false) \/
     (exists x,
        calls r = l1 ++ [e; Call (Shutdown source SHUT_RD) (inl x);
                         Call (Print (except_message x)) tt;
                         Call (Close source) tt; Call (Close destination) tt]) \/
     (exists x,
        calls r = l1 ++ [e; Call (Shutdown source SHUT_RD) (inr tt);
                         Call (Shutdown destination SHUT_WR) (inl x);
                         Call (Print (except_message x)) tt;
                         Call (Close source) tt; Call (Close destination) tt])).
Proof.
  intros Hn He.
  destruct (forward_after_end_of_stream source destination env fuel w l1 e l2 Hn He)
    as (m & tail & Hc & Hr & Ht & Hcl).
  exists m. cbn zeta. split; [assumption|]. rewrite Hc.
  destruct Ht as [|x|x].
  - left. split; [reflexivity|]. rewrite existsb_app, Hcl.
    destruct e as [X c y]. destruct c; cbn in He; try discriminate. reflexivity.
  - right. left. exists x. reflexivity.
  - right. right. exists x. reflexivity.
Qed.

(** A run that forwards one byte and then reads the end of the stream. *)
Lemma forward_end_of_stream_half_close_witness :
  let script := [returns_bytes [Byte.x61]; returns; returns_bytes []; returns; returns] in
  let e := Call (Recv 1%nat 1024) (inr []) in
  let l1 := [Call (Recv 1%nat 1024) (inr [Byte.x61]);
             Call (SendAll 2%nat [Byte.x61]) (inr tt)] in
  calls (exec scripted 4 (forward 1%nat 2%nat) script) = l1 ++ e :: [] /\
  end_of_stream e = true /\
  exists fuel',
    let r := exec scripted fuel' (forward 1%nat 2%nat) script in
    result r = Some returned /\
    ((calls r = l1 ++ [e; Call (Shutdown 1%nat SHUT_RD) (inr tt);
                          Call (Shutdown 2%nat SHUT_WR) (inr tt)] /\
      existsb is_close (calls r) = false) \/
     (exists x,
        calls r = l1 ++ [e; Call (Shutdown 1%nat SHUT_RD) (inl x);
                         Call (Print (except_message x)) tt;
                         Call (Close 1%nat) tt; Call (Close 2%nat) tt]) \/
     (exists x,
        calls r = l1 ++ [e; Call (Shutdown 1%nat SHUT_RD) (inr tt);
                         Call (Shutdown 2%nat SHUT_WR) (inl x);
                         Call (Print (except_message x)) tt;
                         Call (Close 1%nat) tt; Call (Close 2%nat) tt])).
Proof.
  cbn zeta. split; [reflexivity|]. split; [reflexivity|].
  apply (forward_end_of_stream_half_close scripted 4 1%nat 2%nat
           [returns_bytes [Byte.x61]; returns; returns_bytes []; returns; returns]
           [Call (Recv 1%nat 1024) (inr [Byte.x61]);
            Call (SendAll 2%nat [Byte.x61]) (inr tt)]
           (Call (Recv 1%nat 1024) (inr [])) []);
    reflexivity.
Defined.

(** Claim C2 as stated fails: [recv] returns no bytes, [shutdown] of the
    read side of the source raises [OSError], and [forward] closes both
    sockets without having shut the write side of the destination down. *)
Lemma forward_end_of_stream_may_close :
  let r := exec scripted 10 (forward 1%nat 2%nat)
             [returns_bytes []; raises (OSError 107)] in
  calls r = [Call (Recv 1%nat 1024) (inr []);
             Call (Shutdown 1%nat SHUT_RD) (inl (OSError 107));
             Call (Print (error_unexpected_socket_exception (OSError 107))) tt;
             Call (Close 1%nat) tt; Call (Close 2%nat) tt] /\
  result r = Some returned /\
  existsb (closes 1%nat) (calls r) = true /\
  existsb (closes 2%nat) (calls r) = true /\
  existsb (shuts 2%nat SHUT_WR) (calls r) = false.
Proof. repeat split. Qed.

(** Claim C3.  In every run of [forward source destination] in which a
    call to [recv] or to [sendall] has raised [x], whatever exception [x]
    is, enough steps bring the run to its end: after the call that raised
    come the report of [x], [close] on [source] and [close] on
    [destination], and nothing else; [forward] then returns, and the whole
    run holds no call to [shutdown]. *)
Theorem forward_io_error_closes_both {W} (env : forall X, sockE X -> W -> W * X)
    (fuel : nat) (source destination : sock) (w : W) l1 e l2 x :
  calls (exec env fuel (forward source destination) w) = l1 ++ e :: l2 ->
  io_error e = Some x ->
  exists fuel',
    let r := exec env fuel' (forward source destination) w in
    calls r = l1 ++ [e; Call (Print (except_message x)) tt;
                     Call (Close source) tt; Call (Close destination) tt] /\
    result r = Some returned /\
    existsb is_shutdown (calls r) = false.
Proof. apply forward_after_io_error. Qed.

(** A run in which [sendall] is reset by the peer. *)
Lemma forward_io_error_closes_both_witness :
  let script := [returns_bytes [Byte.x61]; raises (ConnectionResetError 104)] in
  calls (exec scripted 2 (forward 1%nat 2%nat) script)
    = [Call (Recv 1%nat 1024) (inr [Byte.x61])]
      ++ Call (SendAll 2%nat [Byte.x61]) (inl (ConnectionResetError 104)) :: [] /\
  io_error (Call (SendAll 2%nat [Byte.x61]) (inl (ConnectionResetError 104)))
    = Some (ConnectionResetError 104) /\
  exists fuel',
    let r := exec scripted fuel' (forward 1%nat 2%nat) script in
    calls r = [Call (Recv 1%nat 1024) (inr [Byte.x61])]
              ++ [Call (SendAll 2%nat [Byte.x61]) (inl (ConnectionResetError 104));
                  Call (Print (except_message (ConnectionResetError 104))) tt;
                  Call (Close 1%nat) tt; Call (Close 2%nat) tt] /\
    result r = Some returned /\
    existsb is_shutdown (calls r) = false.
Proof.
  cbn zeta. split; [reflexivity|]. split; [reflexivity|].
  apply (forward_io_error_closes_both scripted 2 1%nat 2%nat
           [returns_bytes [Byte.x61]; raises (ConnectionResetError 104)]
           [Call (Recv 1%nat 1024) (inr [Byte.x61])]
           (Call (SendAll 2%nat [Byte.x61]) (inl (ConnectionResetError 104))) []);
    reflexivity.
Defined.

(** Claim C4, amended.  In every run of [server] in which [bind] on the
    socket [s] has raised [x], [server] does not end, neither by returning
    nor by raising to its caller, however many steps it is given; and
    enough steps bring it through the report of [x], a sleep of 5, the
    [close] of [s] and the call that makes a new listening socket. *)
Theorem server_bind_failure_is_retried {W} (env : forall X, sockE X -> W -> W * X)
    (fuel : nat) (local_ip : string) (local_port remote_cid remote_port : Z) (w : W)
    l1 e l2 s x :
  calls (exec env fuel (server local_ip local_port remote_cid remote_port) w)
    = l1 ++ e :: l2 ->
  bind_error e = Some (s, x) ->
  (forall fuel',
     result (exec env fuel' (server local_ip local_port remote_cid remote_port) w) = None) /\
  exists fuel' y rest,
    calls (exec env fuel' (server local_ip local_port remote_cid remote_port) w)
      = l1 ++ [e; Call (Print (error_server x)) tt; Call (Sleep 5) tt;
               Call (Close s) tt; Call (Socket AF_INET) y] ++ rest.
Proof.
  intros Hn He. split; [intros fuel'; apply server_never_returns|].
  destruct (bind_error_listen e s x He) as [Hx Hs].
  destruct (server_after_listen_error local_ip local_port remote_cid remote_port env
              fuel w l1 e l2 x Hn Hx) as (m & closing & y & rest & [_ Hc] & Hm).
  rewrite (Hc s Hs) in Hm. exists m, y, rest. exact Hm.
Qed.

(** A run in which the address is in use at the first [bind]. *)
Lemma server_bind_failure_is_retried_witness :
  let script := [returns_sock 7%nat; returns; raises (OSError 98); returns_sock 8%nat] in
  let l1 := [Call (Socket AF_INET) (inr 7%nat); Call (SetSockOpt 7%nat) (inr tt)] in
  let e := Call (Bind 7%nat "127.0.0.1" 9000) (inl (OSError 98)) in
  calls (exec scripted 3 (server "127.0.0.1" 9000 3 9001) script) = l1 ++ e :: [] /\
  bind_error e = Some (7%nat, OSError 98) /\
  (forall fuel',
     result (exec scripted fuel' (server "127.0.0.1" 9000 3 9001) script) = None) /\
  exists fuel' y rest,
    calls (exec scripted fuel' (server "127.0.0.1" 9000 3 9001) script)
      = l1 ++ [e; Call (Print (error_server (OSError 98))) tt; Call (Sleep 5) tt;
               Call (Close 7%nat) tt; Call (Socket AF_INET) y] ++ rest.
Proof.
  cbn zeta. split; [reflexivity|]. split; [reflexivity|].
  apply (server_bind_failure_is_retried scripted 3 "127.0.0.1" 9000 3 9001
           [returns_sock 7%nat; returns; raises (OSError 98); returns_sock 8%nat]
           [Call (Socket AF_INET) (inr 7%nat); Call (SetSockOpt 7%nat) (inr tt)]
           (Call (Bind 7%nat "127.0.0.1" 9000) (inl (OSError 98))) []);
    reflexivity.
Defined.

(** Claim C4 as stated fails: [bind] raises [OSError] and [server],
    instead of signalling it to its caller, reports it, sleeps, closes the
    socket and makes a new one; it never ends. *)
Lemma server_bind_failure_not_signalled :
  let script := [returns_sock 7%nat; returns; raises (OSError 98); returns_sock 8%nat] in
  let r := exec scripted 8 (server "127.0.0.1" 9000 3 9001) script in
  calls r = [Call (Socket AF_INET) (inr 7%nat); Call (SetSockOpt 7%nat) (inr tt);
             Call (Bind 7%nat "127.0.0.1" 9000) (inl (OSError 98));
             Call (Print (error_server (OSError 98))) tt;
             Call (Sleep 5) tt; Call (Close 7%nat) tt;
             Call (Socket AF_INET) (inr 8%nat)] /\
  result r = None /\
  forall fuel, result (exec scripted fuel (server "127.0.0.1" 9000 3 9001) script) = None.
Proof.
  cbn zeta. split; [reflexivity|]. split; [reflexivity|].
  intros fuel. apply server_never_returns.
Qed.

(** Claim C5, the code at the failing input: [accept] gives the client
    socket 9 and [connect] to the peer raises.  The accept loop reports the
    error, sleeps 1 and calls [accept] again, and it has closed neither
    the client socket nor any other. *)
Theorem server_connect_failure_leaves_client_open :
  let script := [returns_sock 8%nat; returns; returns; returns;
                 returns_sock 9%nat; returns_sock 10%nat; raises (OSError 111);
                 returns_sock 11%nat] in
  let r := exec scripted 13 (server "127.0.0.1" 9000 3 9001) script in
  calls r = [Call (Socket AF_INET) (inr 8%nat); Call (SetSockOpt 8%nat) (inr tt);
             Call (Bind 8%nat "127.0.0.1" 9000) (inr tt);
             Call (Listen 8%nat 5) (inr tt);
             Call (Print (info_listening "127.0.0.1" 9000)) tt;
             Call (Accept 8%nat) (inr (9%nat, ("10.0.0.1"%string, 40000)));
             Call (Print (info_accepted ("10.0.0.1"%string, 40000))) tt;
             Call (Socket AF_VSOCK) (inr 10%nat);
             Call (Connect 10%nat 3 9001) (inl (OSError 111));
             Call (Print (error_handling_connection (OSError 111))) tt;
             Call (Sleep 1) tt;
             Call (Accept 8%nat) (inr (11%nat, ("10.0.0.1"%string, 40000)))] /\
  existsb (closes 9%nat) (calls r) = false /\
  existsb is_close (calls r) = false.
Proof. cbn zeta. repeat split. Qed.




(** Claim C7, amended.  Take the two threads [server] starts for an
    accepted connection, each run against an environment of its own (what
    the other thread and the scheduler do to the two sockets is part of
    that environment), and let both have returned.  Then in every
    interleaving of their calls either both sockets have been closed, or
    no socket has been closed and each of the two has been shut down for
    reading and for writing. *)
Theorem session_sockets_closed_or_shut_down {W1 W2}
    (env1 : forall X, sockE X -> W1 -> W1 * X) (env2 : forall X, sockE X -> W2 -> W2 * X)
    (fuel1 fuel2 : nat) (client_socket server_socket : sock) (w1 : W1) (w2 : W2) :
  let outgoing := exec env1 fuel1
                    (thread_code (target_forward client_socket server_socket)) w1 in
  let incoming := exec env2 fuel2
                    (thread_code (target_forward server_socket client_socket)) w2 in
  result outgoing <> None -> result incoming <> None ->
  forall l, interleave (calls outgoing) (calls incoming) l ->
    (existsb (closes client_socket) l = true /\
     existsb (closes server_socket) l = true) \/
    (existsb is_close l = false /\
     existsb (shuts client_socket SHUT_RD) l = true /\
     existsb (shuts client_socket SHUT_WR) l = true /\
     existsb (shuts server_socket SHUT_RD) l = true /\
     existsb (shuts server_socket SHUT_WR) l = true).
Proof.
  cbn zeta. intros H1 H2 l Hl. cbn [thread_code] in *.
  pose proof (forward_loop_log client_socket server_socket env1 fuel1 [Byte.x20] w1 eq_refl) as L1.
  pose proof (forward_loop_log server_socket client_socket env2 fuel2 [Byte.x20] w2 eq_refl) as L2.
  apply forward_log_end in L1; [|assumption]. apply forward_log_end in L2; [|assumption].
  rewrite !(interleave_existsb _ _ _ _ Hl).
  unfold forward in *.
  destruct L1 as [[A1 B1]|(A1 & B1 & C1)], L2 as [[A2 B2]|(A2 & B2 & C2)];
    rewrite ?A1, ?B1, ?A2, ?B2, ?C1, ?C2, ?orb_true_r; cbn; auto.
  right. auto.
Qed.

(** A session whose client ends its stream while the peer resets the
    connection. *)
Lemma session_sockets_closed_or_shut_down_witness :
  let outgoing := exec scripted 10 (thread_code (target_forward 1%nat 2%nat))
                    [returns_bytes []; returns; returns] in
  let incoming := exec scripted 10 (thread_code (target_forward 2%nat 1%nat))
                    [raises (ConnectionResetError 104)] in
  let l := calls outgoing ++ calls incoming in
  result outgoing <> None /\ result incoming <> None /\
  interleave (calls outgoing) (calls incoming) l /\
  ((existsb (closes 1%nat) l = true /\ existsb (closes 2%nat) l = true) \/
   (existsb is_close l = false /\
    existsb (shuts 1%nat SHUT_RD) l = true /\ existsb (shuts 1%nat SHUT_WR) l = true /\
    existsb (shuts 2%nat SHUT_RD) l = true /\ existsb (shuts 2%nat SHUT_WR) l = true)).
Proof.
  cbn zeta.
  assert (H1 : result (exec scripted 10 (thread_code (target_forward 1%nat 2%nat))
                 [returns_bytes []; returns; returns]) <> None) by (vm_compute; discriminate).
  assert (H2 : result (exec scripted 10 (thread_code (target_forward 2%nat 1%nat))
                 [raises (ConnectionResetError 104)]) <> None) by (vm_compute; discriminate).
  assert (H3 : interleave
                 (calls (exec scripted 10 (thread_code (target_forward 1%nat 2%nat))
                    [returns_bytes []; returns; returns]))
                 (calls (exec scripted 10 (thread_code (target_forward 2%nat 1%nat))
                    [raises (ConnectionResetError 104)]))
                 (calls (exec scripted 10 (thread_code (target_forward 1%nat 2%nat))
                    [returns_bytes []; returns; returns])
                  ++ calls (exec scripted 10 (thread_code (target_forward 2%nat 1%nat))
                    [raises (ConnectionResetError 104)])))
    by (cbn; repeat constructor).
  split; [exact H1|]. split; [exact H2|]. split; [exact H3|].
  exact (session_sockets_closed_or_shut_down scripted scripted 10 10 1%nat 2%nat
           [returns_bytes []; returns; returns] [raises (ConnectionResetError 104)]
           H1 H2 _ H3).
Defined.

(** Claim C7 as stated fails: both directions read the end of the
    stream, both threads return, and neither socket has been closed. *)
Lemma session_may_end_unclosed :
  let outgoing := exec scripted 10 (thread_code (target_forward 1%nat 2%nat))
                    [returns_bytes []; returns; returns] in
  let incoming := exec scripted 10 (thread_code (target_forward 2%nat 1%nat))
                    [returns_bytes []; returns; returns] in
  result outgoing = Some returned /\ result incoming = Some returned /\
  interleave (calls outgoing) (calls incoming) (calls outgoing ++ calls incoming) /\
  existsb (closes 1%nat) (calls outgoing ++ calls incoming) = false /\
  existsb (closes 2%nat) (calls outgoing ++ calls incoming) = false.
Proof.
  cbn zeta. repeat split. cbn. repeat constructor.
Qed.

(** Claim C8.  In every run of [forward source destination]:
    - if [forward] has returned, a [recv] has returned no bytes or a call
      has raised;
    - after a [recv] that returned exactly 1024 bytes, enough steps bring
      the run to the [sendall] of these bytes on [destination] and, if it
      returns, to the next [recv] on [source]. *)
Theorem forward_stops_only_at_end_or_error {W} (env : forall X, sockE X -> W -> W * X)
    (fuel : nat) (source destination : sock) (w : W) :
  let r := exec env fuel (forward source destination) w in
  (result r <> None -> existsb stops (calls r) = true) /\
  (forall l1 c l2,
     calls r = l1 ++ Call (Recv source 1024) (inr c) :: l2 ->
     length c = 1024%nat ->
     exists fuel' x rest,
       calls (exec env fuel' (forward source destination) w)
         = l1 ++ Call (Recv source 1024) (inr c)
              :: Call (SendAll destination c) x :: rest /\
       (x = inr tt -> exists y rest', rest = Call (Recv source 1024) y :: rest')).
Proof.
  cbn zeta. split.
  - apply forward_log_stops with (source := source) (destination := destination).
    apply forward_loop_log. reflexivity.
  - intros l1 c l2 H Hc. apply (forward_after_recv source destination env fuel w l1 c l2 H).
    destruct c; [discriminate|reflexivity].
Qed.

(** A run whose first [recv] fills the buffer of 1024 bytes. *)
Lemma forward_stops_only_at_end_or_error_witness :
  let chunk := repeat Byte.x00 1024 in
  let script := [returns_bytes chunk; returns; returns_bytes []; returns; returns] in
  calls (exec scripted 1 (forward 1%nat 2%nat) script)
    = [] ++ Call (Recv 1%nat 1024) (inr chunk) :: [] /\
  length chunk = 1024%nat /\
  exists fuel' x rest,
    calls (exec scripted fuel' (forward 1%nat 2%nat) script)
      = [] ++ Call (Recv 1%nat 1024) (inr chunk)
           :: Call (SendAll 2%nat chunk) x :: rest /\
    (x = inr tt -> exists y rest', rest = Call (Recv 1%nat 1024) y :: rest').
Proof.
  cbn zeta. split; [reflexivity|]. split; [apply repeat_length|].
  apply (proj2 (forward_stops_only_at_end_or_error scripted 1 1%nat 2%nat
           [returns_bytes (repeat Byte.x00 1024); returns; returns_bytes []; returns; returns])
           [] (repeat Byte.x00 1024) []);
    [reflexivity|apply repeat_length].
Defined.

(** Claim C9, amended.  In every run of [server]:
    - no call to [recv], [sendall] or [shutdown] is made: the bytes of a
      connection are moved by the threads only;
    - after each [accept], enough steps bring the run through one whole
      turn of the accept loop, as [accept_turn] lists them (so the VSOCK
      socket is made and connected by [server] itself, before the two
      threads are started), and to the next [accept] on the same
      listening socket. *)
Theorem server_connects_then_hands_over {W} (env : forall X, sockE X -> W -> W * X)
    (fuel : nat) (local_ip : string) (local_port remote_cid remote_port : Z) (w : W) :
  let r := exec env fuel (server local_ip local_port remote_cid remote_port) w in
  existsb relay_io (calls r) = false /\
  (forall l1 e l2, calls r = l1 ++ e :: l2 -> is_accept e = true ->
     exists fuel' dock_socket t y rest,
       accept_turn remote_cid remote_port dock_socket (e :: t) /\
       calls (exec env fuel' (server local_ip local_port remote_cid remote_port) w)
         = l1 ++ e :: t ++ Call (Accept dock_socket) y :: rest).
Proof.
  cbn zeta. split.
  - pose proof (proj1 (server_loop_log local_ip local_port remote_cid remote_port env fuel None w))
      as Hlog.
    apply server_log_quiet in Hlog.
    fold (server local_ip local_port remote_cid remote_port) in Hlog.
    induction Hlog as [|a l Ha Hl IH]; [reflexivity|]. cbn. rewrite Ha, IH. reflexivity.
  - intros l1 e l2 Hn He. eapply server_after_accept; eassumption.
Qed.

(** A run that accepts one connection. *)
Lemma server_connects_then_hands_over_witness :
  let script := [returns_sock 8%nat; returns; returns; returns; returns_sock 9%nat] in
  let l1 := [Call (Socket AF_INET) (inr 8%nat); Call (SetSockOpt 8%nat) (inr tt);
             Call (Bind 8%nat "127.0.0.1" 9000) (inr tt);
             Call (Listen 8%nat 5) (inr tt);
             Call (Print (info_listening "127.0.0.1" 9000)) tt] in
  let e := Call (Accept 8%nat) (inr (9%nat, ("10.0.0.1"%string, 40000))) in
  calls (exec scripted 6 (server "127.0.0.1" 9000 3 9001) script) = l1 ++ e :: [] /\
  is_accept e = true /\
  exists fuel' dock_socket t y rest,
    accept_turn 3 9001 dock_socket (e :: t) /\
    calls (exec scripted fuel' (server "127.0.0.1" 9000 3 9001) script)
      = l1 ++ e :: t ++ Call (Accept dock_socket) y :: rest.
Proof.
  cbn zeta. split; [reflexivity|]. split; [reflexivity|].
  apply (proj2 (server_connects_then_hands_over scripted 6 "127.0.0.1" 9000 3 9001
           [returns_sock 8%nat; returns; returns; returns; returns_sock 9%nat])
           [Call (Socket AF_INET) (inr 8%nat); Call (SetSockOpt 8%nat) (inr tt);
            Call (Bind 8%nat "127.0.0.1" 9000) (inr tt);
            Call (Listen 8%nat 5) (inr tt);
            Call (Print (info_listening "127.0.0.1" 9000)) tt]
           (Call (Accept 8%nat) (inr (9%nat, ("10.0.0.1"%string, 40000)))) []);
    reflexivity.
Defined.

(** Claim C9 as stated fails: between an [accept] and the next one
    [server] itself waits for [connect] to the peer. *)
Lemma server_connects_before_next_accept :
  let script := [returns_sock 8%nat; returns; returns; returns;
                 returns_sock 9%nat; returns_sock 10%nat; returns; returns; returns;
                 returns_sock 11%nat] in
  let r := exec scripted 13 (server "127.0.0.1" 9000 3 9001) script in
  calls r = [Call (Socket AF_INET) (inr 8%nat); Call (SetSockOpt 8%nat) (inr tt);
             Call (Bind 8%nat "127.0.0.1" 9000) (inr tt);
             Call (Listen 8%nat 5) (inr tt);
             Call (Print (info_listening "127.0.0.1" 9000)) tt;
             Call (Accept 8%nat) (inr (9%nat, ("10.0.0.1"%string, 40000)));
             Call (Print (info_accepted ("10.0.0.1"%string, 40000))) tt;
             Call (Socket AF_VSOCK) (inr 10%nat);
             Call (Connect 10%nat 3 9001) (inr tt);
             Call (ThreadStart (target_forward 9%nat 10%nat)) (inr tt);
             Call (ThreadStart (target_forward 10%nat 9%nat)) (inr tt);
             Call (Accept 8%nat) (inr (11%nat, ("10.0.0.1"%string, 40000)))] /\
  existsb is_connect (calls r) = true.
Proof. cbn zeta. repeat split. Qed.

(** Claim C10.  Let the four arguments be there and parse, and let the
    start of the thread return.  Then, whatever the environment does,
    - [main] never returns: after any number of steps it has started the
      thread, printed its line and since then only slept 60 seconds at a
      time, the more often the more steps it was given;
    - the thread, which runs [server], never returns either, and keeps
      making calls. *)
Theorem main_never_returns {W} (int : string -> exn + Z)
    (env : forall X, sockE X -> W -> W * X) (args : list string)
    (local_ip : string) (local_port remote_cid remote_port : Z) (w : W) :
  subscript args 0 = inr local_ip ->
  int_arg int args 1 = inr local_port ->
  int_arg int args 2 = inr remote_cid ->
  int_arg int args 3 = inr remote_port ->
  snd (env _ (ThreadStart (target_server local_ip local_port remote_cid remote_port)) w)
    = inr tt ->
  (forall fuel,
     let r := exec env fuel (main int args) w in
     result r = None /\
     exists k,
       (fuel <= 2 * k + 2)%nat /\
       (2 <= fuel ->
        calls r =
          Call (ThreadStart (target_server local_ip local_port remote_cid remote_port))
               (inr tt)
          :: Call (Print (starting_forwarder local_ip local_port remote_cid remote_port)) tt
          :: repeat (Call (Sleep 60) tt) k)%nat) /\
  (forall W' (env' : forall X, sockE X -> W' -> W' * X) fuel w',
     let r := exec env' fuel
                (thread_code (target_server local_ip local_port remote_cid remote_port)) w' in
     result r = None /\ (fuel <= 2 * length (calls r))%nat).
Proof.
  intros H0 H1 H2 H3 Hs. split.
  - intros fuel. apply main_run; assumption.
  - intros W' env' fuel w'. cbn [thread_code]. split.
    + apply server_never_returns.
    + apply server_steps.
Qed.

(** [main] on the arguments 127.0.0.1 9000 3 9001. *)
Lemma main_never_returns_witness :
  let args := ["127.0.0.1"; "9000"; "3"; "9001"]%string in
  subscript args 0 = inr "127.0.0.1"%string /\
  int_arg example_int args 1 = inr 9000 /\
  int_arg example_int args 2 = inr 3 /\
  int_arg example_int args 3 = inr 9001 /\
  snd (scripted _ (ThreadStart (target_server "127.0.0.1" 9000 3 9001)) [returns])
    = inr tt /\
  result (exec scripted 100 (main example_int args) [returns]) = None /\
  result (exec scripted 100 (thread_code (target_server "127.0.0.1" 9000 3 9001))
            [raises (OSError 98)]) = None.
Proof.
  cbn zeta.
  pose proof (main_never_returns example_int scripted
                ["127.0.0.1"; "9000"; "3"; "9001"]%string "127.0.0.1" 9000 3 9001
                [returns] eq_refl eq_refl eq_refl eq_refl eq_refl) as [Hmain Hserver].
  do 5 (split; [reflexivity|]). split.
  - apply (Hmain 100%nat).
  - apply (Hserver _ scripted 100%nat [raises (OSError 98)]).
Defined.

(** * Further properties of the forwarder *)

(** Extra X1.  Every call a run of [forward source destination] makes is
    one of: [recv] of at most 1024 bytes on [source], [sendall] of a
    chunk that is not empty on [destination], [shutdown] of the read side
    of [source], [shutdown] of the write side of [destination], [close] on
    one of the two sockets, and the line of an [except] clause.  So it
    never reads from [destination], never writes to [source], and makes,
    binds or connects no socket. *)
Theorem forward_uses_each_socket_one_way {W} (env : forall X, sockE X -> W -> W * X)
    (fuel : nat) (source destination : sock) (w : W) :
  forallb (forward_call source destination)
          (calls (exec env fuel (forward source destination) w)) = true.
Proof.
  apply forward_log_forward_call with (r := result (exec env fuel (forward source destination) w)).
  apply forward_loop_log. reflexivity.
Qed.

(** Extra X2.  In every run of [forward source destination]:
    - [forward] never raises to its caller, whatever its calls raise;
    - at most one of its calls raises;
    - as long as no call has raised it closes no socket and prints
      nothing;
    - after a [close] it calls nothing but [close]: a socket is never
      used once [forward] has closed it. *)
Theorem forward_catches_every_exception {W} (env : forall X, sockE X -> W -> W * X)
    (fuel : nat) (source destination : sock) (w : W) :
  let r := exec env fuel (forward source destination) w in
  (forall x, result r <> Some (inl x)) /\
  (length (filter has_raised (calls r)) <= 1)%nat /\
  (existsb has_raised (calls r) = false ->
   existsb is_close (calls r) = false /\ existsb is_print (calls r) = false) /\
  (forall l1 e l2, calls r = l1 ++ e :: l2 -> is_close e = true ->
     forallb is_close l2 = true).
Proof.
  cbn zeta. apply forward_log_errors with (source := source) (destination := destination).
  apply forward_loop_log. reflexivity.
Qed.

(** Extra X3.  Every call a run of
    [server local_ip local_port remote_cid remote_port] makes keeps to its
    arguments: each [bind] is to [(local_ip, local_port)], each [listen]
    has a backlog of 5, each [connect] is to [(remote_cid, remote_port)],
    each sleep is of 1 or of 5 seconds, and each thread it starts runs
    [forward]. *)
Theorem server_keeps_to_its_endpoints {W} (env : forall X, sockE X -> W -> W * X)
    (fuel : nat) (local_ip : string) (local_port remote_cid remote_port : Z) (w : W) :
  forallb (server_call local_ip local_port remote_cid remote_port)
          (calls (exec env fuel (server local_ip local_port remote_cid remote_port) w)) = true.
Proof.
  eapply server_log_server_call.
  apply (server_loop_log local_ip local_port remote_cid remote_port env fuel None w).
Qed.

(** Extra X4.  In every run of [server], when [accept] is called on a
    socket [s], [s] is a socket that [server] made, on which [setsockopt],
    [bind] to [(local_ip, local_port)] and [listen] with a backlog of 5
    have returned, and since then [server] has closed no socket and has
    set no other listening socket up. *)
Theorem server_accepts_on_listening_socket {W} (env : forall X, sockE X -> W -> W * X)
    (fuel : nat) (local_ip : string) (local_port remote_cid remote_port : Z) (w : W)
    l1 s y l2 :
  calls (exec env fuel (server local_ip local_port remote_cid remote_port) w)
    = l1 ++ Call (Accept s) y :: l2 ->
  exists l0 mid,
    l1 = l0 ++ listening_calls local_ip local_port s ++ mid /\
    existsb is_close mid = false /\ existsb listen_setup mid = false.
Proof.
  intros E.
  pose proof (proj1 (server_loop_log local_ip local_port remote_cid remote_port env fuel None w))
    as Hlog.
  destruct (server_log_accept_socket _ _ _ _ _ _ Hlog _ _ _ _ E) as (l0 & mid & -> & Hmid).
  exists l0, mid. split; [reflexivity|]. apply serving_existsb. assumption.
Qed.

(** A run whose first [accept] raises and is tried again. *)
Lemma server_accepts_on_listening_socket_witness :
  let script := [returns_sock 8%nat; returns; returns; returns; raises (OSError 24);
                 returns_sock 9%nat] in
  let backoff := [Call (Print (error_handling_connection (OSError 24))) tt;
                  Call (Sleep 1) tt] in
  calls (exec scripted 10 (server "127.0.0.1" 9000 3 9001) script)
    = (listening_calls "127.0.0.1" 9000 8%nat
         ++ Call (Accept 8%nat) (inl (OSError 24)) :: backoff)
      ++ Call (Accept 8%nat) (inr (9%nat, ("10.0.0.1"%string, 40000))) :: [] /\
  exists l0 mid,
    listening_calls "127.0.0.1" 9000 8%nat
      ++ Call (Accept 8%nat) (inl (OSError 24)) :: backoff
    = l0 ++ listening_calls "127.0.0.1" 9000 8%nat ++ mid /\
    existsb is_close mid = false /\ existsb listen_setup mid = false.
Proof.
  cbn zeta. split; [vm_compute; reflexivity|].
  apply (server_accepts_on_listening_socket scripted 10 "127.0.0.1" 9000 3 9001
           [returns_sock 8%nat; returns; returns; returns; raises (OSError 24);
            returns_sock 9%nat]
           (listening_calls "127.0.0.1" 9000 8%nat
              ++ [Call (Accept 8%nat) (inl (OSError 24));
                  Call (Print (error_handling_connection (OSError 24))) tt;
                  Call (Sleep 1) tt])
           8%nat (inr (9%nat, ("10.0.0.1"%string, 40000))) []).
  vm_compute. reflexivity.
Defined.

(** Extra X5.  In every run of [server], once a [listen] has returned,
    [server] closes no socket and sets no listening socket up any more,
    whatever raises afterwards: neither the sockets it accepts nor the
    VSOCK sockets it makes are ever closed by [server]. *)
Theorem server_stays_in_accept_loop {W} (env : forall X, sockE X -> W -> W * X)
    (fuel : nat) (local_ip : string) (local_port remote_cid remote_port : Z) (w : W)
    l1 e l2 :
  calls (exec env fuel (server local_ip local_port remote_cid remote_port) w)
    = l1 ++ e :: l2 ->
  listen_returned e = true ->
  existsb is_close l2 = false /\ existsb listen_setup l2 = false.
Proof.
  intros E He.
  pose proof (proj1 (server_loop_log local_ip local_port remote_cid remote_port env fuel None w))
    as Hlog.
  apply serving_existsb. eapply server_log_listening; eassumption.
Qed.

(** A run in which [accept] raises, and then [connect]. *)
Lemma server_stays_in_accept_loop_witness :
  let script := [returns_sock 8%nat; returns; returns; returns;
                 raises (OSError 24);
                 returns_sock 10%nat; returns_sock 11%nat; raises (OSError 111)] in
  let l2 := [Call (Print (info_listening "127.0.0.1" 9000)) tt;
             Call (Accept 8%nat) (inl (OSError 24));
             Call (Print (error_handling_connection (OSError 24))) tt;
             Call (Sleep 1) tt;
             Call (Accept 8%nat) (inr (10%nat, ("10.0.0.1"%string, 40000)));
             Call (Print (info_accepted ("10.0.0.1"%string, 40000))) tt;
             Call (Socket AF_VSOCK) (inr 11%nat);
             Call (Connect 11%nat 3 9001) (inl (OSError 111));
             Call (Print (error_handling_connection (OSError 111))) tt;
             Call (Sleep 1) tt] in
  calls (exec scripted 16 (server "127.0.0.1" 9000 3 9001) script)
    = [Call (Socket AF_INET) (inr 8%nat); Call (SetSockOpt 8%nat) (inr tt);
       Call (Bind 8%nat "127.0.0.1" 9000) (inr tt)]
      ++ Call (Listen 8%nat 5) (inr tt) :: l2 /\
  existsb is_close l2 = false /\ existsb listen_setup l2 = false.
Proof.
  cbn zeta. split; [vm_compute; reflexivity|].
  apply (server_stays_in_accept_loop scripted 16 "127.0.0.1" 9000 3 9001
           [returns_sock 8%nat; returns; returns; returns;
            raises (OSError 24);
            returns_sock 10%nat; returns_sock 11%nat; raises (OSError 111)]
           [Call (Socket AF_INET) (inr 8%nat); Call (SetSockOpt 8%nat) (inr tt);
            Call (Bind 8%nat "127.0.0.1" 9000) (inr tt)]
           (Call (Listen 8%nat 5) (inr tt)));
    vm_compute; reflexivity.
Defined.

(** Extra X6.  In every run of [server], every [close] is the one of the
    outer [except] clause: it comes right after the report of an error of
    the server and a sleep of 5, and it is called on the socket the last
    successful [socket.socket(AF_INET)] returned, the one [dock_socket]
    is bound to. *)
Theorem server_closes_only_its_listening_socket {W}
    (env : forall X, sockE X -> W -> W * X)
    (fuel : nat) (local_ip : string) (local_port remote_cid remote_port : Z) (w : W)
    l1 s l2 :
  calls (exec env fuel (server local_ip local_port remote_cid remote_port) w)
    = l1 ++ Call (Close s) tt :: l2 ->
  dock_socket_after None l1 = Some s /\
  exists l0 x, l1 = l0 ++ [Call (Print (error_server x)) tt; Call (Sleep 5) tt].
Proof.
  intros E.
  pose proof (proj1 (server_loop_log local_ip local_port remote_cid remote_port env fuel None w))
    as Hlog.
  apply (server_log_close _ _ _ _ _ _ Hlog _ _ _ E eq_refl).
Qed.

(** A run in which [listen] raises. *)
Lemma server_closes_only_its_listening_socket_witness :
  let script := [returns_sock 8%nat; returns; returns; raises (OSError 98)] in
  let l1 := [Call (Socket AF_INET) (inr 8%nat); Call (SetSockOpt 8%nat) (inr tt);
             Call (Bind 8%nat "127.0.0.1" 9000) (inr tt);
             Call (Listen 8%nat 5) (inl (OSError 98));
             Call (Print (error_server (OSError 98))) tt; Call (Sleep 5) tt] in
  calls (exec scripted 7 (server "127.0.0.1" 9000 3 9001) script)
    = l1 ++ Call (Close 8%nat) tt :: [] /\
  dock_socket_after None l1 = Some 8%nat /\
  exists l0 x, l1 = l0 ++ [Call (Print (error_server x)) tt; Call (Sleep 5) tt].
Proof.
  cbn zeta. split; [vm_compute; reflexivity|].
  apply (server_closes_only_its_listening_socket scripted 7 "127.0.0.1" 9000 3 9001
           [returns_sock 8%nat; returns; returns; raises (OSError 98)]
           [Call (Socket AF_INET) (inr 8%nat); Call (SetSockOpt 8%nat) (inr tt);
            Call (Bind 8%nat "127.0.0.1" 9000) (inr tt);
            Call (Listen 8%nat 5) (inl (OSError 98));
            Call (Print (error_server (OSError 98))) tt; Call (Sleep 5) tt]
           8%nat []).
  vm_compute. reflexivity.
Defined.

(** Extra X7.  In every run of [server] in which [socket.socket(AF_INET)]
    has raised [x], enough steps bring the run through the report of [x],
    a sleep of 5, [close] on the socket [dock_socket] is still bound to
    from an earlier attempt (no [close] when there was none) and the call
    that makes a new listening socket.  That socket had been closed
    before: [server] then closes it a second time. *)
Theorem server_failed_socket_closes_again {W} (env : forall X, sockE X -> W -> W * X)
    (fuel : nat) (local_ip : string) (local_port remote_cid remote_port : Z) (w : W)
    l1 x l2 :
  calls (exec env fuel (server local_ip local_port remote_cid remote_port) w)
    = l1 ++ Call (Socket AF_INET) (inl x) :: l2 ->
  (exists fuel' y rest,
     calls (exec env fuel' (server local_ip local_port remote_cid remote_port) w)
       = l1 ++ Call (Socket AF_INET) (inl x)
            :: retry (dock_socket_after None l1) x ++ Call (Socket AF_INET) y :: rest) /\
  (forall s, dock_socket_after None l1 = Some s -> existsb (closes s) l1 = true).
Proof.
  intros Hn. split.
  - set (server := server local_ip local_port remote_cid remote_port) in *.
    set (m := (fuel + 2 * (length l1 + 5))%nat).
    destruct (exec_le env fuel m server w ltac:(lia)) as (l' & Hm & _).
    rewrite Hn, <- app_assoc in Hm. cbn in Hm.
    pose proof (proj1 (server_loop_log local_ip local_port remote_cid remote_port env m None w))
      as Hlog.
    fold server in Hlog.
    pose proof (server_steps local_ip local_port remote_cid remote_port env m w) as Hsteps.
    fold server in Hsteps. rewrite Hm, length_app in Hsteps. cbn in Hsteps.
    assert (Hlen : (length (retry (dock_socket_after None l1) x) <= 3)%nat)
      by (destruct (dock_socket_after None l1); cbn; lia).
    destruct (server_log_socket_error _ _ _ _ _ _ Hlog _ _ _ x Hm eq_refl eq_refl)
      as [(l'' & Hl)|(rest & Hl & [->|(y & rest' & ->)])].
    + exfalso. apply (f_equal (@length _)) in Hl. rewrite length_app in Hl. lia.
    + exfalso. rewrite Hl, app_nil_r in Hsteps. lia.
    + exists m, y, rest'. rewrite Hm, Hl. reflexivity.
  - intros s Hs.
    pose proof (proj1 (server_loop_log local_ip local_port remote_cid remote_port env fuel
                         None w)) as Hlog.
    destruct (server_log_closed_before _ _ _ _ _ _ Hlog _ _ _ Hn eq_refl)
      as [Hd|(s' & Hd & Hc)]; congruence.
Qed.

(** A run in which [bind] raises and then [socket.socket]. *)
Lemma server_failed_socket_closes_again_witness :
  let script := [returns_sock 8%nat; returns; raises (OSError 98); raises (OSError 24);
                 returns_sock 9%nat] in
  let l1 := [Call (Socket AF_INET) (inr 8%nat); Call (SetSockOpt 8%nat) (inr tt);
             Call (Bind 8%nat "127.0.0.1" 9000) (inl (OSError 98));
             Call (Print (error_server (OSError 98))) tt; Call (Sleep 5) tt;
             Call (Close 8%nat) tt] in
  calls (exec scripted 8 (server "127.0.0.1" 9000 3 9001) script)
    = l1 ++ Call (Socket AF_INET) (inl (OSError 24)) :: [] /\
  retry (dock_socket_after None l1) (OSError 24)
    = [Call (Print (error_server (OSError 24))) tt; Call (Sleep 5) tt;
       Call (Close 8%nat) tt] /\
  (exists fuel' y rest,
     calls (exec scripted fuel' (server "127.0.0.1" 9000 3 9001) script)
       = l1 ++ Call (Socket AF_INET) (inl (OSError 24))
            :: retry (dock_socket_after None l1) (OSError 24)
            ++ Call (Socket AF_INET) y :: rest) /\
  (forall s, dock_socket_after None l1 = Some s -> existsb (closes s) l1 = true).
Proof.
  cbn zeta. split; [vm_compute; reflexivity|]. split; [reflexivity|].
  apply (server_failed_socket_closes_again scripted 8 "127.0.0.1" 9000 3 9001
           [returns_sock 8%nat; returns; raises (OSError 98); raises (OSError 24);
            returns_sock 9%nat]
           [Call (Socket AF_INET) (inr 8%nat); Call (SetSockOpt 8%nat) (inr tt);
            Call (Bind 8%nat "127.0.0.1" 9000) (inl (OSError 98));
            Call (Print (error_server (OSError 98))) tt; Call (Sleep 5) tt;
            Call (Close 8%nat) tt]
           (OSError 24) []).
  vm_compute. reflexivity.
Defined.

(** Extra X8.  When fewer than four arguments are given, or one of the
    three numbers does not parse, [main] raises before it makes any call:
    no thread is started and nothing is printed.  The exception is
    [IndexError], or the one [int] raised on one of the arguments. *)
Theorem main_rejects_bad_arguments {W} (int : string -> exn + Z)
    (env : forall X, sockE X -> W -> W * X) (args : list string) (w : W) (fuel : nat) :
  (length args < 4)%nat \/
  (exists i a e, (1 <= i <= 3)%nat /\ nth_error args i = Some a /\ int a = inl e) ->
  exists e,
    exec env (S fuel) (main int args) w = Run [] w (Some (inl e)) (S fuel) /\
    (e = IndexError \/ exists a, In a args /\ int a = inl e).
Proof.
  intros H. unfold main.
  destruct (subscript args 0) as [e0|local_ip] eqn:E0;
    [exists e0; split; [reflexivity|left; eapply subscript_inl; eassumption]|].
  destruct (int_arg int args 1) as [e1|local_port] eqn:E1;
    [exists e1; split; [reflexivity|eapply int_arg_inl; eassumption]|].
  destruct (int_arg int args 2) as [e2|remote_cid] eqn:E2;
    [exists e2; split; [reflexivity|eapply int_arg_inl; eassumption]|].
  destruct (int_arg int args 3) as [e3|remote_port] eqn:E3;
    [exists e3; split; [reflexivity|eapply int_arg_inl; eassumption]|].
  exfalso.
  destruct (int_arg_inr _ _ _ _ E1) as [_ H1], (int_arg_inr _ _ _ _ E2) as [_ H2],
    (int_arg_inr _ _ _ _ E3) as [L3 H3].
  destruct H as [H|(i & a & e & Hi & Ha & He)]; [lia|].
  assert (Hc : (i = 1 \/ i = 2 \/ i = 3)%nat) by lia.
  destruct Hc as [->|[->| ->]];
    [specialize (H1 _ Ha)|specialize (H2 _ Ha)|specialize (H3 _ Ha)]; congruence.
Qed.

(** [main] on three arguments, and on a port that is no number. *)
Lemma main_rejects_bad_arguments_witness :
  (exists e,
     exec scripted 5 (main example_int ["127.0.0.1"; "9000"; "3"]%string) [returns]
       = Run [] [returns] (Some (inl e)) 5 /\
     (e = IndexError \/
      exists a, In a ["127.0.0.1"; "9000"; "3"]%string /\ example_int a = inl e)) /\
  (exists e,
     exec scripted 5 (main example_int ["127.0.0.1"; "http"; "3"; "9001"]%string) [returns]
       = Run [] [returns] (Some (inl e)) 5 /\
     (e = IndexError \/
      exists a, In a ["127.0.0.1"; "http"; "3"; "9001"]%string /\ example_int a = inl e)).
Proof.
  split.
  - apply (main_rejects_bad_arguments example_int scripted
             ["127.0.0.1"; "9000"; "3"]%string [returns] 4).
    left. cbn. lia.
  - apply (main_rejects_bad_arguments example_int scripted
             ["127.0.0.1"; "http"; "3"; "9001"]%string [returns] 4).
    right. exists 1%nat, "http"%string, ValueError.
    split; [lia|]. split; reflexivity.
Defined.

(** Extra X9.  [main] reads its first four arguments only: whatever
    follows them on the command line is ignored. *)
Theorem main_ignores_further_arguments (int : string -> exn + Z)
    (args more : list string) :
  (4 <= length args)%nat -> main int (args ++ more) = main int args.
Proof.
  intros H. unfold main, int_arg. rewrite !subscript_app by lia. reflexivity.
Qed.

Lemma main_ignores_further_arguments_witness :
  main example_int (["127.0.0.1"; "9000"; "3"; "9001"]%string ++ ["--verbose"%string])
    = main example_int ["127.0.0.1"; "9000"; "3"; "9001"]%string.
Proof.
  apply (main_ignores_further_arguments example_int
           ["127.0.0.1"; "9000"; "3"; "9001"]%string ["--verbose"]%string).
  cbn. lia.
Defined.

(** Extra X10.  When the four arguments parse and the start of the
    server thread raises, [main] raises the same exception: the start of
    the thread is its only call, it prints nothing and does not enter the
    keep-alive loop. *)
Theorem main_raises_when_thread_start_fails {W} (int : string -> exn + Z)
    (env : forall X, sockE X -> W -> W * X) (args : list string)
    (local_ip : string) (local_port remote_cid remote_port : Z) (w : W) (e : exn)
    (fuel : nat) :
  subscript args 0 = inr local_ip ->
  int_arg int args 1 = inr local_port ->
  int_arg int args 2 = inr remote_cid ->
  int_arg int args 3 = inr remote_port ->
  snd (env _ (ThreadStart (target_server local_ip local_port remote_cid remote_port)) w)
    = inl e ->
  let r := exec env (2 + fuel) (main int args) w in
  calls r = [Call (ThreadStart (target_server local_ip local_port remote_cid remote_port))
                  (inl e)] /\
  result r = Some (inl e).
Proof.
  intros H0 H1 H2 H3 Hs. unfold main. rewrite H0, H1, H2, H3. cbn zeta.
  cbn [Nat.add]. rewrite exec_call, Hs, exec_ret. cbn. auto.
Qed.

Lemma main_raises_when_thread_start_fails_witness :
  let args := ["127.0.0.1"; "9000"; "3"; "9001"]%string in
  let r := exec scripted 10 (main example_int args) [raises RuntimeError] in
  calls r = [Call (ThreadStart (target_server "127.0.0.1" 9000 3 9001)) (inl RuntimeError)] /\
  result r = Some (inl RuntimeError).
Proof.
  apply (main_raises_when_thread_start_fails example_int scripted
           ["127.0.0.1"; "9000"; "3"; "9001"]%string "127.0.0.1" 9000 3 9001
           [raises RuntimeError] RuntimeError 8); reflexivity.
Defined.

(** Extra X11.  Take the two threads [server] starts for an accepted
    connection, on two different sockets, each run against an environment
    of its own for any number of steps.  In every interleaving of their
    calls, what has been written to the peer is a prefix of what has been
    read from the client, and what has been written to the client is a
    prefix of what has been read from the peer: neither thread disturbs
    the direction of the other. *)
Theorem session_relays_both_directions {W1 W2}
    (env1 : forall X, sockE X -> W1 -> W1 * X) (env2 : forall X, sockE X -> W2 -> W2 * X)
    (fuel1 fuel2 : nat) (client_socket server_socket : sock) (w1 : W1) (w2 : W2) l :
  client_socket <> server_socket ->
  interleave
    (calls (exec env1 fuel1 (thread_code (target_forward client_socket server_socket)) w1))
    (calls (exec env2 fuel2 (thread_code (target_forward server_socket client_socket)) w2))
    l ->
  (exists rest, received client_socket l = written server_socket l ++ rest) /\
  (exists rest, received server_socket l = written client_socket l ++ rest).
Proof.
  intros Hne Hl. cbn [thread_code] in Hl.
  pose proof (forward_loop_log client_socket server_socket env1 fuel1 [Byte.x20] w1 eq_refl) as L1.
  pose proof (forward_loop_log server_socket client_socket env2 fuel2 [Byte.x20] w2 eq_refl) as L2.
  fold (forward client_socket server_socket) in L1.
  fold (forward server_socket client_socket) in L2.
  pose proof (forward_log_forward_call _ _ _ _ L1) as C1.
  pose proof (forward_log_forward_call _ _ _ _ L2) as C2.
  apply forward_log_written_prefix in L1. apply forward_log_written_prefix in L2.
  unfold received, written in *.
  destruct (interleave_flat_map (bytes_received client_socket) _ _ _ Hl) as [R1 _].
  destruct (interleave_flat_map (bytes_written server_socket) _ _ _ Hl) as [W1' _].
  destruct (interleave_flat_map (bytes_received server_socket) _ _ _ Hl) as [_ R2].
  destruct (interleave_flat_map (bytes_written client_socket) _ _ _ Hl) as [_ W2'].
  rewrite R1, W1', R2, W2'; [auto| | | |].
  - apply (forward_call_other_destination _ _ _ _ C1). assumption.
  - apply (forward_call_other_source _ _ _ _ C1). congruence.
  - apply (forward_call_other_destination _ _ _ _ C2). congruence.
  - apply (forward_call_other_source _ _ _ _ C2). assumption.
Qed.

(** A session in which each side sends one chunk, the calls of the two
    threads alternating. *)
Lemma session_relays_both_directions_witness :
  let outgoing := exec scripted 3 (thread_code (target_forward 1%nat 2%nat))
                    [returns_bytes [Byte.x61]; returns] in
  let incoming := exec scripted 3 (thread_code (target_forward 2%nat 1%nat))
                    [returns_bytes [Byte.x62]; returns] in
  let l := [Call (Recv 1%nat 1024) (inr [Byte.x61]);
            Call (Recv 2%nat 1024) (inr [Byte.x62]);
            Call (SendAll 1%nat [Byte.x62]) (inr tt);
            Call (SendAll 2%nat [Byte.x61]) (inr tt)] in
  1%nat <> 2%nat /\
  interleave (calls outgoing) (calls incoming) l /\
  (exists rest, received 1%nat l = written 2%nat l ++ rest) /\
  (exists rest, received 2%nat l = written 1%nat l ++ rest).
Proof.
  cbn zeta.
  assert (H1 : 1%nat <> 2%nat) by discriminate.
  assert (H2 : interleave
                 (calls (exec scripted 3 (thread_code (target_forward 1%nat 2%nat))
                    [returns_bytes [Byte.x61]; returns]))
                 (calls (exec scripted 3 (thread_code (target_forward 2%nat 1%nat))
                    [returns_bytes [Byte.x62]; returns]))
                 [Call (Recv 1%nat 1024) (inr [Byte.x61]);
                  Call (Recv 2%nat 1024) (inr [Byte.x62]);
                  Call (SendAll 1%nat [Byte.x62]) (inr tt);
                  Call (SendAll 2%nat [Byte.x61]) (inr tt)])
    by (vm_compute; repeat constructor).
  split; [exact H1|]. split; [exact H2|].
  exact (session_relays_both_directions scripted scripted 3 3 1%nat 2%nat
           [returns_bytes [Byte.x61]; returns] [returns_bytes [Byte.x62]; returns]
           _ H1 H2).
Defined.

(** * Further properties of the deployment script *)

(** Extra X12.  Running [update_expose_enclave_script] with a secret on
    the file an earlier run has left gives the file it gives on the file
    the earlier run found: the secret lines of the earlier run are
    replaced, not added to.  The file is read and written in text mode, on
    a platform whose line separator is the line feed or carriage return
    and line feed; the ARN and the region of the earlier run are taken to
    hold neither a newline nor a carriage return. *)
Theorem update_expose_enclave_script_replaces
    (linesep region1 region2 : string) (arn1 arn2 : option string)
    (role1 role2 : string) (file : option string) :
  linesep = posix_linesep \/ linesep = windows_linesep ->
  match given arn1 with
  | Some arn => one_line arn && no_return arn
  | None => true
  end = true ->
  one_line region1 && no_return region1 = true ->
  given arn2 <> None ->
  update_expose_enclave_file linesep region2 arn2 role2
    (update_expose_enclave_file linesep region1 arn1 role1 file)
    = update_expose_enclave_file linesep region2 arn2 role2 file.
Proof.
  intros Hls Ha Hr H2. unfold update_expose_enclave_file at 2.
  destruct (given arn1) as [a1|] eqn:G1; [|reflexivity].
  apply andb_true_iff in Ha, Hr. destruct Ha as [Ha1 Ha2], Hr as [Hr1 Hr2].
  destruct file as [on_disk|]; unfold update_expose_enclave_script; rewrite G1;
    cbn [option_map fst]; [|reflexivity].
  unfold update_expose_enclave_file, update_expose_enclave_script.
  destruct (given arn2) as [a2|]; [|congruence]. cbn [option_map fst]. do 2 f_equal.
  rewrite (read_write_text _ _ Hls)
    by (apply updated_script_no_return; [assumption|assumption|apply read_text_no_return]).
  apply updated_script_again; assumption.
Qed.

(** A file with an old secret line and line ends of carriage return and
    line feed, updated for one secret and then for another. *)
Lemma update_expose_enclave_script_replaces_witness :
  let file := write_text windows_linesep
                (join_lines ["#!/bin/bash"; "# Secrets-block"; "SECRET_VALUE=old";
                             "nitro-cli run-enclave"]%string) in
  update_expose_enclave_file windows_linesep "eu-west-1" (Some "arn:b"%string) "role"
    (update_expose_enclave_file windows_linesep "us-east-1" (Some "arn:a"%string) "role"
       (Some file))
    = update_expose_enclave_file windows_linesep "eu-west-1" (Some "arn:b"%string) "role"
        (Some file) /\
  update_expose_enclave_file windows_linesep "eu-west-1" (Some "arn:b"%string) "role"
    (Some file)
    = Some (write_text windows_linesep
              (join_lines ["#!/bin/bash"; "# Secrets-block";
                           secret_value_line "arn:b" "eu-west-1"; secrets_json_line;
                           "nitro-cli run-enclave"]%string)).
Proof.
  cbn zeta. split.
  - apply (update_expose_enclave_script_replaces windows_linesep "us-east-1" "eu-west-1"
             (Some "arn:a"%string) (Some "arn:b"%string) "role" "role").
    + right. reflexivity.
    + reflexivity.
    + reflexivity.
    + discriminate.
  - vm_compute. reflexivity.
Defined.



(** Extra X14.  In the lines of the script [update_expose_enclave_script]
    writes (the ARN and the region holding no newline, and at least one
    line of the script read being kept), every line is a kept line of the
    script read or one of the two new lines, and every kept line that
    holds the marker is directly followed by the line that fetches the
    secret and the line that writes [secrets.json]. *)
Theorem update_expose_enclave_script_lines
    (region secret_arn role_name content : string) :
  one_line secret_arn = true -> one_line region = true ->
  secret_arn <> EmptyString ->
  filter kept_line (split_lines content) <> [] ->
  exists lines,
    update_expose_enclave_script region (Some secret_arn) role_name (Some content)
      = (Some (join_lines lines), [updated_expose_enclave]) /\
    split_lines (join_lines lines) = lines /\
    filter kept_line lines = filter kept_line (split_lines content) /\
    forallb (fun line => kept_line line
                         || String.eqb line (secret_value_line secret_arn region)
                         || String.eqb line secrets_json_line) lines = true /\
    (forall l1 line l2,
       lines = l1 ++ line :: l2 ->
       kept_line line = true -> contains "# Secrets-block" line = true ->
       exists l2', l2 = secret_value_line secret_arn region :: secrets_json_line :: l2').
Proof.
  intros Ha Hr Hn Hf.
  set (filtered_lines := filter kept_line (split_lines content)) in *.
  assert (Hk : forallb kept_line filtered_lines = true) by apply forallb_filter.
  assert (Ho : forallb one_line filtered_lines = true)
    by (apply forallb_filter_other, split_lines_each_one_line).
  exists (add_secret_lines secret_arn region filtered_lines).
  split; [|split; [|split; [|split]]].
  - unfold update_expose_enclave_script, given.
    destruct secret_arn; [congruence|reflexivity].
  - pose proof (add_secret_lines_one_line _ _ _ Ha Hr Ho) as H1.
    destruct (add_secret_lines secret_arn region filtered_lines) eqn:E.
    + apply add_secret_lines_nil in E. congruence.
    + apply split_join_lines. exact H1.
  - apply filter_add_secret_lines. exact Hk.
  - apply add_secret_lines_each. exact Hk.
  - apply add_secret_lines_after_marker. exact Hk.
Qed.

(** A script with the marker twice. *)
Lemma update_expose_enclave_script_lines_witness :
  let content := join_lines ["# Secrets-block"; "cat secrets.json"; "# Secrets-block"]%string in
  exists lines,
    update_expose_enclave_script "us-east-1" (Some "arn:a"%string) "role" (Some content)
      = (Some (join_lines lines), [updated_expose_enclave]) /\
    split_lines (join_lines lines) = lines /\
    filter kept_line lines = filter kept_line (split_lines content) /\
    forallb (fun line => kept_line line
                         || String.eqb line (secret_value_line "arn:a" "us-east-1")
                         || String.eqb line secrets_json_line) lines = true /\
    (forall l1 line l2,
       lines = l1 ++ line :: l2 ->
       kept_line line = true -> contains "# Secrets-block" line = true ->
       exists l2', l2 = secret_value_line "arn:a" "us-east-1" :: secrets_json_line :: l2').
Proof.
  cbn zeta.
  apply (update_expose_enclave_script_lines "us-east-1" "arn:a" "role"
           (join_lines ["# Secrets-block"; "cat secrets.json"; "# Secrets-block"]%string)).
  - reflexivity.
  - reflexivity.
  - discriminate.
  - vm_compute. discriminate.
Defined.

(** Extra X15.  For endpoints that hold no newline, the script
    [generate_user_data] returns has 32 lines and two more for each
    endpoint, and the endpoint at position [i] of the list is put on the
    allow-list by line [18 + i] and proxied by the line
    [32 + len(endpoints) + i], on port [8101 + i]: the ports follow the
    order of the list, one each. *)
Theorem generate_user_data_ports (endpoints : list string) :
  forallb one_line endpoints = true ->
  let lines := split_lines (generate_user_data endpoints) in
  length lines = (32 + 2 * length endpoints)%nat /\
  forall i endpoint, nth_error endpoints i = Some endpoint ->
    nth_error lines (18 + i) = Some (allow_line endpoint) /\
    nth_error lines (32 + length endpoints + i)
      = Some (proxy_line (8101 + Z.of_nat i) endpoint).
Proof.
  intros H. cbn zeta. rewrite (generate_user_data_lines _ H). split.
  - rewrite !length_app, length_map, proxy_lines_length. cbn. lia.
  - intros i endpoint Hi.
    assert (Li : (i < length endpoints)%nat) by (apply nth_error_Some; congruence).
    assert (Hh : length user_data_head = 18%nat) by reflexivity.
    assert (Ha : length user_data_allocator = 14%nat) by reflexivity.
    split.
    + rewrite nth_error_app2 by lia.
      rewrite nth_error_app1 by (rewrite length_map; lia).
      replace (18 + i - length user_data_head)%nat with i by lia.
      rewrite nth_error_map, Hi. reflexivity.
    + rewrite nth_error_app2 by lia.
      rewrite nth_error_app2 by (rewrite length_map; lia).
      rewrite nth_error_app2 by (rewrite length_map; lia).
      rewrite length_map.
      replace (32 + length endpoints + i - length user_data_head - length endpoints
               - length user_data_allocator)%nat with i by lia.
      apply proxy_lines_nth. exact Hi.
Qed.

(** The script for a KMS endpoint and a Secrets Manager endpoint. *)
Lemma generate_user_data_ports_witness :
  let endpoints := ["kms.us-east-1.amazonaws.com";
                    "secretsmanager.us-east-1.amazonaws.com"]%string in
  let lines := split_lines (generate_user_data endpoints) in
  length lines = 36%nat /\
  nth_error lines 35
    = Some ("vsock-proxy 8102 secretsmanager.us-east-1.amazonaws.com 443 --config /etc/nitro_enclaves/vsock-proxy.yaml &"%string).
Proof.
  cbn zeta.
  pose proof (generate_user_data_ports
                ["kms.us-east-1.amazonaws.com";
                 "secretsmanager.us-east-1.amazonaws.com"]%string eq_refl) as [H1 H2].
  split; [exact H1|].
  exact (proj2 (H2 1%nat "secretsmanager.us-east-1.amazonaws.com"%string eq_refl)).
Defined.
